(** * Navidrome: folder producer of the scanner (scanner2/produce_folders.go)
      and archiver (core/archiver.go)

    A shallow embedding of the two Go source files and the properties
    proved about them.  Go values are modelled as follows.

    - [error] is the message that [err.Error()] returns; a Go [error]
      value is an [option error], [None] being [nil].
    - [time.Time] is an integer number of clock units counted from the
      zero time, so the zero value is [0] and [t.After(u)] is [u < t].
    - the file system is a snapshot: [os.Stat] and [os.Open] are
      functions of the path.  An open directory is the sequence of
      results its successive [ReadDir(-1)] calls give.
    - [context.Context]: the number of further [ctx.Err()] calls that
      will still see [nil]; cancellation is permanent.
    - the results channel is the list of the folders sent on it, the
      consumer being taken to read them all; the log is the list of the
      lines written; a Go map that is ranged over is the list of its
      entries in the order of the range.
    - loops that Go writes as [for { ... }] and the recursion over the
      directory tree take a fuel argument; running out of fuel is
      [None]. *)

From Stdlib Require Import ZArith NArith String Ascii List Bool Lia.
From Stdlib Require Import Decimal DecimalFacts DecimalN DecimalString.
From Stdlib Require Import Sorting.Sorted Sorting.Permutation.
From Stdlib Require OrderedTypeEx.
From stdpp Require Import gmap strings.

Import ListNotations.
Local Open Scope string_scope.
Local Open Scope Z_scope.

(** ** Go values shared by both packages *)

Definition error := string.

Inductive result (A : Type) : Type :=
| Ok (a : A)
| Err (e : error).
Arguments Ok {A} a.
Arguments Err {A} e.

Definition Time := Z.
Definition zeroTime : Time := 0.

(** [t.After(u)] *)
Definition After (t u : Time) : bool := u <? t.

Inductive logLevel := LError | LWarn | LInfo | LDebug | LTrace.

Record logLine := LogLine { lvl : logLevel; msg : string; detail : string }.

Module Scanner2.

(** ** Data model *)

Record fileInfo := FileInfo { ModTime : Time; fiIsDir : bool }.

(** [fs.DirEntry]: the four methods of the interface. *)
Record dirEntry := DirEntry {
  Name : string;
  IsDir : bool;
  Type_ : N;                       (* fs.FileMode type bits *)
  Info : result fileInfo
}.

(** [os.ModeSymlink], bit 27 of [fs.FileMode]. *)
Definition ModeSymlink : N := N.shiftl 1 27.

(** One [ReadDir(-1)] call: the entries read and the error, if any. *)
Definition readResult : Type := list dirEntry * option error.

(** [fs.ReadDirFile]: the result of the n-th [ReadDir(-1)] call, from 0,
    and the result of [Close]. *)
Record dirFile := DirFile {
  ReadDirAt : nat -> readResult;
  CloseErr : option error
}.

Record Library := Lib { libID : Z; libPath : string; libName : string }.

Record folderEntry := FolderEntry {
  id : string;
  path : string;
  modTime : Time;
  updTime : Time;
  audioFiles : gmap string dirEntry;
  imageFiles : gmap string dirEntry;
  playlists : list dirEntry;
  imagesUpdatedAt : Time
}.

(** What the walk reads and writes besides the file system. *)
Record world := World {
  ctxLeft : option nat;            (* ctx: nil-answers left; None = never cancelled *)
  numFolders : Z;                  (* scanCtx.numFolders *)
  logs : list logLine;             (* log output, oldest first *)
  results : list folderEntry;      (* folders sent on the results channel *)
  readDirCalls : nat               (* number of ReadDir calls made *)
}.

(** ** A state monad with failure for running out of fuel *)

Definition M (A : Type) : Type := world -> option (A * world).

Definition ret {A} (a : A) : M A := fun w => Some (a, w).

Definition bind {A B} (c : M A) (k : A -> M B) : M B :=
  fun w => match c w with
           | Some (a, w') => k a w'
           | None => None
           end.

Definition outOfFuel {A} : M A := fun _ => None.

(** A nil pointer dereference: the run stops without a result. *)
Definition panic {A} : M A := fun _ => None.

Notation "x <- c ;; k" := (bind c (fun x => k))
  (at level 100, c at next level, right associativity).
Notation "c ;;; k" := (bind c (fun _ => k))
  (at level 100, right associativity).

(** [ctx.Err() != nil] *)
Definition ctx_Err : M bool := fun w =>
  match ctxLeft w with
  | None => Some (false, w)
  | Some O => Some (true, w)
  | Some (S n) =>
      Some (false, World (Some n) (numFolders w) (logs w) (results w) (readDirCalls w))
  end.

Definition log (l : logLevel) (m d : string) : M unit := fun w =>
  Some (tt, World (ctxLeft w) (numFolders w) (logs w ++ [LogLine l m d])
                  (results w) (readDirCalls w)).

(** [dir.ReadDir(-1)] on a handle that has answered [n] calls so far. *)
Definition ReadDir (dir : dirFile) (n : nat) : M readResult := fun w =>
  Some (ReadDirAt dir n, World (ctxLeft w) (numFolders w) (logs w) (results w)
                     (S (readDirCalls w))).

(** [scanCtx.numFolders.Add(1)] *)
Definition numFolders_Add1 : M unit := fun w =>
  Some (tt, World (ctxLeft w) (numFolders w + 1) (logs w) (results w)
                  (readDirCalls w)).

(** [results <- folder] *)
Definition send (f : folderEntry) : M unit := fun w =>
  Some (tt, World (ctxLeft w) (numFolders w) (logs w) (results w ++ [f])
                  (readDirCalls w)).

(** ** Directory reader *)

(** [sort.Slice(allEntries, func(i, j) { Name(i) < Name(j) })].  Go
    sorts by the byte order of the names and does not say in which
    order it leaves entries of the same name.  The insertion sort here
    moves an entry past the entries whose name is less than its own,
    so entries of the same name stay in the order they were read in,
    which is what [sort.Slice] does on short slices.  The properties of
    the reader are stated with [Sorted] and [Permutation] alone, and so
    hold of any order among entries of the same name. *)
Fixpoint insertByName (e : dirEntry) (l : list dirEntry) : list dirEntry :=
  match l with
  | [] => [e]
  | x :: l' =>
      if String.ltb (Name x) (Name e) then x :: insertByName e l'
      else e :: x :: l'
  end.

Fixpoint sortByName (l : list dirEntry) : list dirEntry :=
  match l with
  | [] => []
  | x :: l' => insertByName x (sortByName l')
  end.

(** The body of the [for] loop of [fullReadDir]; [n] counts the
    [ReadDir] calls this handle has answered. *)
Fixpoint fullReadDir_loop (fuel : nat) (dir : dirFile) (n : nat)
    (allEntries : list dirEntry) (prevErrStr : string) : M (list dirEntry) :=
  match fuel with
  | O => outOfFuel
  | S fuel' =>
      cancelled <- ctx_Err ;;
      if cancelled then ret []
      else
        r <- ReadDir dir n ;;
        let allEntries := (allEntries ++ fst r)%list in
        match snd r with
        | None => ret (sortByName allEntries)
        | Some e =>
            log LWarn "Skipping DirEntry" e ;;;
            if String.eqb prevErrStr e then
              log LError "Scanner: Duplicate DirEntry failure, bailing" e ;;;
              ret (sortByName allEntries)
            else fullReadDir_loop fuel' dir (S n) allEntries e
        end
  end.

Definition fullReadDir (fuel : nat) (dir : dirFile) : M (list dirEntry) :=
  fullReadDir_loop fuel dir 0 [] "".

(** ** Path classifier *)

(** ASCII case folding; on the letters of ["$RECYCLE.BIN"] it is the
    whole of Unicode simple folding, none of them having a fold partner
    outside ASCII. *)
Definition foldAscii (c : ascii) : ascii :=
  let n := N_of_ascii c in
  if ((65 <=? n) && (n <=? 90))%N then ascii_of_N (n + 32) else c.

(** [strings.EqualFold] *)
Fixpoint EqualFold (s t : string) : bool :=
  match s, t with
  | EmptyString, EmptyString => true
  | String a s', String b t' =>
      Ascii.eqb (foldAscii a) (foldAscii b) && EqualFold s' t'
  | _, _ => false
  end.

(** [strings.HasPrefix(s, prefix)] *)
Definition HasPrefix (s pre : string) : bool := String.prefix pre s.

(** The collaborators of the package: the file system snapshot, the
    path functions of [path/filepath], the file-kind predicates of
    package [model], the constants and the platform. *)
Record env := Env {
  os_Stat : string -> result fileInfo;
  os_Open : string -> result dirFile;
  filepath_Join : list string -> string;
  filepath_Clean : string -> string;
  IsAudioFile : string -> bool;
  IsValidPlaylist : string -> bool;
  IsImageFile : string -> bool;
  SkipScanFile : string;           (* consts.SkipScanFile *)
  GOOS : string;                   (* runtime.GOOS *)
  FolderID : Library -> string -> string   (* model.FolderID *)
}.

(** [scanContext]; its counter [numFolders] lives in [world]. *)
Record scanContext := ScanContext {
  lib : Library;
  fullRescan : bool;
  lastUpdatesInDB : gmap string Time
}.

(** Modelled from the spec: [scanContext.getLastUpdatedInDB] is not in
    the source files at hand.  "the last-recorded update time for this
    id, taken from the scan context's lookup; zero value if never seen
    before". *)
Definition getLastUpdatedInDB (scanCtx : scanContext) (i : string) : Time :=
  match lastUpdatesInDB scanCtx !! i with
  | Some t => t
  | None => zeroTime
  end.

(** Modelled from the spec: [folderEntry.isOutdated] is not in the source
    files at hand.  "its recomputed modTime is strictly after its
    updTime". *)
Definition isOutdated (f : folderEntry) : bool := After (modTime f) (updTime f).

Section Walk.

Variable E : env.
Variable scanCtx : scanContext.

Definition isDirOrSymlinkToDir (baseDir : string) (dirEnt : dirEntry) : result bool :=
  if IsDir dirEnt then Ok true
  else if (N.land (Type_ dirEnt) ModeSymlink =? 0)%N then Ok false
  else
    match os_Stat E (filepath_Join E [baseDir; Name dirEnt]) with
    | Err e => Err e
    | Ok fileInfo => Ok (fiIsDir fileInfo)
    end.

Definition isDirReadable (baseDir : string) (dirEnt : dirEntry) : M bool :=
  let path := filepath_Join E [baseDir; Name dirEnt] in
  match os_Open E path with
  | Err e => log LWarn "Scanner: Skipping unreadable directory" path ;;; ret false
  | Ok dir =>
      match CloseErr dir with
      | Some e => log LWarn "Scanner: Error closing directory" path
      | None => ret tt
      end ;;;
      ret true
  end.

Definition isDirIgnored (baseDir : string) (dirEnt : dirEntry) : bool :=
  let name := Name dirEnt in
  if HasPrefix name "." && negb (HasPrefix name "..") then true
  else if String.eqb (GOOS E) "windows" && EqualFold name "$RECYCLE.BIN" then true
  else
    match os_Stat E (filepath_Join E [baseDir; name; SkipScanFile E]) with
    | Ok _ => true
    | Err _ => false
    end.

(** ** Tree walker *)

Definition set_modTime (f : folderEntry) (t : Time) : folderEntry :=
  FolderEntry (id f) (path f) t (updTime f) (audioFiles f) (imageFiles f)
              (playlists f) (imagesUpdatedAt f).

Definition set_path (f : folderEntry) (p : string) : folderEntry :=
  FolderEntry (id f) p (modTime f) (updTime f) (audioFiles f) (imageFiles f)
              (playlists f) (imagesUpdatedAt f).

(** The [switch] of [loadDir] on the kind of a file. *)
Definition classify (entry : dirEntry) (fileInfo : fileInfo) (f : folderEntry)
  : folderEntry :=
  let name := Name entry in
  if IsAudioFile E name then
    FolderEntry (id f) (path f) (modTime f) (updTime f)
                (<[name := entry]> (audioFiles f)) (imageFiles f)
                (playlists f) (imagesUpdatedAt f)
  else if IsValidPlaylist E name then
    FolderEntry (id f) (path f) (modTime f) (updTime f)
                (audioFiles f) (imageFiles f)
                (playlists f ++ [entry]) (imagesUpdatedAt f)
  else if IsImageFile E name then
    FolderEntry (id f) (path f) (modTime f) (updTime f)
                (audioFiles f) (<[name := entry]> (imageFiles f))
                (playlists f)
                (if After (ModTime fileInfo) (imagesUpdatedAt f)
                 then ModTime fileInfo else imagesUpdatedAt f)
  else f.

(** What [loadDir] returns: [folder] (a pointer, [None] is nil),
    [children] and [err]. *)
Definition loaded : Type := option folderEntry * list string * option error.

(** The error of a cancelled context, [context.Canceled]. *)
Definition Canceled : error := "context canceled".

(** The [range] loop of [loadDir] over the entries read. *)
Fixpoint loadDir_range (dirPath : string) (entries : list dirEntry)
    (folder : folderEntry) (children : list string) : M loaded :=
  match entries with
  | [] => ret (Some folder, children, None)
  | entry :: rest =>
      cancelled <- ctx_Err ;;
      if cancelled then ret (Some folder, children, Some Canceled)
      else
        match isDirOrSymlinkToDir dirPath entry with
        | Err e =>
            log LWarn "Scanner: Invalid symlink"
                (filepath_Join E [dirPath; Name entry]) ;;;
            loadDir_range dirPath rest folder children
        | Ok isDir =>
            walkable <- (if isDir && negb (isDirIgnored dirPath entry)
                         then isDirReadable dirPath entry else ret false) ;;
            if (walkable : bool) then
              loadDir_range dirPath rest folder
                (children ++ [filepath_Join E [dirPath; Name entry]])
            else
              match Info entry with
              | Err e =>
                  log LWarn "Scanner: Error getting fileInfo" (Name entry) ;;;
                  ret (Some folder, children, Some e)
              | Ok fileInfo =>
                  let folder :=
                    if After (ModTime fileInfo) (modTime folder)
                    then set_modTime folder (ModTime fileInfo) else folder in
                  loadDir_range dirPath rest (classify entry fileInfo folder) children
              end
        end
  end.

(** The folder entry as [loadDir] first builds it. *)
Definition newFolderEntry (dirPath : string) : folderEntry :=
  let fid := FolderID E (lib scanCtx) dirPath in
  FolderEntry fid dirPath zeroTime (getLastUpdatedInDB scanCtx fid)
              ∅ ∅ [] zeroTime.

(** The deferred [dir.Close()] drops its error and is left out. *)
Definition loadDir (fuel : nat) (dirPath : string) : M loaded :=
  let folder := newFolderEntry dirPath in
  match os_Stat E dirPath with
  | Err e =>
      log LWarn "Scanner: Error stating dir" dirPath ;;;
      ret (None, [], Some e)
  | Ok dirInfo =>
      let folder := set_modTime folder (ModTime dirInfo) in
      match os_Open E dirPath with
      | Err e =>
          log LWarn "Scanner: Error in Opening directory" dirPath ;;;
          ret (Some folder, [], Some e)
      | Ok dir =>
          entries <- fullReadDir fuel dir ;;
          loadDir_range dirPath entries folder []
      end
  end.

(** [for _, c := range children { err := walk(c); if err != nil { return err } }] *)
Fixpoint forChildren (walk : string -> M (option error)) (children : list string)
  : M (option error) :=
  match children with
  | [] => ret None
  | c :: rest =>
      err <- walk c ;;
      match err with
      | Some e => ret (Some e)
      | None => forChildren walk rest
      end
  end.

Fixpoint walkFolder (fuel : nat) (currentFolder : string) : M (option error) :=
  match fuel with
  | O => outOfFuel
  | S fuel' =>
      l <- loadDir fuel' currentFolder ;;
      let '(folder, children, err) := l in
      match err with
      | Some e =>
          log LWarn "Scanner: Error loading dir. Skipping" currentFolder ;;;
          ret None
      | None =>
          numFolders_Add1 ;;;
          err <- forChildren (walkFolder fuel') children ;;
          match err with
          | Some e => ret (Some e)
          | None =>
              match folder with
              | None => panic
              | Some folder =>
                  if negb (isOutdated folder) && negb (fullRescan scanCtx)
                  then ret None
                  else
                    let dir := filepath_Clean E currentFolder in
                    log LTrace "Scanner: Found directory" dir ;;;
                    send (set_path folder dir) ;;;
                    ret None
              end
          end
      end
  end.

(** [walkDirTree]: the folders its goroutine sends on the fresh channel
    it returns, in order, when the consumer reads them all; [w] gives
    the context and the counter. *)
Definition walkDirTree (fuel : nat) (w : world) : option (list folderEntry) :=
  let w := World (ctxLeft w) (numFolders w) (logs w) [] (readDirCalls w) in
  match walkFolder fuel (libPath (lib scanCtx)) w with
  | Some (_, w') => Some (results w')
  | None => None
  end.

End Walk.

(** ** Vocabulary of the properties *)

(** [a] may stand before [b]: its name is not after [b]'s in byte order. *)
Definition nameLe (a b : dirEntry) : Prop := String.leb (Name a) (Name b) = true.

(** The error of the [i]-th [ReadDir] call and the entries of the calls
    [n], ..., [n + k - 1]. *)
Definition errAt (dir : dirFile) (i : nat) : option error := snd (ReadDirAt dir i).

Definition entriesOfCalls (dir : dirFile) (n k : nat) : list dirEntry :=
  List.concat (List.map (fun i => fst (ReadDirAt dir i)) (seq n k)).

(** The context answers nil to at least [c] more calls of [ctx.Err()]. *)
Definition ctxAllows (c : nat) (w : world) : Prop :=
  match ctxLeft w with
  | None => True
  | Some l => (c <= l)%nat
  end.

(** The context after one [ctx.Err()] that saw nil. *)
Definition ctxTick (o : option nat) : option nat :=
  match o with
  | Some (S n) => Some n
  | other => other
  end.

(** The world after an iteration of [fullReadDir] that read with error
    [e] and goes on to retry. *)
Definition afterRetry (w : world) (e : error) : world :=
  World (ctxTick (ctxLeft w)) (numFolders w)
        (logs w ++ [LogLine LWarn "Skipping DirEntry" e])
        (results w) (S (readDirCalls w)).

(** [s] starts with [pre]. *)
Definition startsWith (s pre : string) : Prop := exists rest, s = pre ++ rest.

(** The string with its ASCII capitals made small. *)
Fixpoint lowerCase (s : string) : string :=
  match s with
  | EmptyString => EmptyString
  | String c s' => String (foldAscii c) (lowerCase s')
  end.

(** The skip-scan marker file can be stat'ed inside the directory. *)
Definition hasSkipScanFile (E : env) (baseDir name : string) : Prop :=
  exists fileInfo,
    os_Stat E (filepath_Join E [baseDir; name; SkipScanFile E]) = Ok fileInfo.

(** The path under which [loadDir] collects the entry as a child. *)
Definition childPath (E : env) (dirPath : string) (entry : dirEntry) : string :=
  filepath_Join E [dirPath; Name entry].

(** The answer of [isDirReadable], which besides logs. *)
Definition dirReadable (E : env) (baseDir : string) (dirEnt : dirEntry) : bool :=
  match os_Open E (childPath E baseDir dirEnt) with
  | Ok _ => true
  | Err _ => false
  end.

(** The entry is collected as a child directory to walk. *)
Definition walkable (E : env) (dirPath : string) (entry : dirEntry) : bool :=
  match isDirOrSymlinkToDir E dirPath entry with
  | Ok isDir => isDir && negb (isDirIgnored E dirPath entry)
                && dirReadable E dirPath entry
  | Err _ => false
  end.

(** The entry is treated as a file of the folder: its link, if it is
    one, resolves, and it is not collected as a child. *)
Definition countedAsFile (E : env) (dirPath : string) (entry : dirEntry) : bool :=
  match isDirOrSymlinkToDir E dirPath entry with
  | Ok _ => negb (walkable E dirPath entry)
  | Err _ => false
  end.

(** The entry reaches the image case of the [switch]. *)
Definition storedAsImage (E : env) (entry : dirEntry) : bool :=
  negb (IsAudioFile E (Name entry)) && negb (IsValidPlaylist E (Name entry))
  && IsImageFile E (Name entry).

Definition entryModTime (entry : dirEntry) : Time :=
  match Info entry with
  | Ok fileInfo => ModTime fileInfo
  | Err _ => zeroTime
  end.

(** The most recent of [base] and the times [ts]. *)
Definition latest (base : Time) (ts : list Time) : Time := fold_left Z.max ts base.

(** The [modTime] that C4 states: the most recent time among the
    directory's own and its non-directory children that are audio, image
    or playlist files. *)
Definition statedModTime (E : env) (dirInfo : fileInfo) (entries : list dirEntry)
  : Time :=
  latest (ModTime dirInfo)
    (List.map entryModTime
       (List.filter (fun e => negb (IsDir e) &&
                       (IsAudioFile E (Name e) || IsImageFile E (Name e)
                        || IsValidPlaylist E (Name e)))
                    entries)).

(** [loadDir] and [fullReadDir] leave the channel and the counter alone. *)
Definition quiet (w w' : world) : Prop :=
  results w' = results w /\ numFolders w' = numFolders w.

(** One entry of the [range] loop has been looked at: the context has
    answered once, and only the log may have grown. *)
Definition stepped (w w' : world) : Prop :=
  ctxLeft w' = ctxTick (ctxLeft w) /\ readDirCalls w' = readDirCalls w /\
  quiet w w' /\ exists lines, logs w' = (logs w ++ lines)%list.

(** The folder after [loadDir] has taken the time of a file into
    [modTime]. *)
Definition bumpModTime (f : folderEntry) (fileInfo : fileInfo) : folderEntry :=
  if After (ModTime fileInfo) (modTime f)
  then set_modTime f (ModTime fileInfo) else f.

(** The world after [scanCtx.numFolders.Add(1)]. *)
Definition afterCount (w : world) : world :=
  World (ctxLeft w) (numFolders w + 1) (logs w) (results w) (readDirCalls w).

(** What [walkFolder] sends for a folder it has loaded, once its
    children are walked. *)
Definition ownEmission (E : env) (scanCtx : scanContext) (currentFolder : string)
    (folder : folderEntry) : list folderEntry :=
  if isOutdated folder || fullRescan scanCtx
  then [set_path folder (filepath_Clean E currentFolder)] else [].

(** Every child of the list is walked, in order, each from the world
    the one before has left. *)
Inductive walkedAll (walk : string -> M (option error))
  : list string -> world -> world -> Prop :=
| walkedAll_nil (w : world) : walkedAll walk [] w w
| walkedAll_cons (c : string) (rest : list string) (w w1 w' : world) :
    walk c w = Some (None, w1) ->
    walkedAll walk rest w1 w' ->
    walkedAll walk (c :: rest) w w'.

(** ** Sample directories *)

(** A regular file with the given name and modification time. *)
Definition regularFile (name : string) (t : Time) : dirEntry :=
  DirEntry name false 0 (Ok (FileInfo t false)).

Definition world0 : world := World None 0 [] [] 0.

(** A handle that fails once and then reads to the end. *)
Definition dirOneFailure : dirFile :=
  DirFile (fun i => match i with
                    | O => ([regularFile "b.mp3" 5], Some "input/output error")
                    | _ => ([regularFile "a.mp3" 7], None)
                    end) None.

(** A handle that fails with the same message on every call. *)
Definition dirStuck : dirFile :=
  DirFile (fun i => match i with
                    | O => ([regularFile "b.mp3" 5], Some "input/output error")
                    | 1%nat => ([regularFile "a.mp3" 7], Some "input/output error")
                    | _ => ([regularFile "c.mp3" 9], Some "input/output error")
                    end) None.

(** A handle that fails twice with the same message and would then
    read to the end. *)
Definition dirStuckThenDone : dirFile :=
  DirFile (fun i => match i with
                    | O => ([regularFile "b.mp3" 5], Some "input/output error")
                    | 1%nat => ([regularFile "a.mp3" 7], Some "input/output error")
                    | _ => ([regularFile "c.mp3" 9], None)
                    end) None.

(** A handle that returns an entry of the same name in two calls. *)
Definition dirSameName : dirFile :=
  DirFile (fun i => match i with
                    | O => ([regularFile "x.mp3" 1], Some "input/output error")
                    | _ => ([regularFile "x.mp3" 2], None)
                    end) None.

(** A handle whose errors have an empty message. *)
Definition dirStuckEmptyMessage : dirFile :=
  DirFile (fun i => match i with
                    | O => ([regularFile "b.mp3" 5], Some "")
                    | _ => ([regularFile "a.mp3" 7], Some "")
                    end) None.

(** [strings.HasSuffix], for the sample file-kind predicates. *)
Definition HasSuffix (s suf : string) : bool :=
  String.eqb (String.substring (String.length s - String.length suf)
                               (String.length suf) s) suf.

Definition directory (name : string) : dirEntry :=
  DirEntry name true (N.shiftl 1 31) (Ok (FileInfo 1 true)).

(** A symbolic link, which [Info] describes as such. *)
Definition symlink (name : string) (t : Time) : dirEntry :=
  DirEntry name false ModeSymlink (Ok (FileInfo t false)).

(** A file whose [Info] fails. *)
Definition vanishedFile (name : string) : dirEntry :=
  DirEntry name false 0 (Err "no such file or directory").

Definition readsAtOnce (entries : list dirEntry) : dirFile :=
  DirFile (fun _ => (entries, None)) None.

(** A library at /music:
    - /music (time 10): Album/, notes.txt (time 20), .hidden/, broken (a
      dangling link);
    - /music/Album (time 30): 01.mp3 (25), cover.jpg (35), list.m3u (15). *)
Definition sampleRoot : list dirEntry :=
  [directory "Album"; regularFile "notes.txt" 20; directory ".hidden";
   symlink "broken" 40].

Definition sampleAlbum : list dirEntry :=
  [regularFile "01.mp3" 25; regularFile "cover.jpg" 35; regularFile "list.m3u" 15].

Definition sampleEnv : env :=
  Env (fun p => if String.eqb p "/music" then Ok (FileInfo 10 true)
                else if String.eqb p "/music/Album" then Ok (FileInfo 30 true)
                else Err "no such file or directory")
      (fun p => if String.eqb p "/music" then Ok (readsAtOnce sampleRoot)
                else if String.eqb p "/music/Album" then Ok (readsAtOnce sampleAlbum)
                else Err "permission denied")
      (String.concat "/")
      (fun p => p)
      (fun n => HasSuffix n ".mp3")
      (fun n => HasSuffix n ".m3u")
      (fun n => HasSuffix n ".jpg")
      ".ndignore"
      "linux"
      (fun l p => p).

Definition sampleLib : Library := Lib 1 "/music" "Music".

(** Nothing recorded yet: every folder is outdated. *)
Definition scanFresh : scanContext := ScanContext sampleLib false ∅.

(** Both folders recorded at time 100, later than every file. *)
Definition scanUpToDate : scanContext :=
  ScanContext sampleLib false (<["/music" := 100]> (<["/music/Album" := 100]> ∅)).

(** Only the album has changed since the time recorded. *)
Definition scanAlbumChanged : scanContext :=
  ScanContext sampleLib false (<["/music" := 100]> (<["/music/Album" := 30]> ∅)).

Definition scanFull : scanContext :=
  ScanContext sampleLib true (<["/music" := 100]> (<["/music/Album" := 100]> ∅)).

(** The same library with a file in /music that vanishes between the
    listing and [Info]. *)
Definition sampleEnvVanished : env :=
  Env (os_Stat sampleEnv)
      (fun p => if String.eqb p "/music"
                then Ok (readsAtOnce [directory "Album"; vanishedFile "gone.mp3";
                                      regularFile "kept.mp3" 20])
                else os_Open sampleEnv p)
      (filepath_Join sampleEnv) (filepath_Clean sampleEnv)
      (IsAudioFile sampleEnv) (IsValidPlaylist sampleEnv) (IsImageFile sampleEnv)
      (SkipScanFile sampleEnv) (GOOS sampleEnv) (FolderID sampleEnv).

(** What the loader and the walk give on the sample library. *)
Definition sampleAlbumFolder (upd : Time) : folderEntry :=
  FolderEntry "/music/Album" "/music/Album" 35 upd
              (<["01.mp3" := regularFile "01.mp3" 25]> ∅)
              (<["cover.jpg" := regularFile "cover.jpg" 35]> ∅)
              [regularFile "list.m3u" 15] 35.

Definition sampleRootFolder (upd : Time) : folderEntry :=
  FolderEntry "/music" "/music" 20 upd ∅ ∅ [] zeroTime.

Definition invalidSymlinkLine : logLine :=
  LogLine LWarn "Scanner: Invalid symlink" "/music/broken".

Definition foundLine (dir : string) : logLine :=
  LogLine LTrace "Scanner: Found directory" dir.

(** ** Further vocabulary *)

(** The paths that a walk from [root] can come to: the root, and in
    turn the paths of the entries that a [ReadDir] call on such a
    directory returns and that [loadDir] collects as children. *)
Inductive inLibrary (E : env) (root : string) : string -> Prop :=
| inLibrary_root : inLibrary E root root
| inLibrary_child (p : string) (dir : dirFile) (i : nat) (e : dirEntry) :
    inLibrary E root p ->
    os_Open E p = Ok dir ->
    In e (fst (ReadDirAt dir i)) ->
    walkable E p e = true ->
    inLibrary E root (childPath E p e).

(** What holds of every folder that a walk from [root] sends: it is
    outdated or the scan is a full rescan, its path is the cleaned path
    of a directory that the walk can come to, and its id and recorded
    time are those of that directory. *)
Definition sentByWalk (E : env) (scanCtx : scanContext) (root : string)
    (f : folderEntry) : Prop :=
  (isOutdated f = true \/ fullRescan scanCtx = true) /\
  exists d,
    inLibrary E root d /\
    path f = filepath_Clean E d /\
    id f = FolderID E (lib scanCtx) d /\
    updTime f = getLastUpdatedInDB scanCtx (id f).

(** [loadDir] loads the directory at [p], as [folder] and with the
    children [children], when the context is never cancelled. *)
Definition loads (E : env) (scanCtx : scanContext) (p : string)
    (folder : folderEntry) (children : list string) : Prop :=
  exists (fuel : nat) (w w' : world),
    ctxLeft w = None /\
    loadDir E scanCtx fuel p w = Some ((Some folder, children, None), w').

(** [d] is [p], or lies below [p] through directories that load: each
    one is among the children collected in the one above it. *)
Inductive reaches (E : env) (scanCtx : scanContext) : string -> string -> Prop :=
| reaches_here (p : string) : reaches E scanCtx p p
| reaches_below (p c d : string) (folder : folderEntry) (children : list string) :
    loads E scanCtx p folder children ->
    In c children ->
    reaches E scanCtx c d ->
    reaches E scanCtx p d.

(** [sent] holds exactly the entries of the directories reached from
    the paths of [from] that load and are outdated, or that load in a
    full rescan, each under its cleaned path. *)
Definition sentBelow (E : env) (scanCtx : scanContext) (from : list string)
    (sent : list folderEntry) : Prop :=
  forall x : folderEntry,
    In x sent <->
    exists (c d : string) (f : folderEntry) (ch : list string),
      In c from /\ reaches E scanCtx c d /\ loads E scanCtx d f ch /\
      (isOutdated f = true \/ fullRescan scanCtx = true) /\
      x = set_path f (filepath_Clean E d).

(** A library at /lib in three levels.  /lib (time 10) holds Mid/;
    /lib/Mid holds Deep/ and gone.mp3, a file that vanishes between the
    listing and [Info]; /lib/Mid/Deep holds new.mp3 (time 50).  Only
    /lib has been recorded, at time 100. *)
Definition sampleEnvDeep : env :=
  Env (fun p => if String.eqb p "/lib" then Ok (FileInfo 10 true)
                else if String.eqb p "/lib/Mid" then Ok (FileInfo 10 true)
                else if String.eqb p "/lib/Mid/Deep" then Ok (FileInfo 10 true)
                else Err "no such file or directory")
      (fun p => if String.eqb p "/lib" then Ok (readsAtOnce [directory "Mid"])
                else if String.eqb p "/lib/Mid"
                then Ok (readsAtOnce [directory "Deep"; vanishedFile "gone.mp3"])
                else if String.eqb p "/lib/Mid/Deep"
                then Ok (readsAtOnce [regularFile "new.mp3" 50])
                else Err "permission denied")
      (filepath_Join sampleEnv) (filepath_Clean sampleEnv)
      (IsAudioFile sampleEnv) (IsValidPlaylist sampleEnv) (IsImageFile sampleEnv)
      (SkipScanFile sampleEnv) (GOOS sampleEnv) (FolderID sampleEnv).

Definition scanDeep : scanContext :=
  ScanContext (Lib 1 "/lib" "Deep") false (<["/lib" := 100]> ∅).

(** The entry reaches the audio or the playlist case of the [switch]. *)
Definition storedAsAudio (E : env) (entry : dirEntry) : bool :=
  IsAudioFile E (Name entry).

Definition storedAsPlaylist (E : env) (entry : dirEntry) : bool :=
  negb (IsAudioFile E (Name entry)) && IsValidPlaylist E (Name entry).

(** The map after the entries of the list are stored under their names,
    as the audio and the image case of the [switch] do one by one. *)
Definition storeByName (m : gmap string dirEntry) (entries : list dirEntry)
  : gmap string dirEntry :=
  fold_left (fun m e => <[Name e := e]> m) entries m.

(** A handle whose errors alternate between two messages for ever. *)
Definition dirAlternating : dirFile :=
  DirFile (fun i => ([], Some (if Nat.even i then "timeout" else "busy"))) None.

(** A handle that fails with the same message for ever, reading nothing. *)
Definition dirAlwaysFailing : dirFile :=
  DirFile (fun _ => ([], Some "input/output error")) None.

(** The depth left below a path of the sample library. *)
Definition sampleRank (p : string) : nat :=
  if String.eqb p "/music" then 1%nat else 0%nat.

(** The sample library with a root that cannot be stat'ed. *)
Definition sampleEnvNoRoot : env :=
  Env (fun _ => Err "no such file or directory")
      (os_Open sampleEnv)
      (filepath_Join sampleEnv) (filepath_Clean sampleEnv)
      (IsAudioFile sampleEnv) (IsValidPlaylist sampleEnv) (IsImageFile sampleEnv)
      (SkipScanFile sampleEnv) (GOOS sampleEnv) (FolderID sampleEnv).

End Scanner2.


Module Archiver.

(** ** Data model *)

(** The fields of [model.MediaFile] that the archiver reads. *)
Record MediaFile := {
  ID : string;
  Path : string;
  Suffix : string;
  Artist : string;
  Title : string;
  Album : string;
  AlbumArtist : string;
  AlbumID : string;
  DiscNumber : Z;
  UpdatedAt : Time
}.

(** [model.QueryOptions] with an equality filter and a sort column. *)
Record QueryOptions := {
  filterColumn : string;
  filterValue : string;
  Sort : string
}.

(** [zip.FileHeader] *)
Record FileHeader := {
  hdrName : string;
  Modified : Time;
  Method : Z
}.

(** [zip.Store] *)
Definition Store : Z := 0.

(** The collaborators: the data store, the media streamer, the zip
    writer over the output and the files.  [zipWriter] is the state of
    the [zip.Writer] together with what it has written; [reader] is an
    open [io.ReadCloser]. *)
Record services := Services {
  zipWriter : Type;
  reader : Type;
  playlist : Type;
  MediaFile_GetAll : QueryOptions -> result (list MediaFile);
  Playlist_GetWithTracks : string -> bool -> result playlist;
  plName : playlist -> string;
  MediaFiles : playlist -> list MediaFile;       (* pls.MediaFiles() *)
  DoStream : MediaFile -> string -> Z -> result reader;
  os_Open : string -> result reader;
  reader_Close : reader -> option error;
  zip_NewWriter : zipWriter;
  CreateHeader : zipWriter -> FileHeader -> zipWriter * option error;
  io_Copy : zipWriter -> reader -> zipWriter * option error;
  zip_Close : zipWriter -> zipWriter * option error;
  filepath_Split : string -> string * string;
  (* slice.Group, with the groups in the order in which the map that it
     returns is ranged over *)
  slice_Group : forall K : Type, (MediaFile -> K) -> list MediaFile ->
                list (K * list MediaFile);
  debugLogging : bool                 (* log.CurrentLevel() >= log.LevelDebug *)
}.

(** ** Formatting *)

(** Go's [int] on a 64-bit platform. *)
Definition wrapInt (z : Z) : Z := (z + 2 ^ 63) mod 2 ^ 64 - 2 ^ 63.

(** [%d] of a number that is not negative. *)
Definition decimal (n : N) : string := NilEmpty.string_of_uint (N.to_uint n).

Fixpoint zeros (k : nat) : string :=
  match k with
  | O => ""
  | S k' => String "0" (zeros k')
  end.

(** Zero padding on the left up to [width] characters. *)
Definition zeroPad (width : nat) (s : string) : string :=
  zeros (width - String.length s) ++ s.

(** [%02d]: the sign counts in the width. *)
Definition fmt_02d (z : Z) : string :=
  if z <? 0 then "-" ++ zeroPad 1 (decimal (Z.to_N (- z)))
  else zeroPad 2 (decimal (Z.to_N z)).

(** [strings.TrimSuffix] *)
Definition TrimSuffix (s suffix : string) : string :=
  let n := (String.length s - String.length suffix)%nat in
  if (String.length suffix <=? String.length s)%nat
     && String.eqb (String.substring n (String.length suffix) s) suffix
  then String.substring 0 n s else s.

Section Zip.

Variable E : services.

(** The zip writer and the log, threaded through the calls. *)
Definition state : Type := zipWriter E * list logLine.

Definition albumFilename (mf : MediaFile) (format : string) (isMultDisc : bool)
  : string :=
  let file := snd (filepath_Split E (Path mf)) in
  let file := if negb (String.eqb format "raw")
              then TrimSuffix file (Suffix mf) ++ format else file in
  let file := if isMultDisc
              then "Disc " ++ fmt_02d (DiscNumber mf) ++ "/" ++ file else file in
  Album mf ++ "/" ++ file.

Definition playlistFilename (mf : MediaFile) (format : string) (idx : Z) : string :=
  let ext := if negb (String.eqb format "raw") then format else Suffix mf in
  fmt_02d (wrapInt (idx + 1)) ++ " - " ++ Artist mf ++ " - " ++ Title mf
  ++ "." ++ ext.

(** The deferred [r.Close()]. *)
Definition closeStream (r : reader E) (mf : MediaFile) : list logLine :=
  match reader_Close E r with
  | Some e => if debugLogging E
              then [LogLine LError "Error closing stream" (Path mf)] else []
  | None => []
  end.

Definition addFileToZip (st : state) (mf : MediaFile) (format : string)
    (bitrate : Z) (filename : string) : state * option error :=
  let '(z, lg) := st in
  let '(z, err) := CreateHeader E z (Build_FileHeader filename (UpdatedAt mf) Store) in
  match err with
  | Some e =>
      ((z, lg ++ [LogLine LError "Error creating zip entry" (Path mf)])%list, Some e)
  | None =>
      match (if negb (String.eqb format "raw")
             then DoStream E mf format bitrate else os_Open E (Path mf)) with
      | Err e =>
          ((z, lg ++ [LogLine LError "Error opening file for zipping" (Path mf)])%list,
           Some e)
      | Ok r =>
          let '(z, err) := io_Copy E z r in
          match err with
          | Some e =>
              ((z, lg ++ [LogLine LError "Error zipping file" (Path mf)]
                      ++ closeStream r mf)%list, Some e)
          | None => ((z, lg ++ closeStream r mf)%list, None)
          end
      end
  end.

(** [err := z.Close(); if err != nil { log.Error(...) }; return err] *)
Definition closeZip (st : state) (id : string) : state * option error :=
  let '(z, lg) := st in
  let '(z, err) := zip_Close E z in
  match err with
  | Some e => ((z, lg ++ [LogLine LError "Error closing zip file" id])%list, Some e)
  | None => ((z, lg), None)
  end.

(** The inner loop of [zipAlbums]: the files of one album. *)
Fixpoint zipAlbum_files (st : state) (album : list MediaFile) (format : string)
    (bitrate : Z) (isMultDisc : bool) : state :=
  match album with
  | [] => st
  | mf :: rest =>
      let file := albumFilename mf format isMultDisc in
      let '(st, _) := addFileToZip st mf format bitrate file in
      zipAlbum_files st rest format bitrate isMultDisc
  end.

(** The outer loop of [zipAlbums]; [None] is the panic of [album[0]] on
    an empty group. *)
Fixpoint zipAlbums_albums (st : state) (albums : list (string * list MediaFile))
    (format : string) (bitrate : Z) : option state :=
  match albums with
  | [] => Some st
  | (_, album) :: rest =>
      let discs := slice_Group E Z DiscNumber album in
      let isMultDisc := (1 <? List.length discs)%nat in
      match album with
      | [] => None
      | first :: _ =>
          let '(z, lg) := st in
          let st := (z, lg ++ [LogLine LDebug "Zipping album" (Album first)])%list in
          zipAlbums_albums (zipAlbum_files st album format bitrate isMultDisc)
                           rest format bitrate
      end
  end.

Definition zipAlbums (lg : list logLine) (id format : string) (bitrate : Z)
    (mfs : list MediaFile) : option (state * option error) :=
  let z := zip_NewWriter E in
  let albums := slice_Group E string AlbumID mfs in
  match zipAlbums_albums (z, lg) albums format bitrate with
  | None => None
  | Some st => Some (closeZip st id)
  end.

(** A call that fails before the zip writer exists leaves only the log. *)
Definition failed (lg : list logLine) (e : error) : option (state * option error) :=
  Some ((zip_NewWriter E, lg), Some e).

Definition ZipAlbum (lg : list logLine) (id format : string) (bitrate : Z)
  : option (state * option error) :=
  match MediaFile_GetAll E (Build_QueryOptions "album_id" id "album") with
  | Err e =>
      failed (lg ++ [LogLine LError "Error loading mediafiles from album" id]) e
  | Ok mfs => zipAlbums lg id format bitrate mfs
  end.

Definition ZipArtist (lg : list logLine) (id format : string) (bitrate : Z)
  : option (state * option error) :=
  match MediaFile_GetAll E (Build_QueryOptions "album_artist_id" id "album") with
  | Err e =>
      failed (lg ++ [LogLine LError "Error loading mediafiles from artist" id]) e
  | Ok mfs => zipAlbums lg id format bitrate mfs
  end.

(** The loop of [zipPlaylist], [idx] being the index of the first file
    of [mfs]. *)
Fixpoint zipPlaylist_files (st : state) (mfs : list MediaFile) (idx : Z)
    (format : string) (bitrate : Z) : state :=
  match mfs with
  | [] => st
  | mf :: rest =>
      let file := playlistFilename mf format idx in
      let '(st, _) := addFileToZip st mf format bitrate file in
      zipPlaylist_files st rest (idx + 1) format bitrate
  end.

Definition zipPlaylist (lg : list logLine) (id format : string) (bitrate : Z)
    (pls : playlist E) : option (state * option error) :=
  let mfs := MediaFiles E pls in
  let z := zip_NewWriter E in
  let lg := (lg ++ [LogLine LDebug "Zipping playlist" (plName E pls)])%list in
  Some (closeZip (zipPlaylist_files (z, lg) mfs 0 format bitrate) id).

Definition ZipPlaylist (lg : list logLine) (id format : string) (bitrate : Z)
  : option (state * option error) :=
  match Playlist_GetWithTracks E id true with
  | Err e =>
      failed (lg ++ [LogLine LError "Error loading mediafiles from playlist" id]) e
  | Ok pls => zipPlaylist lg id format bitrate pls
  end.

End Zip.

(** ** Vocabulary of the properties *)

(** The number that a string of decimal digits denotes. *)
Definition numeralValue (s : string) : option N :=
  option_map N.of_uint (NilEmpty.uint_of_string s).

(** The zip writer after [addFileToZip] on a file and its name in the
    archive, whatever the call returned. *)
Definition writerAfter (E : services) (format : string) (bitrate : Z)
    (z : zipWriter E) (named : MediaFile * string) : zipWriter E :=
  fst (fst (addFileToZip E (z, []) (fst named) format bitrate (snd named))).

(** The zip writer after every file of the list, in order. *)
Definition writerAfterAll (E : services) (format : string) (bitrate : Z)
    (named : list (MediaFile * string)) : zipWriter E :=
  fold_left (writerAfter E format bitrate) named (zip_NewWriter E).

(** No group that [slice.Group] returns is empty. *)
Definition groupsNonEmpty (E : services) : Prop :=
  forall (K : Type) (key : MediaFile -> K) (l : list MediaFile),
    Forall (fun g => snd g <> []) (slice_Group E K key l).

(** The files of the albums with the names they get in the archive, and
    the log line that opens each album. *)
Definition albumEntries (E : services) (format : string) (album : list MediaFile)
  : list (MediaFile * string) :=
  let isMultDisc := (1 <? List.length (slice_Group E Z DiscNumber album))%nat in
  List.map (fun mf => (mf, albumFilename E mf format isMultDisc)) album.

(** The files of a playlist with their names, numbered from [idx]. *)
Fixpoint playlistEntries (format : string) (mfs : list MediaFile)
    (idx : Z) : list (MediaFile * string) :=
  match mfs with
  | [] => []
  | mf :: rest =>
      (mf, playlistFilename mf format idx)
      :: playlistEntries format rest (idx + 1)
  end.

(** All the files of the albums of [mfs], album after album. *)
Definition allAlbumEntries (E : services) (format : string) (mfs : list MediaFile)
  : list (MediaFile * string) :=
  List.concat (List.map (fun g => albumEntries E format (snd g))
                        (slice_Group E string AlbumID mfs)).

(** ** A sample archive *)

Definition sampleTrack (n : Z) (path : string) : MediaFile :=
  Build_MediaFile "id" path "flac" "Artist" "Title" "Album" "Artist" "a1" n 7.

Definition sampleTracks : list MediaFile :=
  [sampleTrack 1 "01.flac"; sampleTrack 1 "gone"; sampleTrack 1 "03.flac"].

(** A zip writer that records the names of the entries created and
    refuses the names that begin with a slash; every file opens except
    the one at the path gone. *)
Definition sampleServices : services :=
  Services (list string) string (list MediaFile)
      (fun q => if String.eqb (filterValue q) "missing"
                then Err "sql: no rows" else Ok sampleTracks)
      (fun id _ => if String.eqb id "missing" then Err "sql: no rows"
                   else Ok sampleTracks)
      (fun _ => "Favourites")
      (fun pls => pls)
      (fun mf _ _ => Ok (Path mf))
      (fun p => if String.eqb p "gone" then Err "no such file" else Ok p)
      (fun _ => None)
      []
      (fun z h => if String.prefix "/" (hdrName h) then (z, Some "zip: invalid name")
                  else ((z ++ [hdrName h])%list, None))
      (fun z r => (z, None))
      (fun z => (z, None))
      (fun p => ("", p))
      (fun K key l => match l with
                      | [] => []
                      | mf :: _ => [(key mf, l)]
                      end)
      false.

(** ** Further vocabulary *)

(** The same services with another media streamer, and with another
    [os.Open]. *)
Definition withDoStream (E : services)
    (stream : MediaFile -> string -> Z -> result (reader E)) : services :=
  Services (zipWriter E) (reader E) (playlist E) (MediaFile_GetAll E)
           (Playlist_GetWithTracks E) (plName E) (MediaFiles E)
           stream (os_Open E) (reader_Close E) (zip_NewWriter E)
           (CreateHeader E) (io_Copy E) (zip_Close E) (filepath_Split E)
           (slice_Group E) (debugLogging E).

Definition withOpen (E : services) (open : string -> result (reader E))
  : services :=
  Services (zipWriter E) (reader E) (playlist E) (MediaFile_GetAll E)
           (Playlist_GetWithTracks E) (plName E) (MediaFiles E)
           (DoStream E) open (reader_Close E) (zip_NewWriter E)
           (CreateHeader E) (io_Copy E) (zip_Close E) (filepath_Split E)
           (slice_Group E) (debugLogging E).

(** The string is made of decimal digits. *)
Definition isDigit (c : ascii) : bool :=
  (48 <=? nat_of_ascii c)%nat && (nat_of_ascii c <=? 57)%nat.

Fixpoint allDigits (s : string) : bool :=
  match s with
  | EmptyString => true
  | String c s' => isDigit c && allDigits s'
  end.

(** The messages of the error lines that [addFileToZip] writes for the
    error it returns. *)
Definition addFileToZipMessages : list string :=
  ["Error creating zip entry"; "Error opening file for zipping";
   "Error zipping file"].

(** Services whose zip writer cannot be closed. *)
Definition sampleServicesNoClose : services :=
  Services (zipWriter sampleServices) (reader sampleServices)
           (playlist sampleServices) (MediaFile_GetAll sampleServices)
           (Playlist_GetWithTracks sampleServices) (plName sampleServices)
           (MediaFiles sampleServices) (DoStream sampleServices)
           (os_Open sampleServices) (reader_Close sampleServices)
           (zip_NewWriter sampleServices) (CreateHeader sampleServices)
           (io_Copy sampleServices) (fun z => (z, Some "short write"))
           (filepath_Split sampleServices) (slice_Group sampleServices)
           (debugLogging sampleServices).

End Archiver.

(** * Strings *)

Lemma append_String (a : ascii) (s t : string) :
  String a s ++ t = String a (s ++ t).
Proof. reflexivity. Qed.

Lemma length_append (s t : string) :
  String.length (s ++ t) = (String.length s + String.length t)%nat.
Proof.
  induction s as [|a s IH]; [reflexivity|].
  rewrite append_String. simpl. now rewrite IH.
Qed.

(** * Properties of the scanner *)

Module Scanner2Facts.
Import Scanner2.

(** Unfolding of the monad and of the primitive operations. *)
Ltac munfold :=
  unfold bind, ret, log, ReadDir, ctx_Err, outOfFuel, panic,
         numFolders_Add1, send in *;
  simpl in *.

(** ** The order of [sort.Slice] *)

Lemma ltb_false_leb (s t : string) : String.ltb s t = false -> String.leb t s = true.
Proof.
  unfold String.ltb, String.leb. rewrite (String.compare_antisym s t).
  destruct (String.compare t s); simpl; congruence.
Qed.

Lemma ltb_true_leb (s t : string) : String.ltb s t = true -> String.leb s t = true.
Proof.
  unfold String.ltb, String.leb. destruct (String.compare s t); congruence.
Qed.

Lemma insertByName_perm (e : dirEntry) (l : list dirEntry) :
  Permutation (e :: l) (insertByName e l).
Proof.
  induction l as [|x l IH]; simpl.
  - apply Permutation_refl.
  - destruct (String.ltb (Name x) (Name e)).
    + eapply perm_trans; [apply perm_swap|]. now apply perm_skip.
    + apply Permutation_refl.
Qed.

Lemma sortByName_perm (l : list dirEntry) : Permutation l (sortByName l).
Proof.
  induction l as [|x l IH]; simpl.
  - constructor.
  - eapply perm_trans; [apply perm_skip, IH|]. apply insertByName_perm.
Qed.

Lemma insertByName_hd (e a : dirEntry) (l : list dirEntry) :
  nameLe a e -> HdRel nameLe a l -> HdRel nameLe a (insertByName e l).
Proof.
  intros Hae Hal. destruct l as [|x l]; simpl.
  - now constructor.
  - destruct (String.ltb (Name x) (Name e)); constructor; trivial.
    now inversion Hal.
Qed.

Lemma insertByName_sorted (e : dirEntry) (l : list dirEntry) :
  Sorted nameLe l -> Sorted nameLe (insertByName e l).
Proof.
  induction 1 as [|x l Hs IH Hhd]; simpl.
  - repeat constructor.
  - destruct (String.ltb (Name x) (Name e)) eqn:Hlt.
    + constructor; [exact IH|].
      apply insertByName_hd; [|exact Hhd]. now apply ltb_true_leb.
    + constructor; [now constructor|]. constructor.
      now apply ltb_false_leb.
Qed.

Lemma sortByName_sorted (l : list dirEntry) : Sorted nameLe (sortByName l).
Proof.
  induction l as [|x l IH]; simpl.
  - constructor.
  - now apply insertByName_sorted.
Qed.

(** ** The directory reader *)

Lemma entriesOfCalls_S (dir : dirFile) (n k : nat) :
  entriesOfCalls dir n (S k) = (fst (ReadDirAt dir n) ++ entriesOfCalls dir (S n) k)%list.
Proof. reflexivity. Qed.

Lemma entriesOfCalls_snoc (dir : dirFile) (n k : nat) :
  entriesOfCalls dir n (S k) =
  (entriesOfCalls dir n k ++ fst (ReadDirAt dir (n + k)))%list.
Proof.
  unfold entriesOfCalls. rewrite seq_S, List.map_app, List.concat_app. simpl.
  now rewrite List.app_nil_r.
Qed.

Lemma ctx_Err_alive (w : world) :
  ctxAllows 1 w ->
  ctx_Err w = Some (false, World (ctxTick (ctxLeft w)) (numFolders w) (logs w)
                                 (results w) (readDirCalls w)).
Proof.
  unfold ctxAllows, ctx_Err. destruct w as [[[|c]|] nf lg rs rc]; simpl; trivial.
  lia.
Qed.

Lemma ctx_Err_cancelled (w : world) :
  ctxLeft w = Some O -> ctx_Err w = Some (true, w).
Proof. unfold ctx_Err. now intros ->. Qed.

(** One iteration that reads an error different from the previous one. *)
Lemma fullReadDir_loop_retry (fuel : nat) (dir : dirFile) (n : nat)
    (allEntries : list dirEntry) (prevErrStr e : string) (w : world) :
  ctxAllows 1 w -> errAt dir n = Some e -> prevErrStr <> e ->
  fullReadDir_loop (S fuel) dir n allEntries prevErrStr w =
  fullReadDir_loop fuel dir (S n) (allEntries ++ fst (ReadDirAt dir n)) e
                   (afterRetry w e).
Proof.
  intros Hc He Hne. unfold errAt in He. simpl. unfold bind at 1.
  rewrite (ctx_Err_alive w Hc). unfold bind at 1, ReadDir. simpl.
  rewrite He. unfold bind at 1, log. simpl.
  apply String.eqb_neq in Hne. rewrite Hne. reflexivity.
Qed.

(** An iteration that reads without error ends the loop. *)
Lemma fullReadDir_loop_done (fuel : nat) (dir : dirFile) (n : nat)
    (allEntries : list dirEntry) (prevErrStr : string) (w : world) :
  ctxAllows 1 w -> errAt dir n = None ->
  fullReadDir_loop (S fuel) dir n allEntries prevErrStr w =
  Some (sortByName (allEntries ++ fst (ReadDirAt dir n)),
        World (ctxTick (ctxLeft w)) (numFolders w) (logs w) (results w)
              (S (readDirCalls w))).
Proof.
  intros Hc He. unfold errAt in He. simpl. unfold bind at 1.
  rewrite (ctx_Err_alive w Hc). unfold bind at 1, ReadDir. simpl.
  rewrite He. reflexivity.
Qed.

(** An iteration that reads the previous error again ends the loop. *)
Lemma fullReadDir_loop_stuck (fuel : nat) (dir : dirFile) (n : nat)
    (allEntries : list dirEntry) (e : string) (w : world) :
  ctxAllows 1 w -> errAt dir n = Some e ->
  fullReadDir_loop (S fuel) dir n allEntries e w =
  Some (sortByName (allEntries ++ fst (ReadDirAt dir n)),
        World (ctxTick (ctxLeft w)) (numFolders w)
              (logs w ++ [LogLine LWarn "Skipping DirEntry" e;
                          LogLine LError "Scanner: Duplicate DirEntry failure, bailing" e])
              (results w) (S (readDirCalls w))).
Proof.
  intros Hc He. unfold errAt in He. simpl. unfold bind at 1.
  rewrite (ctx_Err_alive w Hc). unfold bind at 1, ReadDir. simpl.
  rewrite He. unfold bind at 1, log. simpl.
  rewrite String.eqb_refl. unfold bind, ret. simpl.
  now rewrite <- List.app_assoc.
Qed.

Lemma fullReadDir_loop_cancelled (fuel : nat) (dir : dirFile) (n : nat)
    (allEntries : list dirEntry) (prevErrStr : string) (w : world) :
  ctxLeft w = Some O ->
  fullReadDir_loop (S fuel) dir n allEntries prevErrStr w = Some ([], w).
Proof.
  intros Hc. simpl. unfold bind. now rewrite (ctx_Err_cancelled w Hc).
Qed.

Lemma ctxAllows_afterRetry (c : nat) (w : world) (e : error) :
  ctxAllows (S c) w -> ctxAllows c (afterRetry w e).
Proof.
  unfold ctxAllows, afterRetry. destruct w as [[[|l]|] nf lg rs rc]; simpl; lia.
Qed.

Lemma ctxAllows_le (c d : nat) (w : world) :
  (d <= c)%nat -> ctxAllows c w -> ctxAllows d w.
Proof. unfold ctxAllows. destruct (ctxLeft w); [lia | trivial]. Qed.

(** More fuel does not change a result. *)
Lemma fullReadDir_loop_fuel (fuel d : nat) (dir : dirFile) (n : nat)
    (allEntries : list dirEntry) (prevErrStr : string) (w : world) r :
  fullReadDir_loop fuel dir n allEntries prevErrStr w = Some r ->
  fullReadDir_loop (fuel + d) dir n allEntries prevErrStr w = Some r.
Proof.
  revert n allEntries prevErrStr w.
  induction fuel as [|fuel IH]; intros n allEntries prevErrStr w; [discriminate|].
  simpl. munfold.
  destruct (ctxLeft w) as [[|c]|]; trivial;
    (destruct (snd (ReadDirAt dir n)) as [e|]; trivial;
     destruct (String.eqb prevErrStr e); trivial; apply IH).
Qed.

(** The loop ends at the latest with the first call that returns no
    error. *)
Lemma fullReadDir_loop_terminates (k : nat) (dir : dirFile) (n : nat)
    (allEntries : list dirEntry) (prevErrStr : string) (w : world) :
  errAt dir (n + k) = None ->
  exists r, fullReadDir_loop (S k) dir n allEntries prevErrStr w = Some r.
Proof.
  revert n allEntries prevErrStr w.
  induction k as [|k IH]; intros n allEntries prevErrStr w Hk;
    unfold errAt in Hk; simpl; munfold.
  - rewrite Nat.add_0_r in Hk. rewrite Hk.
    destruct (ctxLeft w) as [[|c]|]; eexists; reflexivity.
  - assert (Hgo : forall w1, exists r,
      match snd (ReadDirAt dir n) with
      | Some e => fun w2 : world =>
          (if String.eqb prevErrStr e
           then fun w3 : world =>
             Some (sortByName (allEntries ++ fst (ReadDirAt dir n)),
                   World (ctxLeft w3) (numFolders w3)
                     (logs w3 ++ [LogLine LError
                        "Scanner: Duplicate DirEntry failure, bailing" e])
                     (results w3) (readDirCalls w3))
           else fullReadDir_loop (S k) dir (S n)
                  (allEntries ++ fst (ReadDirAt dir n)) e)
            (World (ctxLeft w2) (numFolders w2)
               (logs w2 ++ [LogLine LWarn "Skipping DirEntry" e])
               (results w2) (readDirCalls w2))
      | None => fun w2 : world =>
          Some (sortByName (allEntries ++ fst (ReadDirAt dir n)), w2)
      end w1 = Some r).
    { intros w1. destruct (snd (ReadDirAt dir n)) as [e|]; [|eexists; reflexivity].
      destruct (String.eqb prevErrStr e); [eexists; reflexivity|].
      apply IH. unfold errAt. now rewrite Nat.add_succ_comm. }
    destruct (ctxLeft w) as [[|c]|]; [eexists; reflexivity | apply Hgo | apply Hgo].
Qed.

(** What a finished loop has done: [c] calls, of which only the last
    may be free of error; it either was cancelled and returns nothing,
    or returns all the entries read, sorted. *)
Lemma fullReadDir_loop_inv (fuel : nat) (dir : dirFile) (n : nat)
    (allEntries : list dirEntry) (prevErrStr : string) (w : world)
    (es : list dirEntry) (w' : world) :
  fullReadDir_loop fuel dir n allEntries prevErrStr w = Some (es, w') ->
  exists c, readDirCalls w' = (readDirCalls w + c)%nat /\
    results w' = results w /\ numFolders w' = numFolders w /\
    ((es = [] /\ ctxLeft w' = Some O /\
      forall i, (i < c)%nat -> errAt dir (n + i) <> None) \/
     (exists c', c = S c' /\
        es = sortByName (allEntries ++ entriesOfCalls dir n c) /\
        forall i, (i < c')%nat -> errAt dir (n + i) <> None)).
Proof.
  revert n allEntries prevErrStr w.
  induction fuel as [|fuel IH]; intros n allEntries prevErrStr w; [discriminate|].
  simpl. munfold.
  assert (Hone : forall w1 : world,
    readDirCalls w1 = S (readDirCalls w) -> results w1 = results w ->
    numFolders w1 = numFolders w ->
    exists c, readDirCalls w1 = (readDirCalls w + c)%nat /\
      results w1 = results w /\ numFolders w1 = numFolders w /\
      ((sortByName (allEntries ++ fst (ReadDirAt dir n)) = [] /\
        ctxLeft w1 = Some O /\
        forall i, (i < c)%nat -> errAt dir (n + i) <> None) \/
       (exists c', c = S c' /\
          sortByName (allEntries ++ fst (ReadDirAt dir n)) =
            sortByName (allEntries ++ entriesOfCalls dir n c) /\
          forall i, (i < c')%nat -> errAt dir (n + i) <> None))).
  { intros w1 Hrc Hrs Hnf. exists 1%nat. repeat split; trivial; try lia.
    right. exists O. repeat split; [|lia].
    unfold entriesOfCalls. simpl. now rewrite List.app_nil_r. }
  assert (Hmore : forall (e : error) (w1 : world),
    snd (ReadDirAt dir n) = Some e ->
    readDirCalls w1 = S (readDirCalls w) -> results w1 = results w ->
    numFolders w1 = numFolders w ->
    fullReadDir_loop fuel dir (S n) (allEntries ++ fst (ReadDirAt dir n)) e w1
      = Some (es, w') ->
    exists c, readDirCalls w' = (readDirCalls w + c)%nat /\
      results w' = results w /\ numFolders w' = numFolders w /\
      ((es = [] /\ ctxLeft w' = Some O /\
      forall i, (i < c)%nat -> errAt dir (n + i) <> None) \/
       (exists c', c = S c' /\
          es = sortByName (allEntries ++ entriesOfCalls dir n c) /\
          forall i, (i < c')%nat -> errAt dir (n + i) <> None))).
  { intros e w1 He Hrc Hrs Hnf H. apply IH in H.
    destruct H as (c & Hrc' & Hrs' & Hnf' & Hcases).
    exists (S c). repeat split; try congruence; try lia.
    destruct Hcases as [(-> & Hctx & Hall)|(c' & -> & -> & Hall)].
    - left. split; trivial. split; trivial. intros [|i] Hi.
      + rewrite Nat.add_0_r. unfold errAt. congruence.
      + rewrite <- Nat.add_succ_comm. apply Hall. lia.
    - right. exists (S c'). repeat split.
      + rewrite (entriesOfCalls_S dir n (S c')).
        now rewrite List.app_assoc.
      + intros [|i] Hi.
        * rewrite Nat.add_0_r. unfold errAt. congruence.
        * rewrite <- Nat.add_succ_comm. apply Hall. lia. }
  destruct (ctxLeft w) as [[|l]|] eqn:Hcl.
  - intros [= <- <-]. exists O. repeat split; try lia.
    left. split; trivial. split; trivial. intros i Hi. lia.
  - destruct (snd (ReadDirAt dir n)) as [e|] eqn:He.
    + destruct (String.eqb prevErrStr e).
      * intros [= <- <-]. apply Hone; reflexivity.
      * apply (Hmore e); trivial.
    + intros [= <- <-]. apply Hone; reflexivity.
  - destruct (snd (ReadDirAt dir n)) as [e|] eqn:He.
    + destruct (String.eqb prevErrStr e).
      * intros [= <- <-]. apply Hone; reflexivity.
      * apply (Hmore e); trivial.
    + intros [= <- <-]. apply Hone; reflexivity.
Qed.

(** The loop on a handle whose calls [n], ..., [n + k + 1] return the
    errors [m 0], ..., [m (k + 1)], the last two being the first
    repetition. *)
Lemma fullReadDir_loop_repeat (k fuel : nat) (dir : dirFile) (n : nat)
    (allEntries : list dirEntry) (prevErrStr : string) (m : nat -> error)
    (w : world) :
  ctxAllows (S (S k)) w ->
  (forall i, (i <= S k)%nat -> errAt dir (n + i) = Some (m i)) ->
  prevErrStr <> m O ->
  (forall i, (i < k)%nat -> m (S i) <> m i) ->
  m (S k) = m k ->
  exists w',
    fullReadDir_loop (S (S k) + fuel) dir n allEntries prevErrStr w =
      Some (sortByName (allEntries ++ entriesOfCalls dir n (S (S k))), w') /\
    readDirCalls w' = (readDirCalls w + S (S k))%nat /\
    results w' = results w /\ numFolders w' = numFolders w.
Proof.
  revert n allEntries prevErrStr m w.
  induction k as [|k IH]; intros n allEntries prevErrStr m w Hc Herr Hprev Hdiff Hrep.
  - assert (H0 : errAt dir n = Some (m O)).
    { rewrite <- (Nat.add_0_r n). apply Herr. lia. }
    assert (H1 : errAt dir (S n) = Some (m O)).
    { rewrite <- Hrep, <- Nat.add_1_r. apply Herr. lia. }
    change (2 + fuel)%nat with (S (S fuel)).
    rewrite (fullReadDir_loop_retry _ _ _ _ _ (m O)); trivial;
      [|eapply ctxAllows_le; [|exact Hc]; lia].
    rewrite fullReadDir_loop_stuck; trivial;
      [|apply ctxAllows_afterRetry; exact Hc].
    replace (allEntries ++ entriesOfCalls dir n 2)%list
      with ((allEntries ++ fst (ReadDirAt dir n)) ++ fst (ReadDirAt dir (S n)))%list
      by (unfold entriesOfCalls; simpl;
          now rewrite List.app_nil_r, <- List.app_assoc).
    eexists. split; [reflexivity|]. simpl. repeat split; lia.
  - assert (H0 : errAt dir n = Some (m O)).
    { rewrite <- (Nat.add_0_r n). apply Herr. lia. }
    change (S (S (S k)) + fuel)%nat with (S (S (S k) + fuel)).
    rewrite (fullReadDir_loop_retry _ _ _ _ _ (m O)); trivial;
      [|eapply ctxAllows_le; [|exact Hc]; lia].
    destruct (IH (S n) (allEntries ++ fst (ReadDirAt dir n))%list (m O)
                 (fun i => m (S i)) (afterRetry w (m O)))
      as (w' & Hrun & Hrc & Hrs & Hnf).
    + apply ctxAllows_afterRetry. exact Hc.
    + intros i Hi. rewrite Nat.add_succ_comm. apply Herr. lia.
    + intros Heq. apply (Hdiff O); [lia | now symmetry].
    + intros i Hi. apply Hdiff. lia.
    + exact Hrep.
    + exists w'. simpl in Hrc, Hrs, Hnf. split; [|repeat split; trivial; lia].
      rewrite Hrun, (entriesOfCalls_S dir n (S (S k))).
      now rewrite List.app_assoc.
Qed.

(** C8.  When the context is already cancelled, [fullReadDir] returns an
    empty list at once: the world is unchanged, so no [ReadDir] call has
    been made and nothing has been logged. *)
Theorem fullReadDir_cancelled_returns_empty (fuel : nat) (dir : dirFile) (w : world) :
  ctxLeft w = Some O ->
  fullReadDir (S fuel) dir w = Some ([], w).
Proof. intros Hc. now apply fullReadDir_loop_cancelled. Qed.

(** The reader on a context cancelled from the start. *)
Lemma fullReadDir_cancelled_returns_empty_witness :
  fullReadDir 1 dirOneFailure (World (Some O) 0 [] [] 0)
  = Some ([], World (Some O) 0 [] [] 0).
Proof. apply fullReadDir_cancelled_returns_empty. reflexivity. Defined.

(** The loop on a handle whose calls [n], ..., [n + k - 1] return the
    errors [m 0], ..., [m (k - 1)], none repeating the one before it,
    and whose call [n + k] returns no error. *)
Lemma fullReadDir_loop_reach (k fuel : nat) (dir : dirFile) (n : nat)
    (allEntries : list dirEntry) (prevErrStr : string) (m : nat -> error)
    (w : world) :
  ctxAllows (S k) w ->
  (forall i, (i < k)%nat -> errAt dir (n + i) = Some (m i)) ->
  errAt dir (n + k) = None ->
  ((0 < k)%nat -> prevErrStr <> m O) ->
  (forall i, (S i < k)%nat -> m (S i) <> m i) ->
  exists w',
    fullReadDir_loop (S k + fuel) dir n allEntries prevErrStr w =
      Some (sortByName (allEntries ++ entriesOfCalls dir n (S k)), w') /\
    readDirCalls w' = (readDirCalls w + S k)%nat /\
    results w' = results w /\ numFolders w' = numFolders w.
Proof.
  revert n allEntries prevErrStr m w.
  induction k as [|k IH]; intros n allEntries prevErrStr m w Hc Herr Hnil Hprev Hdiff.
  - rewrite Nat.add_0_r in Hnil. change (1 + fuel)%nat with (S fuel).
    rewrite fullReadDir_loop_done by trivial.
    replace (entriesOfCalls dir n 1) with (fst (ReadDirAt dir n))
      by (unfold entriesOfCalls; simpl; now rewrite List.app_nil_r).
    eexists. split; [reflexivity|]. simpl. repeat split; lia.
  - assert (H0 : errAt dir n = Some (m O)).
    { rewrite <- (Nat.add_0_r n). apply Herr. lia. }
    change (S (S k) + fuel)%nat with (S (S k + fuel)).
    rewrite (fullReadDir_loop_retry _ _ _ _ _ (m O)); trivial;
      [|eapply ctxAllows_le; [|exact Hc]; lia | apply Hprev; lia].
    destruct (IH (S n) (allEntries ++ fst (ReadDirAt dir n))%list (m O)
                 (fun i => m (S i)) (afterRetry w (m O)))
      as (w' & Hrun & Hrc & Hrs & Hnf).
    + apply ctxAllows_afterRetry. exact Hc.
    + intros i Hi. rewrite Nat.add_succ_comm. apply Herr. lia.
    + now rewrite Nat.add_succ_comm.
    + intros Hk Heq. apply (Hdiff O); [lia | now symmetry].
    + intros i Hi. apply Hdiff. lia.
    + exists w'. simpl in Hrc, Hrs, Hnf. split; [|repeat split; trivial; lia].
      rewrite Hrun, (entriesOfCalls_S dir n (S k)).
      now rewrite List.app_assoc.
Qed.

(** The names of a sorted list are fixed by what the list holds. *)
Lemma leb_trans (a b c : string) :
  String.leb a b = true -> String.leb b c = true -> String.leb a c = true.
Proof.
  unfold String.leb. intros Hab Hbc.
  destruct (String.compare a b) eqn:Cab; try discriminate.
  - apply OrderedTypeEx.String_as_OT.cmp_eq in Cab. now subst.
  - destruct (String.compare b c) eqn:Cbc; try discriminate.
    + apply OrderedTypeEx.String_as_OT.cmp_eq in Cbc. subst. now rewrite Cab.
    + apply OrderedTypeEx.String_as_OT.cmp_lt in Cab, Cbc.
      pose proof (OrderedTypeEx.String_as_OT.lt_trans _ _ _ Cab Cbc) as Hac.
      apply OrderedTypeEx.String_as_OT.cmp_lt in Hac.
      unfold OrderedTypeEx.String_as_OT.cmp in Hac. now rewrite Hac.
Qed.

Lemma sorted_strings_unique (l1 : list string) :
  forall l2 : list string,
    StronglySorted (fun a b => String.leb a b = true) l1 ->
    StronglySorted (fun a b => String.leb a b = true) l2 ->
    Permutation l1 l2 -> l1 = l2.
Proof.
  induction l1 as [|a l1 IH]; intros l2 H1 H2 Hp.
  - apply Permutation_nil in Hp. now subst.
  - destruct l2 as [|b l2];
      [apply Permutation_sym, Permutation_nil in Hp; discriminate|].
    inversion H1 as [|? ? Hs1 Ha]; inversion H2 as [|? ? Hs2 Hb]; subst.
    assert (Hab : a = b).
    { assert (Hin1 : In a (b :: l2))
        by (apply (Permutation_in _ Hp); now left).
      assert (Hin2 : In b (a :: l1))
        by (apply (Permutation_in _ (Permutation_sym Hp)); now left).
      destruct Hin1 as [->|Hin1]; [reflexivity|].
      destruct Hin2 as [->|Hin2]; [reflexivity|].
      rewrite List.Forall_forall in Ha, Hb.
      apply String.leb_antisym; [now apply Ha | now apply Hb]. }
    subst b. f_equal. apply IH; trivial.
    now apply Permutation_cons_inv in Hp.
Qed.

Lemma sorted_names_unique (l1 l2 : list dirEntry) :
  Sorted nameLe l1 -> Sorted nameLe l2 -> Permutation l1 l2 ->
  List.map Name l1 = List.map Name l2.
Proof.
  assert (Hmap : forall l, Sorted nameLe l ->
            StronglySorted (fun a b => String.leb a b = true) (List.map Name l)).
  { intros l Hl. apply Sorted_StronglySorted; [intros a b c; apply leb_trans|].
    induction Hl as [|x l Hs IH Hhd]; simpl; constructor; trivial.
    destruct Hhd; simpl; now constructor. }
  intros H1 H2 Hp. apply sorted_strings_unique; auto.
  now apply Permutation_map.
Qed.

(** C7, as the code has it.  On a handle whose calls 0, ..., k - 1 fail,
    the first message not being empty and no message repeating the one
    before it, and whose call k returns no error, and while the context
    stays alive, [fullReadDir] makes exactly these k + 1 calls and
    returns the entries of all of them, those of the failed calls
    included, in the byte order of the names.  The names come out in
    one order only, whatever order is left among entries of the same
    name. *)
Theorem fullReadDir_returns_all_sorted (dir : dirFile) (k fuel : nat)
    (m : nat -> error) (w : world) :
  ctxAllows (S k) w ->
  (forall i, (i < k)%nat -> errAt dir i = Some (m i)) ->
  errAt dir k = None ->
  ((0 < k)%nat -> m O <> "") ->
  (forall i, (S i < k)%nat -> m (S i) <> m i) ->
  (k < fuel)%nat ->
  exists es w',
    fullReadDir fuel dir w = Some (es, w') /\
    readDirCalls w' = (readDirCalls w + S k)%nat /\
    Sorted nameLe es /\
    Permutation (entriesOfCalls dir 0 (S k)) es /\
    forall es', Sorted nameLe es' -> Permutation (entriesOfCalls dir 0 (S k)) es' ->
                List.map Name es' = List.map Name es.
Proof.
  intros Hc Herr Hnil Hm0 Hdiff Hfuel.
  destruct (fullReadDir_loop_reach k (fuel - S k) dir 0 [] "" m w)
    as (w' & Hrun & Hrc & _); trivial.
  { intros Hk Heq. now apply (Hm0 Hk). }
  replace (S k + (fuel - S k))%nat with fuel in Hrun by lia.
  exists (sortByName (entriesOfCalls dir 0 (S k))), w'.
  split; [exact Hrun|]. split; [exact Hrc|].
  split; [apply sortByName_sorted|]. split; [apply sortByName_perm|].
  intros es' Hs Hp. apply sorted_names_unique; trivial.
  - apply sortByName_sorted.
  - eapply perm_trans; [apply Permutation_sym, Hp | apply sortByName_perm].
Qed.

(** The reader on a handle that fails once and then reads to the end. *)
Lemma fullReadDir_returns_all_sorted_witness :
  exists es w',
    fullReadDir 2 dirOneFailure world0 = Some (es, w') /\
    readDirCalls w' = (readDirCalls world0 + 2)%nat /\
    Sorted nameLe es /\
    Permutation (entriesOfCalls dirOneFailure 0 2) es /\
    forall es', Sorted nameLe es' ->
                Permutation (entriesOfCalls dirOneFailure 0 2) es' ->
                List.map Name es' = List.map Name es.
Proof.
  apply (fullReadDir_returns_all_sorted dirOneFailure 1 2
           (fun _ => "input/output error") world0).
  - exact I.
  - intros [|i] Hi; [reflexivity | lia].
  - reflexivity.
  - discriminate.
  - intros i Hi. lia.
  - lia.
Defined.

(** C7, as stated, fails.  (1) The results of [dirStuckThenDone] end in
    a call that returns no error, but the two failures before it carry
    the same message: the reader stops after two calls, and c.mp3, which
    the third call returns, is not in the result.  (2) When the context
    is cancelled after the failed call of [dirOneFailure], nothing is
    returned, the entry of the failed call included. *)
Lemma fullReadDir_all_counterexample :
  (errAt dirStuckThenDone 2 = None /\
   In (regularFile "c.mp3" 9) (entriesOfCalls dirStuckThenDone 0 3) /\
   exists w', fullReadDir 5 dirStuckThenDone world0
              = Some ([regularFile "a.mp3" 7; regularFile "b.mp3" 5], w') /\
              readDirCalls w' = 2%nat) /\
  (errAt dirOneFailure 1 = None /\
   In (regularFile "b.mp3" 5) (entriesOfCalls dirOneFailure 0 2) /\
   exists w', fullReadDir 5 dirOneFailure (World (Some 1%nat) 0 [] [] 0)
              = Some ([], w') /\
              readDirCalls w' = 1%nat).
Proof.
  split; (split; [reflexivity|]; split; [simpl; auto|]);
    eexists; (split; [cbv; reflexivity | reflexivity]).
Qed.

(** Entries of the same name stay in the order they were read in. *)
Example fullReadDir_same_name :
  exists w', fullReadDir 2 dirSameName world0
             = Some ([regularFile "x.mp3" 1; regularFile "x.mp3" 2], w').
Proof. eexists. cbv. reflexivity. Qed.

(** The entries of a failed call are kept and the names come out in
    byte order. *)
Example fullReadDir_one_failure :
  exists w', fullReadDir 2 dirOneFailure world0
             = Some ([regularFile "a.mp3" 7; regularFile "b.mp3" 5], w')
             /\ readDirCalls w' = 2%nat.
Proof. eexists. split; [cbv; reflexivity | reflexivity]. Qed.

(** C3, as the code has it.  When the context stays alive, the first
    message is not empty, and the calls 0, ..., k + 1 all fail, call
    k + 1 being the first to repeat the message of the call before it,
    [fullReadDir] makes exactly these k + 2 calls and returns the
    entries of all of them, those read by the repeating call included,
    in the order of the names. *)
Theorem fullReadDir_stops_on_repeated_error (dir : dirFile) (k fuel : nat)
    (m : nat -> error) (w : world) :
  ctxAllows (S (S k)) w ->
  (forall i, (i <= S k)%nat -> errAt dir i = Some (m i)) ->
  m O <> "" ->
  (forall i, (i < k)%nat -> m (S i) <> m i) ->
  m (S k) = m k ->
  (k + 2 <= fuel)%nat ->
  exists es w',
    fullReadDir fuel dir w = Some (es, w') /\
    readDirCalls w' = (readDirCalls w + (k + 2))%nat /\
    Sorted nameLe es /\
    Permutation (entriesOfCalls dir 0 (k + 2)) es.
Proof.
  intros Hc Herr Hm0 Hdiff Hrep Hfuel.
  destruct (fullReadDir_loop_repeat k (fuel - S (S k)) dir 0 [] "" m w)
    as (w' & Hrun & Hrc & _); trivial.
  - congruence.
  - exists (sortByName (entriesOfCalls dir 0 (k + 2))), w'. unfold fullReadDir.
    replace fuel with (S (S k) + (fuel - S (S k)))%nat at 1 by lia.
    replace (k + 2)%nat with (S (S k)) by lia.
    split; [exact Hrun|]. split; [exact Hrc|].
    split; [apply sortByName_sorted | apply sortByName_perm].
Qed.

(** The reader on a handle that fails with one message for ever. *)
Lemma fullReadDir_stops_on_repeated_error_witness :
  exists es w',
    fullReadDir 5 dirStuck world0 = Some (es, w') /\
    readDirCalls w' = (readDirCalls world0 + (0 + 2))%nat /\
    Sorted nameLe es /\
    Permutation (entriesOfCalls dirStuck 0 (0 + 2)) es.
Proof.
  apply (fullReadDir_stops_on_repeated_error dirStuck 0 5
           (fun _ => "input/output error") world0).
  - exact I.
  - intros [|[|i]] Hi; [reflexivity | reflexivity | lia].
  - discriminate.
  - intros i Hi. lia.
  - reflexivity.
  - lia.
Defined.

(** On errors that never change, the reader stops within two calls,
    whatever the message and the state of the context. *)
Lemma fullReadDir_identical_errors_terminate (dir : dirFile) (e : error)
    (fuel : nat) (w : world) :
  (forall i, errAt dir i = Some e) ->
  exists es w', fullReadDir (S (S fuel)) dir w = Some (es, w') /\
                (readDirCalls w' <= readDirCalls w + 2)%nat.
Proof.
  intros Herr. unfold fullReadDir.
  assert (Hdec : ctxLeft w = Some O \/ ctxAllows 1 w).
  { unfold ctxAllows. destruct (ctxLeft w) as [[|c]|]; auto. right. lia. }
  destruct Hdec as [Hc|Hc].
  { rewrite fullReadDir_loop_cancelled by exact Hc.
    do 2 eexists. split; [reflexivity | lia]. }
  destruct (String.eqb_spec "" e) as [<-|Hne].
  { rewrite fullReadDir_loop_stuck by (trivial; apply Herr).
    do 2 eexists. split; [reflexivity | simpl; lia]. }
  rewrite (fullReadDir_loop_retry _ _ _ _ _ e) by (trivial; apply Herr).
  assert (Hdec : ctxLeft (afterRetry w e) = Some O \/ ctxAllows 1 (afterRetry w e)).
  { unfold ctxAllows. destruct (ctxLeft (afterRetry w e)) as [[|c]|]; auto.
    right. lia. }
  destruct Hdec as [Hc'|Hc'].
  - rewrite fullReadDir_loop_cancelled by exact Hc'.
    do 2 eexists. split; [reflexivity | simpl; lia].
  - rewrite fullReadDir_loop_stuck by (trivial; apply Herr).
    do 2 eexists. split; [reflexivity | simpl; lia].
Qed.

(** C3, as stated, fails.  (1) With an empty error message the first
    failure already counts as a repetition: one call is made, not two,
    and the second call's entry is never read.  (2) The entries that the
    repeating call returns are part of the result.  (3) When the context
    is cancelled between the two failures, nothing is returned. *)
Lemma fullReadDir_repeat_counterexample :
  (errAt dirStuckEmptyMessage 0 = errAt dirStuckEmptyMessage 1 /\
   exists w', fullReadDir 5 dirStuckEmptyMessage world0
              = Some ([regularFile "b.mp3" 5], w') /\
              readDirCalls w' = 1%nat) /\
  (errAt dirStuck 0 = errAt dirStuck 1 /\
   exists w', fullReadDir 5 dirStuck world0
              = Some ([regularFile "a.mp3" 7; regularFile "b.mp3" 5], w') /\
              entriesOfCalls dirStuck 0 1 = [regularFile "b.mp3" 5]) /\
  (exists w', fullReadDir 5 dirStuck (World (Some 1%nat) 0 [] [] 0)
              = Some ([], w') /\
              readDirCalls w' = 1%nat).
Proof.
  repeat split; try reflexivity; eexists; (split; [cbv; reflexivity | reflexivity]).
Qed.

(** ** The path classifier *)

Lemma HasPrefix_startsWith (s pre : string) :
  HasPrefix s pre = true <-> startsWith s pre.
Proof.
  unfold HasPrefix, startsWith. revert s.
  induction pre as [|a pre IH]; intros s.
  - destruct s; simpl; split; trivial; intros _; eexists; reflexivity.
  - destruct s as [|b s]; simpl.
    + split; [discriminate | intros [rest H]; discriminate].
    + destruct (Ascii.ascii_dec a b) as [->|Hne].
      * rewrite IH. split; intros [rest H]; exists rest;
          rewrite append_String in *; congruence.
      * split; [discriminate|]. intros [rest H]. rewrite append_String in H.
        congruence.
Qed.

Lemma EqualFold_lowerCase (s t : string) :
  EqualFold s t = true <-> lowerCase s = lowerCase t.
Proof.
  revert t. induction s as [|a s IH]; intros [|b t]; simpl;
    try (split; [discriminate | discriminate]); [tauto|].
  rewrite andb_true_iff, Ascii.eqb_eq, IH.
  split; [intros [-> ->]; reflexivity | intros [= -> ->]; auto].
Qed.

(** C6.  [isDirIgnored] answers true exactly when the name starts with
    one dot and not with two, or the platform is Windows and the name is
    $RECYCLE.BIN up to the case of its letters, or the skip-scan marker
    file is found inside the directory.  So .hidden is always ignored,
    and ...Deluxe Edition only when it holds the marker file. *)
Theorem isDirIgnored_exactly (E : env) (baseDir : string) (dirEnt : dirEntry) :
  (isDirIgnored E baseDir dirEnt = true <->
     (startsWith (Name dirEnt) "." /\ ~ startsWith (Name dirEnt) "..") \/
     (GOOS E = "windows" /\ lowerCase (Name dirEnt) = "$recycle.bin") \/
     hasSkipScanFile E baseDir (Name dirEnt)) /\
  (forall d t i, isDirIgnored E baseDir (DirEntry ".hidden" d t i) = true) /\
  (forall d t i,
     isDirIgnored E baseDir (DirEntry "...Deluxe Edition" d t i) = true <->
     hasSkipScanFile E baseDir "...Deluxe Edition").
Proof.
  assert (Hiff : forall e : dirEntry,
    isDirIgnored E baseDir e = true <->
     (startsWith (Name e) "." /\ ~ startsWith (Name e) "..") \/
     (GOOS E = "windows" /\ lowerCase (Name e) = "$recycle.bin") \/
     hasSkipScanFile E baseDir (Name e)).
  { intros e. unfold isDirIgnored, hasSkipScanFile.
    rewrite <- !HasPrefix_startsWith.
    change "$recycle.bin" with (lowerCase "$RECYCLE.BIN").
    rewrite <- EqualFold_lowerCase, <- String.eqb_eq.
    destruct (HasPrefix (Name e) "."), (HasPrefix (Name e) "..");
      destruct (String.eqb (GOOS E) "windows"),
               (EqualFold (Name e) "$RECYCLE.BIN");
      destruct (os_Stat E (filepath_Join E [baseDir; Name e; SkipScanFile E]))
        as [fi|err]; simpl; split; intros H; trivial;
      try discriminate;
      try (left; split; [reflexivity | discriminate]);
      try (right; left; split; reflexivity);
      try (right; right; eexists; reflexivity);
      destruct H as [[H1 H2]|[[H1 H2]|[fi' H1]]];
      try discriminate; try (exfalso; apply H2; reflexivity). }
  split; [apply Hiff|]. split.
  - intros d t i. reflexivity.
  - intros d t i. unfold isDirIgnored, hasSkipScanFile. simpl.
    rewrite andb_false_r.
    destruct (os_Stat E (filepath_Join E [baseDir; "...Deluxe Edition";
                                         SkipScanFile E])) as [fi|err].
    + split; [intros _; now exists fi | reflexivity].
    + split; [discriminate | intros [fi H]; discriminate].
Qed.

(** ** The directory loader *)

Lemma bind_Some {A B : Type} (c : M A) (k : A -> M B) (w : world) r :
  bind c k w = Some r ->
  exists a w1, c w = Some (a, w1) /\ k a w1 = Some r.
Proof.
  unfold bind. destruct (c w) as [[a w1]|]; [|discriminate].
  intros H. now exists a, w1.
Qed.

Lemma quiet_refl (w : world) : quiet w w.
Proof. now split. Qed.

Lemma quiet_trans (w1 w2 w3 : world) : quiet w1 w2 -> quiet w2 w3 -> quiet w1 w3.
Proof. unfold quiet. intros [? ?] [? ?]. split; congruence. Qed.

Lemma stepped_quiet (w w' : world) : stepped w w' -> quiet w w'.
Proof. now intros (_ & _ & H & _). Qed.

Section Loader.

Variable E : env.
Variable scanCtx : scanContext.

(** The test [isDir && !isDirIgnored(...) && isDirReadable(...)]. *)
Lemma walkable_test (dirPath : string) (entry : dirEntry) (isDir : bool) (w : world) :
  isDirOrSymlinkToDir E dirPath entry = Ok isDir ->
  exists lines,
    (if isDir && negb (isDirIgnored E dirPath entry)
     then isDirReadable E dirPath entry else ret false) w
    = Some (walkable E dirPath entry,
            World (ctxLeft w) (numFolders w) (logs w ++ lines) (results w)
                  (readDirCalls w)).
Proof.
  intros Hd. unfold walkable. rewrite Hd. destruct w as [cl nf lg rs rc].
  destruct (isDir && negb (isDirIgnored E dirPath entry)); simpl.
  - unfold isDirReadable, dirReadable, childPath.
    destruct (os_Open E (filepath_Join E [dirPath; Name entry])) as [d|e].
    + destruct (CloseErr d); munfold.
      * eexists; reflexivity.
      * exists []. now rewrite List.app_nil_r.
    + munfold. eexists; reflexivity.
  - exists []. unfold ret. now rewrite List.app_nil_r.
Qed.

Lemma loadDir_range_cancelled (dirPath : string) (entry : dirEntry)
    (rest : list dirEntry) (folder : folderEntry) (children : list string)
    (w : world) :
  ctxLeft w = Some O ->
  loadDir_range E dirPath (entry :: rest) folder children w
  = Some ((Some folder, children, Some Canceled), w).
Proof.
  intros Hc. simpl. unfold bind at 1. now rewrite (ctx_Err_cancelled w Hc).
Qed.

(** An entry whose link does not resolve is skipped. *)
Lemma loadDir_range_invalid_symlink (dirPath : string) (entry : dirEntry)
    (w : world) (e : error) :
  ctxAllows 1 w ->
  isDirOrSymlinkToDir E dirPath entry = Err e ->
  exists w1, stepped w w1 /\
    forall (rest : list dirEntry) (folder : folderEntry) (children : list string),
    loadDir_range E dirPath (entry :: rest) folder children w
    = loadDir_range E dirPath rest folder children w1.
Proof.
  intros Hc Hd. eexists. split; [|intros rest folder children].
  2: { simpl. unfold bind at 1. rewrite (ctx_Err_alive w Hc).
       rewrite Hd. unfold bind at 1, log. simpl. reflexivity. }
  repeat split; simpl; trivial. eexists; reflexivity.
Qed.

(** A readable directory that is not ignored is collected. *)
Lemma loadDir_range_child (dirPath : string) (entry : dirEntry) (w : world) :
  ctxAllows 1 w ->
  walkable E dirPath entry = true ->
  exists w1, stepped w w1 /\
    forall (rest : list dirEntry) (folder : folderEntry) (children : list string),
    loadDir_range E dirPath (entry :: rest) folder children w
    = loadDir_range E dirPath rest folder
        (children ++ [childPath E dirPath entry]) w1.
Proof.
  intros Hc Hw.
  destruct (isDirOrSymlinkToDir E dirPath entry) as [isDir|e] eqn:Hd;
    [|unfold walkable in Hw; rewrite Hd in Hw; discriminate].
  destruct (walkable_test dirPath entry isDir
              (World (ctxTick (ctxLeft w)) (numFolders w) (logs w) (results w)
                     (readDirCalls w)) Hd) as [lines Ht].
  eexists. split; [|intros rest folder children].
  2: { simpl. unfold bind at 1. rewrite (ctx_Err_alive w Hc), Hd.
       unfold bind at 1. rewrite Ht, Hw. reflexivity. }
  repeat split; simpl; trivial. eexists; reflexivity.
Qed.

(** Any other entry is a file of the folder. *)
Lemma loadDir_range_file (dirPath : string) (entry : dirEntry)
    (w : world) (fileInfo : fileInfo) :
  ctxAllows 1 w ->
  countedAsFile E dirPath entry = true ->
  Info entry = Ok fileInfo ->
  exists w1, stepped w w1 /\
    forall (rest : list dirEntry) (folder : folderEntry) (children : list string),
    loadDir_range E dirPath (entry :: rest) folder children w
    = loadDir_range E dirPath rest
        (classify E entry fileInfo (bumpModTime folder fileInfo)) children w1.
Proof.
  intros Hc Hf Hi. unfold countedAsFile in Hf.
  destruct (isDirOrSymlinkToDir E dirPath entry) as [isDir|e] eqn:Hd;
    [|discriminate].
  destruct (walkable_test dirPath entry isDir
              (World (ctxTick (ctxLeft w)) (numFolders w) (logs w) (results w)
                     (readDirCalls w)) Hd) as [lines Ht].
  apply negb_true_iff in Hf.
  eexists. split; [|intros rest folder children].
  2: { simpl. unfold bind at 1. rewrite (ctx_Err_alive w Hc), Hd.
       unfold bind at 1. rewrite Ht, Hf, Hi. reflexivity. }
  repeat split; simpl; trivial. eexists; reflexivity.
Qed.

(** When [Info] fails on such an entry the loop ends with that error
    and the rest of the entries is not looked at. *)
Lemma loadDir_range_info_error (dirPath : string) (entry : dirEntry)
    (rest : list dirEntry) (folder : folderEntry) (children : list string)
    (w : world) (e : error) :
  ctxAllows 1 w ->
  countedAsFile E dirPath entry = true ->
  Info entry = Err e ->
  exists lines,
    loadDir_range E dirPath (entry :: rest) folder children w
    = Some ((Some folder, children, Some e),
            World (ctxTick (ctxLeft w)) (numFolders w)
                  (logs w ++ lines ++
                   [LogLine LWarn "Scanner: Error getting fileInfo" (Name entry)])
                  (results w) (readDirCalls w)).
Proof.
  intros Hc Hf Hi. simpl. unfold bind at 1. rewrite (ctx_Err_alive w Hc).
  unfold countedAsFile in Hf.
  destruct (isDirOrSymlinkToDir E dirPath entry) as [isDir|e'] eqn:Hd;
    [|discriminate].
  unfold bind at 1.
  destruct (walkable_test dirPath entry isDir
              (World (ctxTick (ctxLeft w)) (numFolders w) (logs w) (results w)
                     (readDirCalls w)) Hd) as [lines ->].
  apply negb_true_iff in Hf. rewrite Hf, Hi.
  exists lines. munfold. now rewrite <- List.app_assoc.
Qed.

Lemma After_max (t u : Time) : (if After t u then t else u) = Z.max u t.
Proof. unfold After. destruct (Z.ltb_spec u t); lia. Qed.

Lemma bumpModTime_fields (f : folderEntry) (fileInfo : fileInfo) :
  modTime (bumpModTime f fileInfo) = Z.max (modTime f) (ModTime fileInfo) /\
  imagesUpdatedAt (bumpModTime f fileInfo) = imagesUpdatedAt f /\
  id (bumpModTime f fileInfo) = id f /\
  updTime (bumpModTime f fileInfo) = updTime f /\
  path (bumpModTime f fileInfo) = path f.
Proof.
  unfold bumpModTime. rewrite <- After_max.
  destruct (After (ModTime fileInfo) (modTime f)); simpl; auto.
Qed.

Lemma classify_fields (entry : dirEntry) (fileInfo : fileInfo) (f : folderEntry) :
  modTime (classify E entry fileInfo f) = modTime f /\
  imagesUpdatedAt (classify E entry fileInfo f)
    = (if storedAsImage E entry
       then Z.max (imagesUpdatedAt f) (ModTime fileInfo)
       else imagesUpdatedAt f) /\
  id (classify E entry fileInfo f) = id f /\
  updTime (classify E entry fileInfo f) = updTime f /\
  path (classify E entry fileInfo f) = path f.
Proof.
  unfold classify, storedAsImage. rewrite <- After_max.
  destruct (IsAudioFile E (Name entry)); simpl; auto.
  destruct (IsValidPlaylist E (Name entry)); simpl; auto.
  destruct (IsImageFile E (Name entry)); simpl; auto.
Qed.

Lemma ctx_alive_or_cancelled (w : world) : ctxLeft w = Some O \/ ctxAllows 1 w.
Proof.
  unfold ctxAllows. destruct (ctxLeft w) as [[|c]|]; auto. right. lia.
Qed.

Lemma walkable_not_counted (dirPath : string) (entry : dirEntry) :
  walkable E dirPath entry = true -> countedAsFile E dirPath entry = false.
Proof.
  unfold countedAsFile. intros Hw.
  destruct (isDirOrSymlinkToDir E dirPath entry); [now rewrite Hw | trivial].
Qed.

(** The whole loop: it always ends, with a folder; and when it ends
    without error it has collected exactly the walkable entries, and
    taken the times of exactly the other entries whose link resolves. *)
Lemma loadDir_range_run (dirPath : string) (entries : list dirEntry) :
  forall (folder : folderEntry) (children : list string) (w : world),
  exists f' ch' err w',
    loadDir_range E dirPath entries folder children w
      = Some ((Some f', ch', err), w') /\
    quiet w w' /\ readDirCalls w' = readDirCalls w /\
    id f' = id folder /\ updTime f' = updTime folder /\ path f' = path folder /\
    (forall c, In c ch' ->
       In c children \/ exists e, In e entries /\ c = childPath E dirPath e) /\
    (err = None ->
       ch' = (children ++ List.map (childPath E dirPath)
                            (List.filter (walkable E dirPath) entries))%list /\
       modTime f' = latest (modTime folder)
                      (List.map entryModTime
                         (List.filter (countedAsFile E dirPath) entries)) /\
       imagesUpdatedAt f' = latest (imagesUpdatedAt folder)
                      (List.map entryModTime
                         (List.filter (fun e => countedAsFile E dirPath e
                                                && storedAsImage E e) entries)) /\
       forall e, In e entries -> countedAsFile E dirPath e = true ->
                 exists fileInfo, Info e = Ok fileInfo).
Proof.
  induction entries as [|entry rest IH]; intros folder children w.
  - exists folder, children, None, w. simpl. repeat split; auto.
    + now rewrite List.app_nil_r.
    + intros e [].
  - destruct (ctx_alive_or_cancelled w) as [Hc|Hc].
    { rewrite loadDir_range_cancelled by exact Hc.
      exists folder, children, (Some Canceled), w.
      repeat split; auto; discriminate. }
    destruct (isDirOrSymlinkToDir E dirPath entry) as [isDir|e] eqn:Hd.
    + destruct (walkable E dirPath entry) eqn:Hw.
      * destruct (loadDir_range_child dirPath entry w Hc Hw)
          as (w1 & Hstep & Heq). rewrite Heq.
        destruct (IH folder (children ++ [childPath E dirPath entry])%list w1)
          as (f' & ch' & err & w' & Hrun & Hq & Hrc & Hid & Hupd & Hpath & Hin & Hok).
        exists f', ch', err, w'. split; [exact Hrun|].
        split; [eapply quiet_trans; [apply stepped_quiet|]; eassumption|].
        split; [destruct Hstep as (_ & ? & _); congruence|].
        repeat split; trivial.
        -- intros c Hc'. destruct (Hin c Hc') as [Hold|(e & He & ->)].
           ++ apply List.in_app_or in Hold. destruct Hold as [?|[<-|[]]]; auto.
              right. exists entry. split; [now left | reflexivity].
           ++ right. exists e. split; [now right | reflexivity].
        -- destruct (Hok H) as (-> & _ & _). simpl. rewrite Hw. simpl.
           now rewrite <- List.app_assoc.
        -- destruct (Hok H) as (_ & -> & _). simpl.
           now rewrite (walkable_not_counted _ _ Hw).
        -- destruct (Hok H) as (_ & _ & -> & _). simpl.
           now rewrite (walkable_not_counted _ _ Hw).
        -- destruct (Hok H) as (_ & _ & _ & Hinfo). intros e [<-|He] Hce.
           ++ rewrite (walkable_not_counted _ _ Hw) in Hce. discriminate.
           ++ now apply Hinfo.
      * assert (Hf : countedAsFile E dirPath entry = true).
        { unfold countedAsFile. now rewrite Hd, Hw. }
        destruct (Info entry) as [fileInfo|e] eqn:Hi.
        -- destruct (loadDir_range_file dirPath entry w fileInfo Hc Hf Hi)
             as (w1 & Hstep & Heq). rewrite Heq.
           destruct (IH (classify E entry fileInfo (bumpModTime folder fileInfo))
                        children w1)
             as (f' & ch' & err & w' & Hrun & Hq & Hrc & Hid & Hupd & Hpath & Hin & Hok).
           destruct (classify_fields entry fileInfo (bumpModTime folder fileInfo))
             as (Cm & Ci & Cid & Cupd & Cpath).
           destruct (bumpModTime_fields folder fileInfo)
             as (Bm & Bi & Bid & Bupd & Bpath).
           exists f', ch', err, w'. split; [exact Hrun|].
           split; [eapply quiet_trans; [apply stepped_quiet|]; eassumption|].
           split; [destruct Hstep as (_ & ? & _); congruence|].
           repeat split; try congruence.
           ++ intros c Hc'. destruct (Hin c Hc') as [Hold|(e & He & ->)]; auto.
              right. exists e. split; [now right | reflexivity].
           ++ destruct (Hok H) as (-> & _ & _). simpl. now rewrite Hw.
           ++ destruct (Hok H) as (_ & -> & _). simpl. rewrite Hf. simpl.
              unfold entryModTime at 2. rewrite Hi. congruence.
           ++ destruct (Hok H) as (_ & _ & -> & _). simpl. rewrite Hf. simpl.
              rewrite Ci, Bi.
              destruct (storedAsImage E entry); simpl; trivial.
              unfold entryModTime at 2. now rewrite Hi.
           ++ destruct (Hok H) as (_ & _ & _ & Hinfo). intros e [<-|He] Hce.
              ** now exists fileInfo.
              ** now apply Hinfo.
        -- destruct (loadDir_range_info_error dirPath entry rest folder children w
                       e Hc Hf Hi) as (lines & ->).
           do 4 eexists. split; [reflexivity|].
           repeat split; simpl; auto; discriminate.
    + destruct (loadDir_range_invalid_symlink dirPath entry w e Hc Hd)
        as (w1 & Hstep & Heq). rewrite Heq.
      destruct (IH folder children w1)
        as (f' & ch' & err & w' & Hrun & Hq & Hrc & Hid & Hupd & Hpath & Hin & Hok).
      assert (Hw : walkable E dirPath entry = false)
        by (unfold walkable; now rewrite Hd).
      assert (Hf : countedAsFile E dirPath entry = false)
        by (unfold countedAsFile; now rewrite Hd).
      exists f', ch', err, w'. split; [exact Hrun|].
      split; [eapply quiet_trans; [apply stepped_quiet|]; eassumption|].
      split; [destruct Hstep as (_ & ? & _); congruence|].
      repeat split; trivial.
      * intros c Hc'. destruct (Hin c Hc') as [Hold|(e' & He & ->)]; auto.
        right. exists e'. split; [now right | reflexivity].
      * destruct (Hok H) as (-> & _ & _). simpl. now rewrite Hw.
      * destruct (Hok H) as (_ & -> & _). simpl. now rewrite Hf.
      * destruct (Hok H) as (_ & _ & -> & _). simpl. now rewrite Hf.
      * destruct (Hok H) as (_ & _ & _ & Hinfo). intros e' [<-|He] Hce.
        -- rewrite Hf in Hce. discriminate.
        -- now apply Hinfo.
Qed.

(** [latest] is the greatest of the times it is given. *)
Lemma latest_ge (ts : list Time) : forall base : Time,
  base <= latest base ts /\ Forall (fun t => t <= latest base ts) ts.
Proof.
  unfold latest. induction ts as [|t ts IH]; intros base; simpl.
  - split; [lia | constructor].
  - destruct (IH (Z.max base t)) as [Hb Hall]. split; [lia|].
    constructor; [lia | exact Hall].
Qed.

Lemma latest_in (ts : list Time) : forall base : Time,
  latest base ts = base \/ In (latest base ts) ts.
Proof.
  unfold latest. induction ts as [|t ts IH]; intros base; simpl; auto.
  destruct (IH (Z.max base t)) as [->|Hin]; [|now auto].
  destruct (Z.max_spec base t) as [[_ ->]|[_ ->]]; auto.
Qed.

(** What [loadDir] has done when it returns. *)
Lemma loadDir_cases (fuel : nat) (dirPath : string) (w : world) (r : loaded)
    (w' : world) :
  loadDir E scanCtx fuel dirPath w = Some (r, w') ->
  (exists e, os_Stat E dirPath = Err e /\ r = (None, [], Some e) /\ quiet w w') \/
  (exists dirInfo e f, os_Stat E dirPath = Ok dirInfo /\
     os_Open E dirPath = Err e /\ r = (Some f, [], Some e) /\ quiet w w') \/
  (exists dirInfo dir entries w1,
     os_Stat E dirPath = Ok dirInfo /\ os_Open E dirPath = Ok dir /\
     fullReadDir fuel dir w = Some (entries, w1) /\ quiet w w1 /\
     loadDir_range E dirPath entries
       (set_modTime (newFolderEntry E scanCtx dirPath) (ModTime dirInfo)) [] w1
     = Some (r, w')).
Proof.
  unfold loadDir.
  destruct (os_Stat E dirPath) as [dirInfo|e].
  - destruct (os_Open E dirPath) as [dir|e].
    + intros H. apply bind_Some in H. destruct H as (entries & w1 & Hread & Hrange).
      right. right. exists dirInfo, dir, entries, w1. repeat split; trivial;
        destruct (fullReadDir_loop_inv _ _ _ _ _ _ _ _ Hread)
          as (c & _ & Hrs & Hnf & _); trivial.
    + munfold. intros [= <- <-]. right. left. do 3 eexists.
      repeat split; reflexivity.
    - munfold. intros [= <- <-]. left. eexists. repeat split; reflexivity.
Qed.

Lemma loadDir_quiet (fuel : nat) (dirPath : string) (w : world) (r : loaded)
    (w' : world) :
  loadDir E scanCtx fuel dirPath w = Some (r, w') -> quiet w w'.
Proof.
  intros H. apply loadDir_cases in H.
  destruct H as [(e & _ & _ & Hq)|[(di & e & f & _ & _ & _ & Hq)|
                 (di & dir & entries & w1 & _ & _ & _ & Hq & Hrange)]]; trivial.
  destruct (loadDir_range_run dirPath entries
              (set_modTime (newFolderEntry E scanCtx dirPath) (ModTime di)) [] w1)
    as (f' & ch' & err & w2 & Hrun & Hq2 & _).
  rewrite Hrun in Hrange. injection Hrange as _ <-.
  eapply quiet_trans; eassumption.
Qed.

(** C4, as the code has it.  When [loadDir] succeeds, [modTime] is the
    most recent time among the directory's own and every entry read that
    is not collected as a child and whose link, if it is one, resolves:
    files of any kind, and directories that are ignored or unreadable;
    [imagesUpdatedAt] is the most recent time, from the zero time up,
    among those of these entries that are stored as images.  [Info]
    has succeeded on each of these entries. *)
Theorem loadDir_modTime_imagesUpdatedAt (fuel : nat) (dirPath : string)
    (w : world) (f : folderEntry) (children : list string) (w' : world) :
  loadDir E scanCtx fuel dirPath w = Some ((Some f, children, None), w') ->
  exists dirInfo dir entries w1,
    os_Stat E dirPath = Ok dirInfo /\ os_Open E dirPath = Ok dir /\
    fullReadDir fuel dir w = Some (entries, w1) /\
    modTime f = latest (ModTime dirInfo)
                  (List.map entryModTime
                     (List.filter (countedAsFile E dirPath) entries)) /\
    imagesUpdatedAt f = latest zeroTime
                  (List.map entryModTime
                     (List.filter (fun e => countedAsFile E dirPath e
                                            && storedAsImage E e) entries)) /\
    forall e, In e entries -> countedAsFile E dirPath e = true ->
              exists fileInfo, Info e = Ok fileInfo.
Proof.
  intros H. apply loadDir_cases in H.
  destruct H as [(e & _ & [=] & _)|[(di & e & f0 & _ & _ & [=] & _)|
                 (di & dir & entries & w1 & Hs & Ho & Hread & _ & Hrange)]].
  exists di, dir, entries, w1. repeat split; trivial;
    destruct (loadDir_range_run dirPath entries
                (set_modTime (newFolderEntry E scanCtx dirPath) (ModTime di)) [] w1)
      as (f' & ch' & err & w2 & Hrun & _ & _ & _ & _ & _ & _ & Hok);
    rewrite Hrun in Hrange; injection Hrange as Hf Hch Herr Hw; subst;
    destruct (Hok eq_refl) as (_ & Hm & Hi & Hinfo); trivial.
Qed.

End Loader.

(** ** The tree walker *)

Section Walker.

Variable E : env.
Variable scanCtx : scanContext.

Lemma forChildren_cons (walk : string -> M (option error)) (c : string)
    (rest : list string) (w : world) :
  forChildren walk (c :: rest) w
  = bind (walk c) (fun err => match err with
                              | Some e => ret (Some e)
                              | None => forChildren walk rest
                              end) w.
Proof. reflexivity. Qed.

Lemma forChildren_no_error (walk : string -> M (option error)) :
  (forall c w err w', walk c w = Some (err, w') -> err = None) ->
  forall children w err w',
    forChildren walk children w = Some (err, w') -> err = None.
Proof.
  intros Hwalk. induction children as [|c rest IH]; intros w err w'; simpl.
  - now intros [= <- _].
  - intros H. apply bind_Some in H. destruct H as ([e|] & w1 & Hc & Hk).
    + apply Hwalk in Hc. discriminate.
    + now apply IH in Hk.
Qed.

Lemma walkFolder_S (fuel : nat) (currentFolder : string) (w : world) :
  walkFolder E scanCtx (S fuel) currentFolder w
  = (l <- loadDir E scanCtx fuel currentFolder ;;
     let '(folder, children, err) := l in
     match err with
     | Some e =>
         log LWarn "Scanner: Error loading dir. Skipping" currentFolder ;;;
         ret None
     | None =>
         numFolders_Add1 ;;;
         err <- forChildren (walkFolder E scanCtx fuel) children ;;
         match err with
         | Some e => ret (Some e)
         | None =>
             match folder with
             | None => panic
             | Some folder =>
                 if negb (isOutdated folder) && negb (fullRescan scanCtx)
                 then ret None
                 else
                   let dir := filepath_Clean E currentFolder in
                   log LTrace "Scanner: Found directory" dir ;;;
                   send (set_path folder dir) ;;;
                   ret None
             end
         end
     end) w.
Proof. reflexivity. Qed.

(** [walkFolder] never returns an error. *)
Lemma walkFolder_no_error (fuel : nat) :
  forall currentFolder w err w',
    walkFolder E scanCtx fuel currentFolder w = Some (err, w') -> err = None.
Proof.
  induction fuel as [|fuel IH]; intros currentFolder w err w'; [discriminate|].
  simpl. intros H. apply bind_Some in H.
  destruct H as ([[folder children] [e|]] & w1 & Hload & Hk).
  - munfold. now injection Hk as <- _.
  - apply bind_Some in Hk. destruct Hk as ([] & w2 & _ & Hk).
    apply bind_Some in Hk. destruct Hk as (err' & w3 & Hch & Hk).
    apply (forChildren_no_error _ IH) in Hch. subst err'.
    destruct folder as [folder|]; [|discriminate].
    destruct (negb (isOutdated folder) && negb (fullRescan scanCtx)).
    + now injection Hk as <- _.
    + munfold. now injection Hk as <- _.
Qed.

(** The step of [walkFolder] on a folder that loads: count it, walk the
    children, then send the folder or not. *)
Lemma walkFolder_loaded (fuel : nat) (currentFolder : string) (w : world)
    (folder : folderEntry) (children : list string) (w1 : world)
    (err : option error) (w2 : world) :
  loadDir E scanCtx fuel currentFolder w
    = Some ((Some folder, children, None), w1) ->
  forChildren (walkFolder E scanCtx fuel) children (afterCount w1)
    = Some (err, w2) ->
  exists w3,
    walkFolder E scanCtx (S fuel) currentFolder w = Some (None, w3) /\
    results w3 = (results w2 ++ ownEmission E scanCtx currentFolder folder)%list /\
    numFolders w3 = numFolders w2 /\ ctxLeft w3 = ctxLeft w2.
Proof.
  intros Hload Hch.
  assert (err = None) as ->
    by (eapply forChildren_no_error; [apply walkFolder_no_error | exact Hch]).
  simpl. unfold bind at 1. rewrite Hload. unfold bind at 1. simpl.
  unfold bind at 1. fold (afterCount w1). rewrite Hch.
  unfold ownEmission.
  destruct (isOutdated folder || fullRescan scanCtx) eqn:Hcond.
  - apply orb_true_iff in Hcond.
    assert (negb (isOutdated folder) && negb (fullRescan scanCtx) = false) as ->
      by (destruct Hcond as [-> | ->]; [reflexivity | apply andb_false_r]).
    munfold. eexists. repeat split; reflexivity.
  - apply orb_false_iff in Hcond. destruct Hcond as [-> ->]. simpl.
    exists w2. rewrite List.app_nil_r. repeat split; reflexivity.
Qed.

(** The step of [walkFolder] on a folder that fails to load. *)
Lemma walkFolder_load_error (fuel : nat) (currentFolder : string) (w : world)
    (folder : option folderEntry) (children : list string) (e : error)
    (w1 : world) :
  loadDir E scanCtx fuel currentFolder w = Some ((folder, children, Some e), w1) ->
  walkFolder E scanCtx (S fuel) currentFolder w
  = Some (None,
          World (ctxLeft w1) (numFolders w1)
                (logs w1 ++ [LogLine LWarn "Scanner: Error loading dir. Skipping"
                                     currentFolder])
                (results w1) (readDirCalls w1)).
Proof.
  intros Hload. simpl. unfold bind at 1. rewrite Hload. reflexivity.
Qed.

(** Walks only add to what has been sent. *)
Lemma forChildren_results (walk : string -> M (option error)) :
  (forall c w err w', walk c w = Some (err, w') ->
     exists sent, results w' = (results w ++ sent)%list) ->
  forall children w err w',
    forChildren walk children w = Some (err, w') ->
    exists sent, results w' = (results w ++ sent)%list.
Proof.
  intros Hwalk. induction children as [|c rest IH]; intros w err w'; simpl.
  - intros [= _ <-]. exists []. now rewrite List.app_nil_r.
  - intros H. apply bind_Some in H. destruct H as (e & w1 & Hc & Hk).
    apply Hwalk in Hc. destruct Hc as [s1 Hs1]. destruct e as [e|].
    + injection Hk as _ <-. now exists s1.
    + apply IH in Hk. destruct Hk as [s2 Hs2]. exists (s1 ++ s2)%list.
      now rewrite Hs2, Hs1, List.app_assoc.
Qed.

Lemma walkFolder_results (fuel : nat) :
  forall currentFolder w err w',
    walkFolder E scanCtx fuel currentFolder w = Some (err, w') ->
    exists sent, results w' = (results w ++ sent)%list.
Proof.
  induction fuel as [|fuel IH]; intros currentFolder w err w' H; [discriminate|].
  pose proof H as H'. simpl in H'. apply bind_Some in H'.
  destruct H' as ([[folder children] [e|]] & w1 & Hload & Hk).
  - rewrite (walkFolder_load_error _ _ _ _ _ _ _ Hload) in H.
    injection H as _ <-. simpl. apply loadDir_quiet in Hload.
    destruct Hload as [-> _]. exists []. now rewrite List.app_nil_r.
  - apply bind_Some in Hk. destruct Hk as ([] & w2 & Hadd & Hk).
    injection Hadd as <-. fold (afterCount w1) in Hk.
    apply bind_Some in Hk. destruct Hk as (err' & w3 & Hch & Hk).
    destruct folder as [folder|];
      [|assert (err' = None) as ->
          by (eapply forChildren_no_error; [apply walkFolder_no_error | exact Hch]);
        discriminate].
    destruct (walkFolder_loaded _ _ _ _ _ _ _ _ Hload Hch) as (w4 & Hrun & Hrs & _).
    rewrite Hrun in H. injection H as _ <-.
    destruct (forChildren_results _ IH _ _ _ _ Hch) as [sent Hsent].
    apply loadDir_quiet in Hload. destruct Hload as [Hq _].
    simpl in Hsent. rewrite Hq in Hsent.
    eexists. rewrite Hrs, Hsent, <- List.app_assoc. reflexivity.
Qed.

Lemma forChildren_walkedAll (walk : string -> M (option error)) :
  (forall c w err w', walk c w = Some (err, w') -> err = None) ->
  forall children w err w',
    forChildren walk children w = Some (err, w') ->
    walkedAll walk children w w'.
Proof.
  intros Hwalk. induction children as [|c rest IH]; intros w err w'; simpl.
  - intros [= _ <-]. constructor.
  - intros H. apply bind_Some in H. destruct H as (e & w1 & Hc & Hk).
    pose proof (Hwalk _ _ _ _ Hc) as ->.
    econstructor; [exact Hc | eapply IH; exact Hk].
Qed.

(** With a full rescan every folder counted is sent. *)
Lemma walkFolder_full_rescan_sends_every_folder (fuel : nat) :
  fullRescan scanCtx = true ->
  forall currentFolder w err w',
    walkFolder E scanCtx fuel currentFolder w = Some (err, w') ->
    Z.of_nat (List.length (results w')) - Z.of_nat (List.length (results w))
    = numFolders w' - numFolders w.
Proof.
  intros Hfull. induction fuel as [|fuel IH]; intros currentFolder w err w' H;
    [discriminate|].
  assert (Hch : forall children w err w',
    forChildren (walkFolder E scanCtx fuel) children w = Some (err, w') ->
    Z.of_nat (List.length (results w')) - Z.of_nat (List.length (results w))
    = numFolders w' - numFolders w).
  { induction children as [|c rest IHc]; intros v err1 v'; simpl.
    - intros [= _ <-]. lia.
    - intros Hk. apply bind_Some in Hk. destruct Hk as (e & v1 & Hc & Hk).
      apply IH in Hc. destruct e as [e|].
      + injection Hk as _ <-. exact Hc.
      + apply IHc in Hk. lia. }
  pose proof H as H'. simpl in H'. apply bind_Some in H'.
  destruct H' as ([[folder children] [e|]] & w1 & Hload & Hk).
  - rewrite (walkFolder_load_error _ _ _ _ _ _ _ Hload) in H.
    injection H as _ <-. simpl. apply loadDir_quiet in Hload.
    destruct Hload as [-> ->]. lia.
  - apply bind_Some in Hk. destruct Hk as ([] & w2 & Hadd & Hk).
    injection Hadd as <-. fold (afterCount w1) in Hk.
    apply bind_Some in Hk. destruct Hk as (err' & w3 & Hwalk & Hk).
    destruct folder as [folder|];
      [|assert (err' = None) as ->
          by (eapply forChildren_no_error; [apply walkFolder_no_error | exact Hwalk]);
        discriminate].
    destruct (walkFolder_loaded _ _ _ _ _ _ _ _ Hload Hwalk)
      as (w4 & Hrun & Hrs & Hnf & _).
    rewrite Hrun in H. injection H as _ <-.
    apply Hch in Hwalk. apply loadDir_quiet in Hload. destruct Hload as [Hq Hn].
    simpl in Hwalk. rewrite Hq, Hn in Hwalk.
    rewrite Hrs, Hnf, List.length_app. unfold ownEmission.
    rewrite Hfull, orb_true_r. simpl. lia.
Qed.

Lemma loadDir_range_app (dirPath : string) (pre l : list dirEntry) :
  forall (folder : folderEntry) (children : list string) (w : world)
         (f1 : folderEntry) (ch1 : list string) (w2 : world),
  loadDir_range E dirPath pre folder children w = Some ((Some f1, ch1, None), w2) ->
  loadDir_range E dirPath (pre ++ l) folder children w
  = loadDir_range E dirPath l f1 ch1 w2.
Proof.
  induction pre as [|entry pre IH]; intros folder children w f1 ch1 w2 H.
  - simpl in H. now injection H as <- <- <-.
  - rewrite <- List.app_comm_cons.
    destruct (ctx_alive_or_cancelled w) as [Hc|Hc];
      [rewrite loadDir_range_cancelled in H by exact Hc; discriminate|].
    destruct (isDirOrSymlinkToDir E dirPath entry) as [isDir|e] eqn:Hd.
    + destruct (walkable E dirPath entry) eqn:Hw.
      * destruct (loadDir_range_child E dirPath entry w Hc Hw)
          as (w1 & _ & Heq). rewrite Heq in H |- *. now apply IH.
      * assert (Hf : countedAsFile E dirPath entry = true)
          by (unfold countedAsFile; now rewrite Hd, Hw).
        destruct (Info entry) as [fileInfo|e] eqn:Hi.
        -- destruct (loadDir_range_file E dirPath entry w fileInfo Hc Hf Hi)
             as (w1 & _ & Heq). rewrite Heq in H |- *. now apply IH.
        -- destruct (loadDir_range_info_error E dirPath entry pre folder
                       children w e Hc Hf Hi) as (lines & Heq).
           rewrite Heq in H. discriminate.
    + destruct (loadDir_range_invalid_symlink E dirPath entry w e Hc Hd)
        as (w1 & _ & Heq). rewrite Heq in H |- *. now apply IH.
Qed.

(** C5, as the code has it.  When [Info] fails on an entry that
    [loadDir] treats as a file, the failure is logged and [loadDir]
    returns it at once; [walkFolder] logs that the directory is skipped
    and returns nil.  Nothing else happens: the entries after it are
    not looked at, the directory is neither counted nor sent, and none
    of the children collected before is walked. *)
Theorem walkFolder_info_error_skips_directory (fuel : nat)
    (currentFolder : string) (w : world) (dirInfo : fileInfo) (dir : dirFile)
    (pre : list dirEntry) (entry : dirEntry) (rest : list dirEntry)
    (w1 : world) (f1 : folderEntry) (ch1 : list string) (w2 : world)
    (e : error) :
  os_Stat E currentFolder = Ok dirInfo ->
  os_Open E currentFolder = Ok dir ->
  fullReadDir fuel dir w = Some ((pre ++ entry :: rest)%list, w1) ->
  loadDir_range E currentFolder pre
    (set_modTime (newFolderEntry E scanCtx currentFolder) (ModTime dirInfo)) [] w1
    = Some ((Some f1, ch1, None), w2) ->
  ctxAllows 1 w2 ->
  countedAsFile E currentFolder entry = true ->
  Info entry = Err e ->
  exists lines,
    walkFolder E scanCtx (S fuel) currentFolder w
    = Some (None,
            World (ctxTick (ctxLeft w2)) (numFolders w2)
                  (logs w2 ++ lines ++
                   [LogLine LWarn "Scanner: Error getting fileInfo" (Name entry);
                    LogLine LWarn "Scanner: Error loading dir. Skipping"
                            currentFolder])
                  (results w2) (readDirCalls w2)) /\
    results w2 = results w /\ numFolders w2 = numFolders w.
Proof.
  intros Hs Ho Hread Hpre Hc Hf Hi.
  destruct (loadDir_range_info_error E currentFolder entry rest f1 ch1 w2 e
              Hc Hf Hi) as (lines & Hfail).
  assert (Hload : loadDir E scanCtx fuel currentFolder w
                  = Some ((Some f1, ch1, Some e),
                          World (ctxTick (ctxLeft w2)) (numFolders w2)
                            (logs w2 ++ lines ++
                             [LogLine LWarn "Scanner: Error getting fileInfo"
                                      (Name entry)])
                            (results w2) (readDirCalls w2))).
  { unfold loadDir. rewrite Hs, Ho. unfold bind. rewrite Hread.
    now rewrite (loadDir_range_app _ _ _ _ _ _ _ _ _ Hpre). }
  exists lines. rewrite (walkFolder_load_error _ _ _ _ _ _ _ Hload). simpl.
  apply loadDir_quiet in Hload. destruct Hload as [Hq Hn]. simpl in Hq, Hn.
  repeat split; trivial. now rewrite <- !List.app_assoc.
Qed.

(** *** Termination *)

Lemma fullReadDir_entries (fuel : nat) (dir : dirFile) (w : world)
    (entries : list dirEntry) (w' : world) :
  fullReadDir fuel dir w = Some (entries, w') ->
  forall e, In e entries -> exists i, In e (fst (ReadDirAt dir i)).
Proof.
  intros H e He. apply fullReadDir_loop_inv in H.
  destruct H as (c & _ & _ & _ & [(-> & _)|(c' & _ & -> & _)]); [destruct He|].
  apply (Permutation_in _ (Permutation_sym (sortByName_perm _))) in He.
  simpl in He. unfold entriesOfCalls in He. apply List.in_concat in He.
  destruct He as (l & Hl & Hel). apply List.in_map_iff in Hl.
  destruct Hl as (i & <- & _). now exists i.
Qed.

Lemma forChildren_total (walk : string -> M (option error))
    (children : list string) :
  (forall c, In c children -> forall w, exists w', walk c w = Some (None, w')) ->
  forall w, exists w', forChildren walk children w = Some (None, w').
Proof.
  induction children as [|c rest IH]; intros Hwalk w; simpl.
  - now exists w.
  - destruct (Hwalk c (or_introl eq_refl) w) as [w1 H1].
    unfold bind. rewrite H1. apply IH. intros c' Hc'. apply Hwalk. now right.
Qed.

(** [loadDir] returns when the directory, if it opens, reads to an end
    within the fuel given. *)
Lemma loadDir_terminates (bound fuel : nat) (dirPath : string) (w : world) :
  (forall dir, os_Open E dirPath = Ok dir ->
     exists k, (k < bound)%nat /\ errAt dir k = None) ->
  (bound <= fuel)%nat ->
  exists r w1, loadDir E scanCtx fuel dirPath w = Some (r, w1).
Proof.
  intros Hread Hfuel. unfold loadDir.
  destruct (os_Stat E dirPath) as [di|e];
    [|munfold; do 2 eexists; reflexivity].
  destruct (os_Open E dirPath) as [dir|e] eqn:Ho;
    [|munfold; do 2 eexists; reflexivity].
  destruct (Hread dir eq_refl) as (k & Hk & Hnil).
  destruct (fullReadDir_loop_terminates k dir 0 [] "" w Hnil) as [[es w0] Hrun].
  apply (fullReadDir_loop_fuel _ (fuel - S k)) in Hrun.
  replace (S k + (fuel - S k))%nat with fuel in Hrun by lia.
  unfold bind, fullReadDir. rewrite Hrun.
  destruct (loadDir_range_run E dirPath es
              (set_modTime (newFolderEntry E scanCtx dirPath) (ModTime di)) [] w0)
    as (f' & ch' & err & w' & Hr & _). rewrite Hr. do 2 eexists; reflexivity.
Qed.

(** On a snapshot in which every directory that opens reads to an end
    within [bound] calls, and the directories to walk nest to a finite
    depth measured by [rank], the walk returns once it has enough fuel. *)
Lemma walkFolder_terminates (rank : string -> nat) (bound : nat) :
  (forall p dir, os_Open E p = Ok dir ->
     exists k, (k < bound)%nat /\ errAt dir k = None) ->
  (forall p dir i e, os_Open E p = Ok dir -> In e (fst (ReadDirAt dir i)) ->
     walkable E p e = true -> (rank (childPath E p e) < rank p)%nat) ->
  forall fuel currentFolder w,
    (rank currentFolder + bound < fuel)%nat ->
    exists w', walkFolder E scanCtx fuel currentFolder w = Some (None, w').
Proof.
  intros Hread Hrank. induction fuel as [|fuel IH]; intros p w Hfuel; [lia|].
  destruct (loadDir_terminates bound fuel p w (Hread p) ltac:(lia))
    as ([[folder children] [e|]] & w1 & Hload).
  { rewrite (walkFolder_load_error _ _ _ _ _ _ _ Hload). eexists; reflexivity. }
  pose proof Hload as Hcases. apply loadDir_cases in Hcases.
  destruct Hcases as [(e & _ & [=] & _)|[(di & e & f0 & _ & _ & [=] & _)|
                      (di & dir & entries & w0 & Hs & Ho & Hrd & _ & Hrange)]].
  destruct (loadDir_range_run E p entries
              (set_modTime (newFolderEntry E scanCtx p) (ModTime di)) [] w0)
    as (f' & ch' & err' & w' & Hrun' & _ & _ & _ & _ & _ & _ & Hok).
  rewrite Hrun' in Hrange. injection Hrange as Hf Hc He Hw. subst.
  destruct (Hok eq_refl) as (Hchildren & _). simpl in Hchildren.
  destruct (forChildren_total (walkFolder E scanCtx fuel) children)
    with (w := afterCount w1) as [w2 Hwalk].
  { intros c Hc v. apply IH. rewrite Hchildren in Hc.
    apply List.in_map_iff in Hc. destruct Hc as (e & <- & He).
    apply List.filter_In in He. destruct He as [He Hw].
    destruct (fullReadDir_entries _ _ _ _ _ Hrd e He) as [i Hi].
    pose proof (Hrank p dir i e Ho Hi Hw). lia. }
  destruct (walkFolder_loaded _ _ _ _ _ _ _ _ Hload Hwalk) as (w3 & Hrun & _).
  now exists w3.
Qed.

(** The result of a walk does not depend on the fuel left over. *)
Lemma walkFolder_fuel (fuel : nat) :
  forall currentFolder w r,
    walkFolder E scanCtx fuel currentFolder w = Some r ->
    walkFolder E scanCtx (S fuel) currentFolder w = Some r.
Proof.
  induction fuel as [|fuel IH]; intros p w r H; [discriminate|].
  assert (Hch : forall children v r',
    forChildren (walkFolder E scanCtx fuel) children v = Some r' ->
    forChildren (walkFolder E scanCtx (S fuel)) children v = Some r').
  { induction children as [|c rest IHc]; intros v r'; [trivial|].
    rewrite !forChildren_cons. intros Hk. apply bind_Some in Hk.
    destruct Hk as (e & v1 & Hc & Hk). unfold bind. rewrite (IH _ _ _ Hc).
    destruct e; [exact Hk | now apply IHc]. }
  assert (Hld : forall r', loadDir E scanCtx fuel p w = Some r' ->
                           loadDir E scanCtx (S fuel) p w = Some r').
  { intros r'. unfold loadDir. destruct (os_Stat E p); trivial.
    destruct (os_Open E p); trivial. intros Hk. apply bind_Some in Hk.
    destruct Hk as (es & v1 & Hrd & Hk). unfold bind, fullReadDir.
    apply (fullReadDir_loop_fuel _ 1) in Hrd. rewrite Nat.add_1_r in Hrd.
    now rewrite Hrd. }
  rewrite walkFolder_S in H. rewrite walkFolder_S.
  apply bind_Some in H. destruct H as ([[folder children] err] & w1 & Hload & Hk).
  unfold bind at 1. rewrite (Hld _ Hload).
  destruct err as [e|]; [exact Hk|].
  apply bind_Some in Hk. destruct Hk as ([] & w2 & Hadd & Hk).
  unfold bind at 1. rewrite Hadd.
  apply bind_Some in Hk. destruct Hk as (err' & w3 & Hwalk & Hk).
  unfold bind at 1. rewrite (Hch _ _ _ Hwalk). exact Hk.
Qed.

(** *** A context that is never cancelled *)

Lemma ctxAllows_None (c : nat) (w : world) : ctxLeft w = None -> ctxAllows c w.
Proof. unfold ctxAllows. now intros ->. Qed.

Lemma stepped_None (w w1 : world) :
  ctxLeft w = None -> stepped w w1 -> ctxLeft w1 = None.
Proof. intros Hc (H & _). now rewrite H, Hc. Qed.

(** What the reader returns does not depend then on the rest of the
    world, nor on the fuel. *)
Lemma fullReadDir_loop_never_cancelled (fuel : nat) :
  forall dir n allEntries prevErrStr w es w',
    ctxLeft w = None ->
    fullReadDir_loop fuel dir n allEntries prevErrStr w = Some (es, w') ->
    ctxLeft w' = None /\
    forall fuel2 v es2 v',
      ctxLeft v = None ->
      fullReadDir_loop fuel2 dir n allEntries prevErrStr v = Some (es2, v') ->
      es2 = es.
Proof.
  induction fuel as [|fuel IH]; intros dir n allEntries prevErrStr w es w' Hc H;
    [discriminate|].
  destruct (errAt dir n) as [e|] eqn:He.
  - destruct (String.eqb_spec prevErrStr e) as [->|Hne].
    + rewrite fullReadDir_loop_stuck in H by (trivial; now apply ctxAllows_None).
      injection H as <- <-. split; [simpl; now rewrite Hc|].
      intros [|fuel2] v es2 v' Hv H2; [discriminate|].
      rewrite fullReadDir_loop_stuck in H2 by (trivial; now apply ctxAllows_None).
      now injection H2 as <- _.
    + rewrite (fullReadDir_loop_retry _ _ _ _ _ e) in H
        by (trivial; now apply ctxAllows_None).
      apply IH in H; [|simpl; now rewrite Hc]. destruct H as [Hc' Hdet].
      split; [exact Hc'|].
      intros [|fuel2] v es2 v' Hv H2; [discriminate|].
      rewrite (fullReadDir_loop_retry _ _ _ _ _ e) in H2
        by (trivial; now apply ctxAllows_None).
      eapply Hdet; [|exact H2]. simpl. now rewrite Hv.
  - rewrite fullReadDir_loop_done in H by (trivial; now apply ctxAllows_None).
    injection H as <- <-. split; [simpl; now rewrite Hc|].
    intros [|fuel2] v es2 v' Hv H2; [discriminate|].
    rewrite fullReadDir_loop_done in H2 by (trivial; now apply ctxAllows_None).
    now injection H2 as <- _.
Qed.

Lemma loadDir_range_never_cancelled (dirPath : string) (entries : list dirEntry) :
  forall folder children w l w',
    ctxLeft w = None ->
    loadDir_range E dirPath entries folder children w = Some (l, w') ->
    ctxLeft w' = None /\
    forall v l2 v',
      ctxLeft v = None ->
      loadDir_range E dirPath entries folder children v = Some (l2, v') ->
      l2 = l.
Proof.
  induction entries as [|entry rest IH]; intros folder children w l w' Hc H.
  - simpl in H. injection H as <- <-. split; [exact Hc|].
    intros v l2 v' _ H2. simpl in H2. now injection H2 as <- _.
  - pose proof (ctxAllows_None 1 w Hc) as Ha.
    destruct (isDirOrSymlinkToDir E dirPath entry) as [isDir|e] eqn:Hd.
    + destruct (walkable E dirPath entry) eqn:Hw.
      * destruct (loadDir_range_child E dirPath entry w Ha Hw)
          as (w1 & Hst & Heq). rewrite Heq in H.
        destruct (IH _ _ _ _ _ (stepped_None _ _ Hc Hst) H) as [Hc' Hdet].
        split; [exact Hc'|]. intros v l2 v' Hv H2.
        destruct (loadDir_range_child E dirPath entry v (ctxAllows_None 1 v Hv) Hw)
          as (v1 & Hst' & Heq'). rewrite Heq' in H2.
        eapply Hdet; [|exact H2]. eapply stepped_None; eassumption.
      * assert (Hf : countedAsFile E dirPath entry = true)
          by (unfold countedAsFile; now rewrite Hd, Hw).
        destruct (Info entry) as [fileInfo|e] eqn:Hi.
        -- destruct (loadDir_range_file E dirPath entry w fileInfo Ha Hf Hi)
             as (w1 & Hst & Heq). rewrite Heq in H.
           destruct (IH _ _ _ _ _ (stepped_None _ _ Hc Hst) H) as [Hc' Hdet].
           split; [exact Hc'|]. intros v l2 v' Hv H2.
           destruct (loadDir_range_file E dirPath entry v fileInfo
                       (ctxAllows_None 1 v Hv) Hf Hi) as (v1 & Hst' & Heq').
           rewrite Heq' in H2.
           eapply Hdet; [|exact H2]. eapply stepped_None; eassumption.
        -- destruct (loadDir_range_info_error E dirPath entry rest folder
                       children w e Ha Hf Hi) as (lines & Heq).
           rewrite Heq in H. injection H as <- <-.
           split; [simpl; now rewrite Hc|]. intros v l2 v' Hv H2.
           destruct (loadDir_range_info_error E dirPath entry rest folder
                       children v e (ctxAllows_None 1 v Hv) Hf Hi) as (lines' & Heq').
           rewrite Heq' in H2. now injection H2 as <- _.
    + destruct (loadDir_range_invalid_symlink E dirPath entry w e Ha Hd)
        as (w1 & Hst & Heq). rewrite Heq in H.
      destruct (IH _ _ _ _ _ (stepped_None _ _ Hc Hst) H) as [Hc' Hdet].
      split; [exact Hc'|]. intros v l2 v' Hv H2.
      destruct (loadDir_range_invalid_symlink E dirPath entry v e
                  (ctxAllows_None 1 v Hv) Hd) as (v1 & Hst' & Heq').
      rewrite Heq' in H2.
      eapply Hdet; [|exact H2]. eapply stepped_None; eassumption.
Qed.

Lemma loadDir_never_cancelled (fuel : nat) (p : string) (w : world)
    (l : loaded) (w' : world) :
  ctxLeft w = None ->
  loadDir E scanCtx fuel p w = Some (l, w') ->
  ctxLeft w' = None /\
  forall fuel2 v l2 v',
    ctxLeft v = None ->
    loadDir E scanCtx fuel2 p v = Some (l2, v') -> l2 = l.
Proof.
  unfold loadDir. intros Hc.
  destruct (os_Stat E p) as [di|e].
  - destruct (os_Open E p) as [dir|e].
    + intros H. apply bind_Some in H. destruct H as (es & w0 & Hrd & Hrg).
      destruct (fullReadDir_loop_never_cancelled _ _ _ _ _ _ _ _ Hc Hrd)
        as [Hc0 Hdet0].
      destruct (loadDir_range_never_cancelled _ _ _ _ _ _ _ Hc0 Hrg)
        as [Hc1 Hdet1].
      split; [exact Hc1|]. intros fuel2 v l2 v' Hv H2.
      apply bind_Some in H2. destruct H2 as (es2 & v0 & Hrd2 & Hrg2).
      pose proof (Hdet0 _ _ _ _ Hv Hrd2) as ->.
      destruct (fullReadDir_loop_never_cancelled _ _ _ _ _ _ _ _ Hv Hrd2)
        as [Hv0 _].
      eapply Hdet1; eassumption.
    + munfold. intros [= <- <-]. split; [exact Hc|].
      intros fuel2 v l2 v' _ [= <- _]. reflexivity.
  - munfold. intros [= <- <-]. split; [exact Hc|].
    intros fuel2 v l2 v' _ [= <- _]. reflexivity.
Qed.

(** A directory loads in one way. *)
Lemma loads_unique (p : string) (f : folderEntry) (ch : list string)
    (fuel : nat) (w : world) (l : loaded) (w' : world) :
  loads E scanCtx p f ch ->
  ctxLeft w = None ->
  loadDir E scanCtx fuel p w = Some (l, w') ->
  l = (Some f, ch, None).
Proof.
  intros (fuel0 & v & v' & Hv & Hl) Hc H.
  destruct (loadDir_never_cancelled _ _ _ _ _ Hv Hl) as [_ Hdet].
  exact (Hdet _ _ _ _ Hc H).
Qed.

(** The loop over the children sends what the walks of the children
    send. *)
Lemma forChildren_sentBelow (walk : string -> M (option error)) :
  (forall c w r w', ctxLeft w = None -> walk c w = Some (r, w') ->
     r = None /\ ctxLeft w' = None /\
     exists sent, results w' = (results w ++ sent)%list /\
                  sentBelow E scanCtx [c] sent) ->
  forall children w r w',
    ctxLeft w = None ->
    forChildren walk children w = Some (r, w') ->
    ctxLeft w' = None /\
    exists sent, results w' = (results w ++ sent)%list /\
                 sentBelow E scanCtx children sent.
Proof.
  intros Hwalk. induction children as [|c rest IH]; intros w r w' Hc.
  - intros [= _ <-]. split; [exact Hc|]. exists [].
    split; [now rewrite List.app_nil_r|].
    intros x. split; [intros [] | intros (c & d & f & ch & [] & _)].
  - rewrite forChildren_cons. intros H. apply bind_Some in H.
    destruct H as (e & w1 & H1 & Hk).
    destruct (Hwalk _ _ _ _ Hc H1) as (-> & Hc1 & s1 & Hs1 & Hb1).
    destruct (IH _ _ _ Hc1 Hk) as (Hc2 & s2 & Hs2 & Hb2).
    split; [exact Hc2|]. exists (s1 ++ s2)%list.
    split; [now rewrite Hs2, Hs1, List.app_assoc|].
    intros x. rewrite List.in_app_iff, (Hb1 x), (Hb2 x). split.
    + intros [(c0 & d & f & ch & [<-|[]] & Hrest)
             |(c0 & d & f & ch & Hin & Hrest)].
      * exists c, d, f, ch. split; [now left | exact Hrest].
      * exists c0, d, f, ch. split; [now right | exact Hrest].
    + intros (c0 & d & f & ch & [<-|Hin] & Hrest).
      * left. exists c, d, f, ch. split; [now left | exact Hrest].
      * right. exists c0, d, f, ch. split; [exact Hin | exact Hrest].
Qed.

(** While the context is not cancelled, a walk sends exactly the
    entries of the directories that it reaches through directories
    that load, and that are outdated or part of a full rescan. *)
Lemma walkFolder_sentBelow (fuel : nat) :
  forall p w r w',
    ctxLeft w = None ->
    walkFolder E scanCtx fuel p w = Some (r, w') ->
    r = None /\ ctxLeft w' = None /\
    exists sent, results w' = (results w ++ sent)%list /\
                 sentBelow E scanCtx [p] sent.
Proof.
  induction fuel as [|fuel IH]; intros p w r w' Hc H; [discriminate|].
  split; [exact (walkFolder_no_error _ _ _ _ _ H)|].
  pose proof H as H'. rewrite walkFolder_S in H'. apply bind_Some in H'.
  destruct H' as ([[folder children] [e|]] & w1 & Hload & Hk).
  - rewrite (walkFolder_load_error _ _ _ _ _ _ _ Hload) in H.
    injection H as _ <-. simpl.
    destruct (loadDir_never_cancelled _ _ _ _ _ Hc Hload) as [Hc1 _].
    split; [exact Hc1|]. exists [].
    pose proof (loadDir_quiet _ _ _ _ _ _ _ Hload) as [Hq _].
    split; [now rewrite Hq, List.app_nil_r|].
    intros x. split; [intros []|].
    intros (c & d & f & ch & [<-|[]] & Hr & Hl & _).
    inversion Hr as [|? ? ? f0 ch0 Hl0]; subst.
    + pose proof (loads_unique _ _ _ _ _ _ _ Hl Hc Hload). discriminate.
    + pose proof (loads_unique _ _ _ _ _ _ _ Hl0 Hc Hload). discriminate.
  - apply bind_Some in Hk. destruct Hk as ([] & w2 & Hadd & Hk).
    injection Hadd as <-. fold (afterCount w1) in Hk.
    apply bind_Some in Hk. destruct Hk as (err' & w3 & Hwalk & Hk).
    destruct folder as [folder|];
      [|assert (err' = None) as ->
          by (eapply forChildren_no_error; [apply walkFolder_no_error | exact Hwalk]);
        discriminate].
    destruct (walkFolder_loaded _ _ _ _ _ _ _ _ Hload Hwalk)
      as (w4 & Hrun & Hrs & _ & Hctx).
    rewrite Hrun in H. injection H as _ <-.
    destruct (loadDir_never_cancelled _ _ _ _ _ Hc Hload) as [Hc1 _].
    destruct (forChildren_sentBelow _ IH children (afterCount w1) _ _ Hc1 Hwalk)
      as (Hc3 & sent & Hsent & Hb).
    split; [now rewrite Hctx|].
    pose proof (loadDir_quiet _ _ _ _ _ _ _ Hload) as [Hq _].
    simpl in Hsent. rewrite Hq in Hsent.
    exists (sent ++ ownEmission E scanCtx p folder)%list.
    split; [now rewrite Hrs, Hsent, <- List.app_assoc|].
    assert (Hloads : loads E scanCtx p folder children)
      by (exists fuel, w, w1; now split).
    intros x. rewrite List.in_app_iff, (Hb x). unfold ownEmission. split.
    + intros [(c & d & f & ch & Hin & Hr & Hrest)|Hown].
      * exists p, d, f, ch. split; [now left|].
        split; [exact (reaches_below _ _ _ _ _ _ _ Hloads Hin Hr) | exact Hrest].
      * destruct (isOutdated folder || fullRescan scanCtx) eqn:Hcond;
          [|destruct Hown].
        destruct Hown as [<-|[]]. exists p, p, folder, children.
        split; [now left|]. split; [constructor|]. split; [exact Hloads|].
        split; [now apply orb_true_iff | reflexivity].
    + intros (c & d & f & ch & [<-|[]] & Hr & Hl & Hcond & ->).
      inversion Hr as [|? c' ? f0 ch0 Hl0 Hin0 Hr0]; subst.
      * pose proof (loads_unique _ _ _ _ _ _ _ Hl Hc Hload) as Heq.
        injection Heq as <- <-. right.
        apply orb_true_iff in Hcond. rewrite Hcond. now left.
      * pose proof (loads_unique _ _ _ _ _ _ _ Hl0 Hc Hload) as Heq.
        injection Heq as <- <-. left.
        exists c', d, f, ch. repeat split; trivial.
Qed.

(** The children of a directory that loads are walkable entries read
    from it. *)
Lemma loadDir_children_read (fuel : nat) (p : string) (w : world)
    (folder : folderEntry) (children : list string) (w1 : world) :
  loadDir E scanCtx fuel p w = Some ((Some folder, children, None), w1) ->
  exists dir entries w0,
    os_Open E p = Ok dir /\
    fullReadDir fuel dir w = Some (entries, w0) /\
    children = List.map (childPath E p) (List.filter (walkable E p) entries) /\
    forall c, In c children ->
      exists i e, In e (fst (ReadDirAt dir i)) /\ walkable E p e = true /\
                  c = childPath E p e.
Proof.
  intros Hload. apply loadDir_cases in Hload.
  destruct Hload as [(e & _ & [=] & _)|[(di & e & f0 & _ & _ & [=] & _)|
                     (di & dir & entries & w0 & Hs & Ho & Hrd & _ & Hrange)]].
  destruct (loadDir_range_run E p entries
              (set_modTime (newFolderEntry E scanCtx p) (ModTime di)) [] w0)
    as (f' & ch' & err' & w' & Hrun' & _ & _ & _ & _ & _ & _ & Hok).
  rewrite Hrun' in Hrange. injection Hrange as Hf Hc He Hw. subst.
  destruct (Hok eq_refl) as (Hchildren & _). simpl in Hchildren.
  exists dir, entries, w0. repeat split; trivial.
  intros c Hc. rewrite Hchildren in Hc.
  apply List.in_map_iff in Hc. destruct Hc as (e & <- & He).
  apply List.filter_In in He. destruct He as [He Hw].
  destruct (fullReadDir_entries _ _ _ _ _ Hrd e He) as [i Hi].
  now exists i, e.
Qed.

Section FiniteTree.

(** Every directory that opens reads to an end within [bound] calls,
    and the directories to walk nest to a finite depth [rank]. *)
Variable rank : string -> nat.
Variable bound : nat.
Hypothesis reads_end :
  forall p dir, os_Open E p = Ok dir ->
    exists k, (k < bound)%nat /\ errAt dir k = None.
Hypothesis nests :
  forall p dir i e, os_Open E p = Ok dir -> In e (fst (ReadDirAt dir i)) ->
    walkable E p e = true -> (rank (childPath E p e) < rank p)%nat.

(** The walks of the children of a directory that loads return. *)
Lemma forChildren_return (fuel : nat) (p : string) (w : world)
    (folder : folderEntry) (children : list string) (w1 : world) :
  (rank p + bound <= fuel)%nat ->
  loadDir E scanCtx fuel p w = Some ((Some folder, children, None), w1) ->
  forall v, exists w2,
    forChildren (walkFolder E scanCtx fuel) children v = Some (None, w2).
Proof.
  intros Hfuel Hload.
  destruct (loadDir_children_read _ _ _ _ _ _ Hload)
    as (dir & entries & w0 & Ho & _ & _ & Hread).
  apply forChildren_total. intros c Hc v.
  destruct (Hread c Hc) as (i & e & Hi & Hw & ->).
  apply (walkFolder_terminates rank bound reads_end nests).
  pose proof (nests p dir i e Ho Hi Hw). lia.
Qed.

(** C1.  On a library whose directories read to an end and nest to a
    finite depth, [walkFolder] on a directory that [loadDir] has loaded
    walks the children and returns nil; the directory is sent on the
    channel, after what the children have sent, exactly when it is
    outdated, its [modTime] being after its [updTime], or the scan is a
    full rescan; otherwise the world is as the children left it. *)
Theorem walkFolder_emits_iff_outdated_or_full_rescan (fuel : nat)
    (currentFolder : string) (w : world) (folder : folderEntry)
    (children : list string) (w1 : world) :
  (rank currentFolder + bound <= fuel)%nat ->
  loadDir E scanCtx fuel currentFolder w
    = Some ((Some folder, children, None), w1) ->
  exists w2 w3,
    forChildren (walkFolder E scanCtx fuel) children (afterCount w1)
      = Some (None, w2) /\
    walkFolder E scanCtx (S fuel) currentFolder w = Some (None, w3) /\
    (updTime folder < modTime folder \/ fullRescan scanCtx = true ->
     results w3
     = (results w2 ++ [set_path folder (filepath_Clean E currentFolder)])%list) /\
    (~ updTime folder < modTime folder -> fullRescan scanCtx = false ->
     w3 = w2).
Proof.
  intros Hfuel Hload.
  destruct (forChildren_return _ _ _ _ _ _ Hfuel Hload (afterCount w1))
    as [w2 Hch].
  exists w2. rewrite walkFolder_S. unfold bind at 1. rewrite Hload.
  unfold bind at 1. simpl. unfold bind at 1. fold (afterCount w1). rewrite Hch.
  unfold isOutdated, After.
  destruct (Z.ltb_spec (updTime folder) (modTime folder)) as [Hlt|Hge]; simpl.
  - munfold. eexists. split; [reflexivity|]. split; [reflexivity|].
    split; [reflexivity | lia].
  - destruct (fullRescan scanCtx); simpl.
    + munfold. eexists. split; [reflexivity|]. split; [reflexivity|].
      split; [reflexivity | discriminate].
    + exists w2. split; [reflexivity|]. split; [reflexivity|].
      split; [|reflexivity].
      intros [?|?]; [lia | discriminate].
Qed.

(** C2, as the code has it.  On a library whose directories read to an
    end and nest to a finite depth, the children that [loadDir] has
    collected are all the entries read that are readable directories
    and not ignored; every one of them is walked before the emission of
    the folder is decided, so what these walks send comes before the
    folder's own entry; and when the folder is not sent, what they have
    sent and counted stays.  While the context is not cancelled, what
    the walks of the children send is exactly the entries of the
    directories below, reached through directories that load, that are
    outdated or part of a full rescan. *)
Theorem walkFolder_children_first (fuel : nat)
    (currentFolder : string) (w : world) (folder : folderEntry)
    (children : list string) (w1 : world) :
  (rank currentFolder + bound <= fuel)%nat ->
  loadDir E scanCtx fuel currentFolder w
    = Some ((Some folder, children, None), w1) ->
  exists dir entries w0 sent w2 w3,
    os_Open E currentFolder = Ok dir /\
    fullReadDir fuel dir w = Some (entries, w0) /\
    children = List.map (childPath E currentFolder)
                 (List.filter (walkable E currentFolder) entries) /\
    walkedAll (walkFolder E scanCtx fuel) children (afterCount w1) w2 /\
    results w2 = (results w ++ sent)%list /\
    walkFolder E scanCtx (S fuel) currentFolder w = Some (None, w3) /\
    results w3
    = (results w ++ sent ++ ownEmission E scanCtx currentFolder folder)%list /\
    (isOutdated folder = false -> fullRescan scanCtx = false ->
     results w3 = (results w ++ sent)%list /\ numFolders w3 = numFolders w2) /\
    (ctxLeft w = None -> sentBelow E scanCtx children sent).
Proof.
  intros Hfuel Hload.
  destruct (forChildren_return _ _ _ _ _ _ Hfuel Hload (afterCount w1))
    as [w2 Hch].
  destruct (walkFolder_loaded _ _ _ _ _ _ _ _ Hload Hch)
    as (w3 & Hrun & Hrs & Hnf & _).
  destruct (forChildren_results _ (walkFolder_results fuel) _ _ _ _ Hch)
    as [sent Hsent].
  pose proof (loadDir_quiet _ _ _ _ _ _ _ Hload) as [Hq _].
  simpl in Hsent. rewrite Hq in Hsent.
  destruct (loadDir_children_read _ _ _ _ _ _ Hload)
    as (dir & entries & w0 & Ho & Hrd & Hchildren & _).
  exists dir, entries, w0, sent, w2, w3. repeat split; trivial.
  - eapply forChildren_walkedAll; [apply walkFolder_no_error | exact Hch].
  - now rewrite Hrs, Hsent, <- List.app_assoc.
  - rewrite Hrs, Hsent. unfold ownEmission. rewrite H, H0. simpl.
    now rewrite List.app_nil_r.
  - destruct (loadDir_never_cancelled _ _ _ _ _ H Hload) as [Hc1 _].
    destruct (forChildren_sentBelow _ (walkFolder_sentBelow fuel) children
                (afterCount w1) _ _ Hc1 Hch) as (_ & sent' & Hsent' & Hb).
    simpl in Hsent'. rewrite Hq, Hsent in Hsent'.
    apply List.app_inv_head in Hsent'. subst sent'.
    apply (Hb x).
  - destruct (loadDir_never_cancelled _ _ _ _ _ H Hload) as [Hc1 _].
    destruct (forChildren_sentBelow _ (walkFolder_sentBelow fuel) children
                (afterCount w1) _ _ Hc1 Hch) as (_ & sent' & Hsent' & Hb).
    simpl in Hsent'. rewrite Hq, Hsent in Hsent'.
    apply List.app_inv_head in Hsent'. subst sent'.
    apply (Hb x).
Qed.

End FiniteTree.

End Walker.

(** ** The walk on the sample library *)

(** The loader on /music/Album. *)
Lemma loadDir_modTime_imagesUpdatedAt_witness :
  exists dirInfo dir entries w1,
    os_Stat sampleEnv "/music/Album" = Ok dirInfo /\
    os_Open sampleEnv "/music/Album" = Ok dir /\
    fullReadDir 3 dir world0 = Some (entries, w1) /\
    modTime (sampleAlbumFolder 0)
    = latest (ModTime dirInfo)
        (List.map entryModTime
           (List.filter (countedAsFile sampleEnv "/music/Album") entries)) /\
    imagesUpdatedAt (sampleAlbumFolder 0)
    = latest zeroTime
        (List.map entryModTime
           (List.filter (fun e => countedAsFile sampleEnv "/music/Album" e
                                  && storedAsImage sampleEnv e) entries)) /\
    forall e, In e entries -> countedAsFile sampleEnv "/music/Album" e = true ->
              exists fileInfo, Info e = Ok fileInfo.
Proof.
  apply (loadDir_modTime_imagesUpdatedAt sampleEnv scanFresh 3 "/music/Album"
           world0 (sampleAlbumFolder 0) [] (World None 0 [] [] 1)).
  vm_compute. reflexivity.
Defined.

(** C4, as stated, fails: notes.txt, which is no audio, image or
    playlist file, is the newest entry of /music and gives the folder its
    [modTime], 20, where the times of the directory and of its media
    files give 10. *)
Lemma loadDir_modTime_counterexample :
  loadDir sampleEnv scanFresh 3 "/music" world0
  = Some ((Some (sampleRootFolder 0), ["/music/Album"], None),
          World None 0 [invalidSymlinkLine] [] 1) /\
  modTime (sampleRootFolder 0) = 20 /\
  os_Stat sampleEnv "/music" = Ok (FileInfo 10 true) /\
  fullReadDir 3 (readsAtOnce sampleRoot) world0
  = Some ([directory ".hidden"; directory "Album"; symlink "broken" 40;
           regularFile "notes.txt" 20], World None 0 [] [] 1) /\
  statedModTime sampleEnv (FileInfo 10 true)
    [directory ".hidden"; directory "Album"; symlink "broken" 40;
     regularFile "notes.txt" 20] = 10.
Proof. repeat split; vm_compute; reflexivity. Qed.

Lemma sampleEnv_reads_to_an_end (p : string) (dir : dirFile) :
  os_Open sampleEnv p = Ok dir ->
  exists k, (k < 1)%nat /\ errAt dir k = None.
Proof.
  simpl. intros H. exists O. split; [lia|].
  destruct (String.eqb p "/music"); [now injection H as <-|].
  destruct (String.eqb p "/music/Album"); [now injection H as <-|discriminate].
Qed.

Lemma sampleEnv_nests (p : string) (dir : dirFile) (i : nat) (e : dirEntry) :
  os_Open sampleEnv p = Ok dir -> In e (fst (ReadDirAt dir i)) ->
  walkable sampleEnv p e = true ->
  (sampleRank (childPath sampleEnv p e) < sampleRank p)%nat.
Proof.
  simpl os_Open. intros H.
  destruct (String.eqb_spec p "/music") as [->|_].
  - injection H as <-. simpl.
    intros [<-|[<-|[<-|[<-|[]]]]] Hw; vm_compute in Hw |- *;
      try discriminate; lia.
  - destruct (String.eqb_spec p "/music/Album") as [->|_]; [|discriminate].
    injection H as <-. simpl.
    intros [<-|[<-|[<-|[]]]] Hw; vm_compute in Hw; discriminate.
Qed.

(** The first scan of /music: the album is sent, then the root. *)
Lemma walkFolder_emits_iff_outdated_or_full_rescan_witness :
  exists w2 w3,
    forChildren (walkFolder sampleEnv scanFresh 3) ["/music/Album"]
      (afterCount (World None 0 [invalidSymlinkLine] [] 1))
      = Some (None, w2) /\
    walkFolder sampleEnv scanFresh 4 "/music" world0 = Some (None, w3) /\
    (updTime (sampleRootFolder 0) < modTime (sampleRootFolder 0)
     \/ fullRescan scanFresh = true ->
     results w3
     = (results w2
        ++ [set_path (sampleRootFolder 0) (filepath_Clean sampleEnv "/music")])%list) /\
    (~ updTime (sampleRootFolder 0) < modTime (sampleRootFolder 0) ->
     fullRescan scanFresh = false ->
     w3 = w2).
Proof.
  apply (walkFolder_emits_iff_outdated_or_full_rescan sampleEnv scanFresh
           sampleRank 1 sampleEnv_reads_to_an_end sampleEnv_nests 3
           "/music" world0 (sampleRootFolder 0) ["/music/Album"]
           (World None 0 [invalidSymlinkLine] [] 1)).
  - vm_compute. lia.
  - vm_compute. reflexivity.
Defined.

(** A scan of /music in which only the album has changed: the album is
    walked and sent, the root is not sent. *)
Lemma walkFolder_children_first_witness :
  exists dir entries w0 sent w2 w3,
    os_Open sampleEnv "/music" = Ok dir /\
    fullReadDir 3 dir world0 = Some (entries, w0) /\
    ["/music/Album"] = List.map (childPath sampleEnv "/music")
                         (List.filter (walkable sampleEnv "/music") entries) /\
    walkedAll (walkFolder sampleEnv scanAlbumChanged 3) ["/music/Album"]
      (afterCount (World None 0 [invalidSymlinkLine] [] 1)) w2 /\
    results w2 = (results world0 ++ sent)%list /\
    walkFolder sampleEnv scanAlbumChanged 4 "/music" world0 = Some (None, w3) /\
    results w3
    = (results world0 ++ sent
       ++ ownEmission sampleEnv scanAlbumChanged "/music" (sampleRootFolder 100))%list /\
    (isOutdated (sampleRootFolder 100) = false ->
     fullRescan scanAlbumChanged = false ->
     results w3 = (results world0 ++ sent)%list /\
     numFolders w3 = numFolders w2) /\
    (ctxLeft world0 = None ->
     sentBelow sampleEnv scanAlbumChanged ["/music/Album"] sent).
Proof.
  apply (walkFolder_children_first sampleEnv scanAlbumChanged
           sampleRank 1 sampleEnv_reads_to_an_end sampleEnv_nests 3
           "/music" world0 (sampleRootFolder 100) ["/music/Album"]
           (World None 0 [invalidSymlinkLine] [] 1)).
  - vm_compute. lia.
  - vm_compute. reflexivity.
Defined.

(** C2, as stated, fails on its last clause.  In the library at /lib
    the root loads and is not outdated, so it is suppressed.
    /lib/Mid/Deep lies below it, a directory read in /lib/Mid, itself a
    directory read in /lib, and it is outdated: [loadDir] gives it the
    time 50 of new.mp3 against the recorded time 0.  But /lib/Mid does
    not load, gone.mp3 having vanished, so its child is not walked: the
    walk of /lib counts one folder, reads two directories and sends
    nothing. *)
Lemma walkFolder_descendants_counterexample :
  (exists f w1,
     loadDir sampleEnvDeep scanDeep 5 "/lib" world0
     = Some ((Some f, ["/lib/Mid"], None), w1) /\
     isOutdated f = false) /\
  fullRescan scanDeep = false /\
  walkable sampleEnvDeep "/lib" (directory "Mid") = true /\
  walkable sampleEnvDeep "/lib/Mid" (directory "Deep") = true /\
  (exists f w1,
     loadDir sampleEnvDeep scanDeep 5 "/lib/Mid" world0
     = Some ((Some f, ["/lib/Mid/Deep"], Some "no such file or directory"), w1)) /\
  (exists f w1,
     loadDir sampleEnvDeep scanDeep 5 "/lib/Mid/Deep" world0
     = Some ((Some f, [], None), w1) /\
     modTime f = 50 /\ updTime f = 0 /\ isOutdated f = true) /\
  walkFolder sampleEnvDeep scanDeep 5 "/lib" world0
  = Some (None,
          World None 1
                [LogLine LWarn "Scanner: Error getting fileInfo" "gone.mp3";
                 LogLine LWarn "Scanner: Error loading dir. Skipping" "/lib/Mid"]
                [] 2).
Proof.
  repeat split; try (vm_compute; reflexivity);
    do 2 eexists; repeat split; vm_compute; reflexivity.
Qed.

(** The walk of /music when gone.mp3 has vanished. *)
Lemma walkFolder_info_error_skips_directory_witness :
  exists lines,
    walkFolder sampleEnvVanished scanFull 4 "/music" world0
    = Some (None,
            World (ctxTick (ctxLeft (World None 0 [] [] 1)))
                  (numFolders (World None 0 [] [] 1))
                  (logs (World None 0 [] [] 1) ++ lines ++
                   [LogLine LWarn "Scanner: Error getting fileInfo"
                            (Name (vanishedFile "gone.mp3"));
                    LogLine LWarn "Scanner: Error loading dir. Skipping" "/music"])
                  (results (World None 0 [] [] 1))
                  (readDirCalls (World None 0 [] [] 1))) /\
    results (World None 0 [] [] 1) = results world0 /\
    numFolders (World None 0 [] [] 1) = numFolders world0.
Proof.
  apply (walkFolder_info_error_skips_directory sampleEnvVanished scanFull 3
           "/music" world0 (FileInfo 10 true)
           (readsAtOnce [directory "Album"; vanishedFile "gone.mp3";
                         regularFile "kept.mp3" 20])
           [directory "Album"] (vanishedFile "gone.mp3") [regularFile "kept.mp3" 20]
           (World None 0 [] [] 1)
           (set_modTime (newFolderEntry sampleEnvVanished scanFull "/music") 10)
           ["/music/Album"] (World None 0 [] [] 1)
           "no such file or directory").
  - reflexivity.
  - reflexivity.
  - vm_compute. reflexivity.
  - vm_compute. reflexivity.
  - exact I.
  - vm_compute. reflexivity.
  - reflexivity.
Defined.

(** C5, as stated, fails: in a full rescan of the library in which
    gone.mp3 has vanished, nothing at all is sent.  /music is dropped
    with kept.mp3 in it, and /music/Album, already collected as a child,
    is not walked; no folder is counted. *)
Lemma walkFolder_info_error_counterexample :
  In (vanishedFile "gone.mp3")
     [directory "Album"; vanishedFile "gone.mp3"; regularFile "kept.mp3" 20] /\
  fullRescan scanFull = true /\
  walkFolder sampleEnvVanished scanFull 5 "/music" world0
  = Some (None,
          World None 0
                [LogLine LWarn "Scanner: Error getting fileInfo" "gone.mp3";
                 LogLine LWarn "Scanner: Error loading dir. Skipping" "/music"]
                [] 1) /\
  option_map (List.map path) (walkDirTree sampleEnv scanFull 5 world0)
  = Some ["/music/Album"; "/music"].
Proof. repeat split; try (vm_compute; reflexivity). right. now left. Qed.


Example walk_fresh :
  option_map (List.map path) (walkDirTree sampleEnv scanFresh 5 world0)
  = Some ["/music/Album"; "/music"].
Proof. vm_compute. reflexivity. Qed.

Example walk_up_to_date :
  walkDirTree sampleEnv scanUpToDate 5 world0 = Some [].
Proof. vm_compute. reflexivity. Qed.

Example walk_album_changed :
  option_map (List.map path) (walkDirTree sampleEnv scanAlbumChanged 5 world0)
  = Some ["/music/Album"].
Proof. vm_compute. reflexivity. Qed.

Example walk_full :
  option_map (List.map path) (walkDirTree sampleEnv scanFull 5 world0)
  = Some ["/music/Album"; "/music"].
Proof. vm_compute. reflexivity. Qed.

End Scanner2Facts.

(** * Properties of the archiver *)

Module ArchiverFacts.
Import Archiver.

(** ** File names *)

Lemma wrapInt_small (z : Z) : - 2 ^ 63 <= z < 2 ^ 63 -> wrapInt z = z.
Proof. intros H. unfold wrapInt. rewrite Z.mod_small; lia. Qed.

Lemma length_zeros (k : nat) : String.length (zeros k) = k.
Proof. induction k; simpl; congruence. Qed.

Lemma numeralValue_zeros (k : nat) (s : string) (d : uint) :
  NilEmpty.uint_of_string s = Some d ->
  numeralValue (zeros k ++ s) = Some (N.of_uint d).
Proof.
  intros Hs. unfold numeralValue.
  assert (H : exists d', NilEmpty.uint_of_string (zeros k ++ s) = Some d' /\
                         N.of_uint d' = N.of_uint d).
  { induction k as [|k (d' & Hd' & Heq)]; simpl zeros.
    - exists d. now split.
    - rewrite append_String. exists (D0 d'). simpl. rewrite Hd'. now split. }
  destruct H as (d' & -> & <-). reflexivity.
Qed.

Lemma numeralValue_zeroPad (width : nat) (n : N) :
  numeralValue (zeroPad width (decimal n)) = Some n.
Proof.
  unfold zeroPad, decimal.
  rewrite (numeralValue_zeros _ _ (N.to_uint n)) by apply NilEmpty.usu.
  now rewrite DecimalN.Unsigned.of_to.
Qed.

Lemma length_zeroPad (width : nat) (s : string) :
  String.length (zeroPad width s) = Nat.max width (String.length s).
Proof. unfold zeroPad. rewrite length_append, length_zeros. lia. Qed.

(** A numeral of at most one digit denotes a number below ten. *)
Lemma decimal_short (n : N) : (String.length (decimal n) <= 1)%nat -> (n < 10)%N.
Proof.
  unfold decimal. rewrite <- (DecimalN.Unsigned.of_to n) at 2.
  destruct (N.to_uint n) as [|d|d|d|d|d|d|d|d|d|d]; simpl;
    try (intros _; reflexivity);
    destruct d; simpl; intros H; try lia; reflexivity.
Qed.

(** A numeral of at most two digits denotes a number below a hundred,
    and the other way round. *)
Lemma decimal_length_below_100 (n : N) :
  (n < 100)%N -> (String.length (decimal n) <= 2)%nat.
Proof.
  intros H. rewrite <- (N2Nat.id n).
  assert (Hk : (N.to_nat n < 100)%nat) by lia.
  generalize dependent (N.to_nat n). clear. intros k Hk.
  do 100 (destruct k as [|k]; [vm_compute; lia|]). lia.
Qed.

(** The numeral of a number does not begin with a zero, unless it is
    the numeral of zero. *)
Lemma decimal_no_leading_zero (n : N) :
  n <> 0%N -> String.get 0 (decimal n) <> Some "0"%char.
Proof.
  intros Hn. unfold decimal.
  pose proof (DecimalN.Unsigned.to_of (N.to_uint n)) as Hnorm.
  rewrite DecimalN.Unsigned.of_to in Hnorm.
  destruct (N.to_uint n) as [|d|d|d|d|d|d|d|d|d|d] eqn:Hd; simpl;
    try discriminate.
  exfalso. rewrite unorm_D0 in Hnorm. unfold unorm in Hnorm.
  destruct (nzhead d) eqn:Hz; try (symmetry in Hnorm; revert Hnorm; rewrite <- Hz;
                                    apply nzhead_nonzero).
  injection Hnorm as ->. apply Hn.
  rewrite <- (DecimalN.Unsigned.of_to n), Hd. reflexivity.
Qed.

(** C10.  For an index that counts from zero, the name is
    "NN - Artist - Title.ext": NN is a numeral of idx + 1 of two
    characters at least, so with a zero in front when idx + 1 is below
    ten and with no zero in front from a hundred on, and ext is the
    suffix of the file when the format is raw, and the format
    otherwise. *)
Theorem playlistFilename_form (mf : MediaFile) (format : string) (idx : Z) :
  0 <= idx < 2 ^ 63 - 1 ->
  exists NN,
    playlistFilename mf format idx
    = NN ++ " - " ++ Artist mf ++ " - " ++ Title mf ++ "."
      ++ (if String.eqb format "raw" then Suffix mf else format) /\
    numeralValue NN = Some (Z.to_N (idx + 1)) /\
    (2 <= String.length NN)%nat /\
    (idx + 1 < 100 -> String.length NN = 2%nat) /\
    (100 <= idx + 1 -> String.get 0 NN <> Some "0"%char).
Proof.
  intros Hidx. exists (zeroPad 2 (decimal (Z.to_N (idx + 1)))).
  assert (Hfmt : fmt_02d (wrapInt (idx + 1))
                 = zeroPad 2 (decimal (Z.to_N (idx + 1)))).
  { rewrite wrapInt_small by lia. unfold fmt_02d.
    destruct (Z.ltb_spec (idx + 1) 0); [lia | reflexivity]. }
  split; [|split; [|split; [|split]]].
  - unfold playlistFilename. rewrite Hfmt.
    now destruct (String.eqb format "raw").
  - apply numeralValue_zeroPad.
  - rewrite length_zeroPad. lia.
  - intros Hsmall. rewrite length_zeroPad.
    pose proof (decimal_length_below_100 (Z.to_N (idx + 1))). lia.
  - intros Hbig. unfold zeroPad.
    destruct (Nat.le_gt_cases (String.length (decimal (Z.to_N (idx + 1)))) 1)
      as [Hshort|Hlong].
    + apply decimal_short in Hshort. lia.
    + replace (2 - String.length (decimal (Z.to_N (idx + 1))))%nat with O by lia.
      apply decimal_no_leading_zero. lia.
Qed.

(** The seventh track of a playlist transcoded to mp3. *)
Lemma playlistFilename_form_witness :
  exists NN,
    playlistFilename (sampleTrack 1 "/music/Album/01.flac") "mp3" 6
    = NN ++ " - " ++ Artist (sampleTrack 1 "/music/Album/01.flac") ++ " - "
      ++ Title (sampleTrack 1 "/music/Album/01.flac") ++ "."
      ++ (if String.eqb "mp3" "raw"
          then Suffix (sampleTrack 1 "/music/Album/01.flac") else "mp3") /\
    numeralValue NN = Some (Z.to_N (6 + 1)) /\
    (2 <= String.length NN)%nat /\
    (6 + 1 < 100 -> String.length NN = 2%nat) /\
    (100 <= 6 + 1 -> String.get 0 NN <> Some "0"%char).
Proof.
  apply (playlistFilename_form (sampleTrack 1 "/music/Album/01.flac") "mp3" 6).
  lia.
Defined.

Example playlistFilename_transcoded :
  playlistFilename (sampleTrack 1 "/music/Album/01.flac") "mp3" 6
  = "07 - Artist - Title.mp3".
Proof. reflexivity. Qed.

Example playlistFilename_raw :
  playlistFilename (sampleTrack 1 "/music/Album/01.flac") "raw" 122
  = "123 - Artist - Title.flac".
Proof. reflexivity. Qed.

(** ** Errors of the zip calls *)

Section ZipFacts.

Variable E : services.
Variable format : string.
Variable bitrate : Z.

(** The log has no part in what [addFileToZip] does to the writer. *)
Lemma addFileToZip_writer (z : zipWriter E) (lg : list logLine) (mf : MediaFile)
    (filename : string) :
  fst (fst (addFileToZip E (z, lg) mf format bitrate filename))
  = writerAfter E format bitrate z (mf, filename).
Proof.
  unfold writerAfter, addFileToZip. simpl.
  destruct (CreateHeader E z _) as [z1 [e|]]; [reflexivity|].
  destruct (if negb (String.eqb format "raw")
            then DoStream E mf format bitrate else os_Open E (Path mf))
    as [r|e]; [|reflexivity].
  destruct (io_Copy E z1 r) as [z2 [e|]]; reflexivity.
Qed.

Lemma zipAlbum_files_writer (isMultDisc : bool) (album : list MediaFile) :
  forall st : state E,
    fst (zipAlbum_files E st album format bitrate isMultDisc)
    = fold_left (writerAfter E format bitrate)
        (List.map (fun mf => (mf, albumFilename E mf format isMultDisc)) album)
        (fst st).
Proof.
  induction album as [|mf rest IH]; intros [z lg]; [reflexivity|].
  cbn [zipAlbum_files List.map fold_left].
  destruct (addFileToZip E (z, lg) mf format bitrate
              (albumFilename E mf format isMultDisc)) as [st1 r] eqn:Hadd.
  rewrite IH. f_equal.
  now rewrite <- (addFileToZip_writer z lg), Hadd.
Qed.

Lemma zipAlbums_albums_writer (albums : list (string * list MediaFile)) :
  Forall (fun g => snd g <> []) albums ->
  forall st : state E,
  exists st',
    zipAlbums_albums E st albums format bitrate = Some st' /\
    fst st' = fold_left (writerAfter E format bitrate)
                (List.concat (List.map (fun g => albumEntries E format (snd g))
                                       albums))
                (fst st).
Proof.
  induction 1 as [|[k album] rest Hne _ IH]; intros [z lg];
    cbn [zipAlbums_albums List.map List.concat snd].
  - now eexists.
  - destruct album as [|first album]; [now elim Hne|].
    destruct (IH (zipAlbum_files E
                    (z, (lg ++ [LogLine LDebug "Zipping album" (Album first)])%list)
                    (first :: album) format bitrate
                    (1 <? List.length (slice_Group E Z DiscNumber (first :: album)))%nat))
      as (st' & Hrun & Hw).
    exists st'. split; [exact Hrun|].
    rewrite Hw, zipAlbum_files_writer, List.fold_left_app. reflexivity.
Qed.

Lemma zipPlaylist_files_writer (mfs : list MediaFile) :
  forall (st : state E) (idx : Z),
    fst (zipPlaylist_files E st mfs idx format bitrate)
    = fold_left (writerAfter E format bitrate)
        (playlistEntries format mfs idx) (fst st).
Proof.
  induction mfs as [|mf rest IH]; intros [z lg] idx; [reflexivity|].
  cbn [zipPlaylist_files playlistEntries fold_left].
  destruct (addFileToZip E (z, lg) mf format bitrate
              (playlistFilename mf format idx)) as [st1 r] eqn:Hadd.
  rewrite IH. f_equal.
  now rewrite <- (addFileToZip_writer z lg), Hadd.
Qed.

Lemma closeZip_error (st : state E) (id : string) :
  snd (closeZip E st id) = snd (zip_Close E (fst st)).
Proof.
  destruct st as [z lg]. unfold closeZip. simpl.
  now destruct (zip_Close E z) as [z1 [e|]].
Qed.

(** Every file of the playlist is among those added, in its place. *)
Lemma playlistEntries_files (mfs : list MediaFile) :
  forall idx, List.map fst (playlistEntries format mfs idx) = mfs.
Proof.
  induction mfs as [|mf rest IH]; intros idx; simpl; [|rewrite IH]; reflexivity.
Qed.

(** Every file of every album is among those added. *)
Lemma allAlbumEntries_files (mfs : list MediaFile) :
  List.map fst (allAlbumEntries E format mfs)
  = List.concat (List.map snd (slice_Group E string AlbumID mfs)).
Proof.
  unfold allAlbumEntries. induction (slice_Group E string AlbumID mfs)
    as [|[k album] rest IH]; simpl; [reflexivity|].
  rewrite List.map_app, IH. f_equal.
  unfold albumEntries. rewrite List.map_map. simpl. apply List.map_id.
Qed.

Lemma zipAlbums_error (lg : list logLine) (id : string) (mfs : list MediaFile) :
  groupsNonEmpty E ->
  exists st,
    zipAlbums E lg id format bitrate mfs
    = Some (st, snd (zip_Close E (writerAfterAll E format bitrate
                                     (allAlbumEntries E format mfs)))).
Proof.
  intros Hgroups. unfold zipAlbums.
  destruct (zipAlbums_albums_writer (slice_Group E string AlbumID mfs)
              (Hgroups string AlbumID mfs) (zip_NewWriter E, lg))
    as (st' & -> & Hw).
  exists (fst (closeZip E st' id)).
  unfold writerAfterAll, allAlbumEntries. simpl in Hw. rewrite <- Hw.
  rewrite <- closeZip_error with (id := id).
  now destruct (closeZip E st' id).
Qed.

(** C9.  [ZipAlbum], [ZipArtist] and [ZipPlaylist] return: the error of
    the store query when it fails, and otherwise the error of the final
    [Close] of the zip writer, after [addFileToZip] has been called on
    every file in turn whatever the calls before returned.  What
    [addFileToZip] returns has no part in the result. *)
Theorem Zip_error_is_query_or_Close_error (lg : list logLine) (id : string) :
  groupsNonEmpty E ->
  (exists st r,
     ZipAlbum E lg id format bitrate = Some (st, r) /\
     match MediaFile_GetAll E (Build_QueryOptions "album_id" id "album") with
     | Err e => r = Some e
     | Ok mfs => r = snd (zip_Close E (writerAfterAll E format bitrate
                                         (allAlbumEntries E format mfs)))
     end) /\
  (exists st r,
     ZipArtist E lg id format bitrate = Some (st, r) /\
     match MediaFile_GetAll E (Build_QueryOptions "album_artist_id" id "album") with
     | Err e => r = Some e
     | Ok mfs => r = snd (zip_Close E (writerAfterAll E format bitrate
                                         (allAlbumEntries E format mfs)))
     end) /\
  (exists st r,
     ZipPlaylist E lg id format bitrate = Some (st, r) /\
     match Playlist_GetWithTracks E id true with
     | Err e => r = Some e
     | Ok pls => r = snd (zip_Close E (writerAfterAll E format bitrate
                                         (playlistEntries format (MediaFiles E pls) 0)))
     end).
Proof.
  intros Hgroups. repeat split.
  - unfold ZipAlbum.
    destruct (MediaFile_GetAll E _) as [mfs|e].
    + destruct (zipAlbums_error lg id mfs Hgroups) as [st ->]. now do 2 eexists.
    + unfold failed. now do 2 eexists.
  - unfold ZipArtist.
    destruct (MediaFile_GetAll E _) as [mfs|e].
    + destruct (zipAlbums_error lg id mfs Hgroups) as [st ->]. now do 2 eexists.
    + unfold failed. now do 2 eexists.
  - unfold ZipPlaylist.
    destruct (Playlist_GetWithTracks E id true) as [pls|e].
    + unfold zipPlaylist. do 2 eexists. split.
      * apply f_equal. apply surjective_pairing.
      * rewrite closeZip_error, zipPlaylist_files_writer. reflexivity.
    + unfold failed. now do 2 eexists.
Qed.

End ZipFacts.

Lemma sampleServices_groupsNonEmpty : groupsNonEmpty sampleServices.
Proof.
  intros K key [|mf l]; simpl; repeat constructor. discriminate.
Qed.

(** The three calls on the sample archive. *)
Lemma Zip_error_is_query_or_Close_error_witness :
  (exists st r,
     ZipAlbum sampleServices [] "a1" "raw" 0 = Some (st, r) /\
     match MediaFile_GetAll sampleServices (Build_QueryOptions "album_id" "a1" "album") with
     | Err e => r = Some e
     | Ok mfs => r = snd (zip_Close sampleServices
                            (writerAfterAll sampleServices "raw" 0
                               (allAlbumEntries sampleServices "raw" mfs)))
     end) /\
  (exists st r,
     ZipArtist sampleServices [] "a1" "raw" 0 = Some (st, r) /\
     match MediaFile_GetAll sampleServices
             (Build_QueryOptions "album_artist_id" "a1" "album") with
     | Err e => r = Some e
     | Ok mfs => r = snd (zip_Close sampleServices
                            (writerAfterAll sampleServices "raw" 0
                               (allAlbumEntries sampleServices "raw" mfs)))
     end) /\
  (exists st r,
     ZipPlaylist sampleServices [] "a1" "raw" 0 = Some (st, r) /\
     match Playlist_GetWithTracks sampleServices "a1" true with
     | Err e => r = Some e
     | Ok pls => r = snd (zip_Close sampleServices
                            (writerAfterAll sampleServices "raw" 0
                               (playlistEntries "raw" (MediaFiles sampleServices pls) 0)))
     end).
Proof.
  apply (Zip_error_is_query_or_Close_error sampleServices "raw" 0 [] "a1").
  exact sampleServices_groupsNonEmpty.
Defined.

(** The second track cannot be opened: its entry has been created, the
    error is dropped, the third track is added and the call returns
    nil. *)
Example ZipPlaylist_goes_on_after_failure :
  ZipPlaylist sampleServices [] "p1" "raw" 0
  = Some ((["01 - Artist - Title.flac"; "02 - Artist - Title.flac";
            "03 - Artist - Title.flac"],
           [LogLine LDebug "Zipping playlist" "Favourites";
            LogLine LError "Error opening file for zipping" "gone"]), None).
Proof. reflexivity. Qed.

Example ZipAlbum_goes_on_after_failure :
  ZipAlbum sampleServices [] "a1" "raw" 0
  = Some ((["Album/01.flac"; "Album/gone"; "Album/03.flac"],
           [LogLine LDebug "Zipping album" "Album";
            LogLine LError "Error opening file for zipping" "gone"]), None).
Proof. reflexivity. Qed.

Example ZipAlbum_query_failure :
  ZipAlbum sampleServices [] "missing" "raw" 0
  = Some (([], [LogLine LError "Error loading mediafiles from album" "missing"]),
          Some "sql: no rows").
Proof. reflexivity. Qed.

End ArchiverFacts.

(** * Further properties of the scanner *)

Module Scanner2More.
Import Scanner2 Scanner2Facts.

Section Walks.

Variable E : env.
Variable scanCtx : scanContext.

(** What identifies the folder that [loadDir] returns. *)
Lemma loadDir_identity (fuel : nat) (dirPath : string) (w : world)
    (f : folderEntry) (children : list string) (w1 : world) :
  loadDir E scanCtx fuel dirPath w = Some ((Some f, children, None), w1) ->
  id f = FolderID E (lib scanCtx) dirPath /\
  updTime f = getLastUpdatedInDB scanCtx (id f) /\
  path f = dirPath.
Proof.
  intros H. apply loadDir_cases in H.
  destruct H as [(e & _ & [=] & _)|[(di & e & f0 & _ & _ & [=] & _)|
                 (di & dir & entries & w0 & _ & _ & _ & _ & Hrange)]].
  destruct (loadDir_range_run E dirPath entries
              (set_modTime (newFolderEntry E scanCtx dirPath) (ModTime di)) [] w0)
    as (f' & ch' & err & w' & Hrun & _ & _ & Hid & Hupd & Hpath & _).
  rewrite Hrun in Hrange. injection Hrange as Hf Hc He Hw. subst f'.
  simpl in Hid, Hupd, Hpath. rewrite Hid, Hupd, Hpath. repeat split.
Qed.

(** X1.  [walkFolder] never returns an error, whatever fails below it:
    a directory that does not load, an entry whose [Info] fails, a
    cancelled context.  The early return of its loop over the children
    is never taken. *)
Theorem walkFolder_never_returns_error (fuel : nat) (currentFolder : string)
    (w : world) :
  match walkFolder E scanCtx fuel currentFolder w with
  | Some (Some e, _) => False
  | _ => True
  end.
Proof.
  destruct (walkFolder E scanCtx fuel currentFolder w) as [[[e|] w']|] eqn:H;
    trivial.
  apply walkFolder_no_error in H. discriminate.
Qed.

(** What a walk started below [root] sends. *)
Lemma walkFolder_sends_from (root : string) (fuel : nat) :
  forall (p : string) (w : world) (err : option error) (w' : world),
  inLibrary E root p ->
  walkFolder E scanCtx fuel p w = Some (err, w') ->
  exists sent,
    results w' = (results w ++ sent)%list /\
    Forall (sentByWalk E scanCtx root) sent.
Proof.
  induction fuel as [|fuel IH]; intros p w err w' Hp H; [discriminate|].
  assert (Hch : forall children v e v',
    (forall c, In c children -> inLibrary E root c) ->
    forChildren (walkFolder E scanCtx fuel) children v = Some (e, v') ->
    exists sent, results v' = (results v ++ sent)%list /\
                 Forall (sentByWalk E scanCtx root) sent).
  { induction children as [|c rest IHc]; intros v e v' Hin.
    - intros [= _ <-]. exists []. split; [now rewrite List.app_nil_r | constructor].
    - rewrite forChildren_cons. intros Hk. apply bind_Some in Hk.
      destruct Hk as (e1 & v1 & Hc & Hk).
      destruct (IH _ _ _ _ (Hin c (or_introl eq_refl)) Hc) as (s1 & Hs1 & Hf1).
      destruct e1 as [e1|].
      + injection Hk as _ <-. now exists s1.
      + destruct (IHc _ _ _ (fun c' Hc' => Hin c' (or_intror Hc')) Hk)
          as (s2 & Hs2 & Hf2).
        exists (s1 ++ s2)%list.
        split; [now rewrite Hs2, Hs1, List.app_assoc|].
        apply Forall_app. now split. }
  pose proof H as H'. rewrite walkFolder_S in H'. apply bind_Some in H'.
  destruct H' as ([[folder children] [e|]] & w1 & Hload & Hk).
  - rewrite (walkFolder_load_error _ _ _ _ _ _ _ _ _ Hload) in H.
    injection H as _ <-. simpl. apply loadDir_quiet in Hload.
    destruct Hload as [-> _]. exists [].
    split; [now rewrite List.app_nil_r | constructor].
  - apply bind_Some in Hk. destruct Hk as ([] & w2 & Hadd & Hk).
    injection Hadd as <-. fold (afterCount w1) in Hk.
    apply bind_Some in Hk. destruct Hk as (err' & w3 & Hwalk & Hk).
    destruct folder as [folder|];
      [|assert (err' = None) as ->
          by (eapply forChildren_no_error; [apply walkFolder_no_error | exact Hwalk]);
        discriminate].
    destruct (walkFolder_loaded _ _ _ _ _ _ _ _ _ _ Hload Hwalk)
      as (w4 & Hrun & Hrs & _).
    rewrite Hrun in H. injection H as _ <-.
    destruct (loadDir_children_read _ _ _ _ _ _ _ _ Hload)
      as (dir & entries & w0 & Ho & _ & _ & Hread).
    assert (Hin : forall c, In c children -> inLibrary E root c).
    { intros c Hc. destruct (Hread c Hc) as (i & e & Hi & Hw & ->).
      exact (inLibrary_child E root p dir i e Hp Ho Hi Hw). }
    destruct (Hch _ _ _ _ Hin Hwalk) as (sent & Hsent & Hall).
    destruct (loadDir_identity _ _ _ _ _ _ Hload) as (Hid & Hupd & _).
    apply loadDir_quiet in Hload. destruct Hload as [Hq _].
    simpl in Hsent. rewrite Hq in Hsent.
    exists (sent ++ ownEmission E scanCtx p folder)%list.
    split; [now rewrite Hrs, Hsent, <- List.app_assoc|].
    apply Forall_app. split; [exact Hall|]. unfold ownEmission.
    destruct (isOutdated folder || fullRescan scanCtx) eqn:Hcond; constructor;
      [|constructor].
    split.
    + apply orb_true_iff in Hcond. exact Hcond.
    + exists p. simpl. repeat split; trivial.
Qed.

(** X2.  A walk only adds to what has been sent, and every folder it
    adds is outdated or part of a full rescan, has the cleaned path of a
    directory that the walk can come to, the folder walked or, in
    turn, a readable directory read below it that is not ignored, and
    has the id and the recorded time of that directory. *)
Theorem walkFolder_sends_well_formed_folders (fuel : nat)
    (currentFolder : string) (w : world) (err : option error) (w' : world) :
  walkFolder E scanCtx fuel currentFolder w = Some (err, w') ->
  exists sent,
    results w' = (results w ++ sent)%list /\
    Forall (sentByWalk E scanCtx currentFolder) sent.
Proof.
  apply walkFolder_sends_from. constructor.
Qed.

(** X3.  A walk never sends more folders than it counts. *)
Theorem walkFolder_sends_at_most_counted (fuel : nat) :
  forall (currentFolder : string) (w : world) (err : option error) (w' : world),
  walkFolder E scanCtx fuel currentFolder w = Some (err, w') ->
  Z.of_nat (List.length (results w')) - Z.of_nat (List.length (results w))
  <= numFolders w' - numFolders w.
Proof.
  induction fuel as [|fuel IH]; intros p w err w' H; [discriminate|].
  assert (Hch : forall children v e v',
    forChildren (walkFolder E scanCtx fuel) children v = Some (e, v') ->
    Z.of_nat (List.length (results v')) - Z.of_nat (List.length (results v))
    <= numFolders v' - numFolders v).
  { induction children as [|c rest IHc]; intros v e v'.
    - intros [= _ <-]. lia.
    - rewrite forChildren_cons. intros Hk. apply bind_Some in Hk.
      destruct Hk as (e1 & v1 & Hc & Hk). apply IH in Hc. destruct e1 as [e1|].
      + injection Hk as _ <-. exact Hc.
      + apply IHc in Hk. lia. }
  pose proof H as H'. rewrite walkFolder_S in H'. apply bind_Some in H'.
  destruct H' as ([[folder children] [e|]] & w1 & Hload & Hk).
  - rewrite (walkFolder_load_error _ _ _ _ _ _ _ _ _ Hload) in H.
    injection H as _ <-. simpl. apply loadDir_quiet in Hload.
    destruct Hload as [-> ->]. lia.
  - apply bind_Some in Hk. destruct Hk as ([] & w2 & Hadd & Hk).
    injection Hadd as <-. fold (afterCount w1) in Hk.
    apply bind_Some in Hk. destruct Hk as (err' & w3 & Hwalk & Hk).
    destruct folder as [folder|];
      [|assert (err' = None) as ->
          by (eapply forChildren_no_error; [apply walkFolder_no_error | exact Hwalk]);
        discriminate].
    destruct (walkFolder_loaded _ _ _ _ _ _ _ _ _ _ Hload Hwalk)
      as (w4 & Hrun & Hrs & Hnf & _).
    rewrite Hrun in H. injection H as _ <-.
    apply Hch in Hwalk. apply loadDir_quiet in Hload. destruct Hload as [Hq Hn].
    simpl in Hwalk. rewrite Hq, Hn in Hwalk.
    rewrite Hrs, Hnf, List.length_app. unfold ownEmission.
    destruct (isOutdated folder || fullRescan scanCtx); simpl; lia.
Qed.

(** X4.  In a full rescan a walk sends as many folders as it counts:
    every directory that loads is sent. *)
Theorem walkFolder_full_rescan_sends_all_counted (fuel : nat)
    (currentFolder : string) (w : world) (err : option error) (w' : world) :
  fullRescan scanCtx = true ->
  walkFolder E scanCtx fuel currentFolder w = Some (err, w') ->
  Z.of_nat (List.length (results w')) - Z.of_nat (List.length (results w))
  = numFolders w' - numFolders w.
Proof.
  intros Hfull. now apply walkFolder_full_rescan_sends_every_folder.
Qed.

(** X5.  The walk returns, with nil, on every snapshot in which each
    directory that opens reads to an end within [bound] calls and the
    directories to walk nest to a finite depth [rank], given fuel above
    rank plus bound. *)
Theorem walkFolder_returns_on_finite_trees (rank : string -> nat) (bound : nat)
    (fuel : nat) (currentFolder : string) (w : world) :
  (forall p dir, os_Open E p = Ok dir ->
     exists k, (k < bound)%nat /\ errAt dir k = None) ->
  (forall p dir i e, os_Open E p = Ok dir -> In e (fst (ReadDirAt dir i)) ->
     walkable E p e = true -> (rank (childPath E p e) < rank p)%nat) ->
  (rank currentFolder + bound < fuel)%nat ->
  exists w', walkFolder E scanCtx fuel currentFolder w = Some (None, w').
Proof.
  intros Hread Hrank Hfuel. now apply (walkFolder_terminates E scanCtx rank bound).
Qed.

(** X6.  A directory that cannot be stat'ed or opened is skipped: the
    failure is logged, [walkFolder] returns nil, no [ReadDir] call is
    made, and the directory is neither counted nor sent. *)
Theorem walkFolder_skips_unreadable_directory (fuel : nat)
    (currentFolder : string) (w : world) :
  (exists e, os_Stat E currentFolder = Err e) \/
  (exists e, os_Open E currentFolder = Err e) ->
  exists lines,
    walkFolder E scanCtx (S fuel) currentFolder w
    = Some (None,
            World (ctxLeft w) (numFolders w)
                  (logs w ++ lines ++
                   [LogLine LWarn "Scanner: Error loading dir. Skipping"
                            currentFolder])
                  (results w) (readDirCalls w)).
Proof.
  intros Hfail.
  assert (Hload : exists fo e line,
    loadDir E scanCtx fuel currentFolder w
    = Some ((fo, [], Some e),
            World (ctxLeft w) (numFolders w) (logs w ++ [line]) (results w)
                  (readDirCalls w))).
  { unfold loadDir. destruct (os_Stat E currentFolder) as [di|e].
    - destruct Hfail as [[e [=]]|[e He]]. rewrite He. munfold.
      do 3 eexists; reflexivity.
    - munfold. do 3 eexists; reflexivity. }
  destruct Hload as (fo & e & line & Hload).
  rewrite (walkFolder_load_error _ _ _ _ _ _ _ _ _ Hload). simpl.
  exists [line]. now rewrite <- List.app_assoc.
Qed.

(** X7.  On a context that is cancelled already, a directory that
    opens is still loaded, with nothing read: no [ReadDir] call is made
    and no child is walked, but the directory is counted, and it is sent
    with empty file lists and the time of the directory itself when that
    makes it outdated or the scan is a full rescan. *)
Theorem walkFolder_on_cancelled_context (fuel : nat) (currentFolder : string)
    (w : world) (dirInfo : fileInfo) (dir : dirFile) :
  ctxLeft w = Some O ->
  os_Stat E currentFolder = Ok dirInfo ->
  os_Open E currentFolder = Ok dir ->
  exists w',
    walkFolder E scanCtx (S (S fuel)) currentFolder w = Some (None, w') /\
    readDirCalls w' = readDirCalls w /\
    numFolders w' = numFolders w + 1 /\
    results w'
    = (results w ++
       ownEmission E scanCtx currentFolder
         (set_modTime (newFolderEntry E scanCtx currentFolder) (ModTime dirInfo)))%list.
Proof.
  intros Hc Hs Ho.
  assert (Hload : loadDir E scanCtx (S fuel) currentFolder w
                  = Some ((Some (set_modTime (newFolderEntry E scanCtx currentFolder)
                                             (ModTime dirInfo)), [], None), w)).
  { unfold loadDir. rewrite Hs, Ho. unfold bind, fullReadDir.
    now rewrite fullReadDir_loop_cancelled. }
  destruct (walkFolder_loaded E scanCtx _ _ _ _ _ _ None (afterCount w)
              Hload eq_refl) as (w' & Hrun & Hrs & Hnf & _).
  exists w'. split; [exact Hrun|]. split; [|split; [exact Hnf | exact Hrs]].
  rewrite walkFolder_S in Hrun. unfold bind in Hrun. rewrite Hload in Hrun.
  simpl in Hrun.
  destruct (negb (isOutdated _) && negb (fullRescan scanCtx)) in Hrun;
    munfold; now injection Hrun as <-.
Qed.

(** X14.  When the context is cancelled while the entries read are
    being examined, [loadDir] returns the error of the context at the
    next entry and [walkFolder] skips the directory: it is neither
    counted nor sent, the children collected so far are not walked, and
    nil is returned. *)
Theorem walkFolder_cancelled_among_entries (fuel : nat) (currentFolder : string)
    (w : world) (dirInfo : fileInfo) (dir : dirFile)
    (pre : list dirEntry) (entry : dirEntry) (rest : list dirEntry)
    (w1 : world) (f1 : folderEntry) (ch1 : list string) (w2 : world) :
  os_Stat E currentFolder = Ok dirInfo ->
  os_Open E currentFolder = Ok dir ->
  fullReadDir fuel dir w = Some ((pre ++ entry :: rest)%list, w1) ->
  loadDir_range E currentFolder pre
    (set_modTime (newFolderEntry E scanCtx currentFolder) (ModTime dirInfo)) [] w1
    = Some ((Some f1, ch1, None), w2) ->
  ctxLeft w2 = Some O ->
  walkFolder E scanCtx (S fuel) currentFolder w
  = Some (None,
          World (Some O) (numFolders w) (logs w2 ++
                 [LogLine LWarn "Scanner: Error loading dir. Skipping"
                          currentFolder])
                (results w) (readDirCalls w2)).
Proof.
  intros Hs Ho Hread Hpre Hc.
  assert (Hload : loadDir E scanCtx fuel currentFolder w
                  = Some ((Some f1, ch1, Some Canceled), w2)).
  { unfold loadDir. rewrite Hs, Ho. unfold bind. rewrite Hread.
    rewrite (loadDir_range_app _ _ _ _ _ _ _ _ _ _ Hpre).
    now apply loadDir_range_cancelled. }
  rewrite (walkFolder_load_error _ _ _ _ _ _ _ _ _ Hload).
  apply loadDir_quiet in Hload. destruct Hload as [Hq Hn].
  now rewrite Hc, Hq, Hn.
Qed.

End Walks.

(** ** What the loader stores *)

Lemma storeByName_keeps (entries : list dirEntry) :
  forall (m : gmap string dirEntry) (name : string),
    is_Some (m !! name) -> is_Some (storeByName m entries !! name).
Proof.
  unfold storeByName. induction entries as [|x l IH]; intros m name Hm; [exact Hm|].
  simpl. apply IH. destruct (decide (Name x = name)) as [<-|Hne].
  - rewrite lookup_insert_eq. now eexists.
  - now rewrite lookup_insert_ne.
Qed.

Lemma storeByName_lookup (entries : list dirEntry) :
  forall (m : gmap string dirEntry) (name : string) (e : dirEntry),
    storeByName m entries !! name = Some e ->
    (In e entries /\ Name e = name) \/ m !! name = Some e.
Proof.
  unfold storeByName. induction entries as [|x l IH]; intros m name e H;
    [now right|].
  simpl in H. apply IH in H. destruct H as [[Hin Hn]|H].
  - left. split; [now right | exact Hn].
  - destruct (decide (Name x = name)) as [Heq|Hne].
    + rewrite <- Heq, lookup_insert_eq in H. injection H as <-.
      left. split; [now left | exact Heq].
    + rewrite lookup_insert_ne in H by exact Hne. now right.
Qed.

Lemma storeByName_stored (entries : list dirEntry) :
  forall (m : gmap string dirEntry) (e : dirEntry),
    In e entries -> is_Some (storeByName m entries !! Name e).
Proof.
  induction entries as [|x l IH]; intros m e Hin; [destruct Hin|].
  destruct Hin as [<-|Hin].
  - apply (storeByName_keeps l). rewrite lookup_insert_eq. now eexists.
  - apply (IH (<[Name x := x]> m)). exact Hin.
Qed.

Section Stores.

Variable E : env.
Variable scanCtx : scanContext.

Lemma bumpModTime_files (f : folderEntry) (fileInfo : fileInfo) :
  audioFiles (bumpModTime f fileInfo) = audioFiles f /\
  imageFiles (bumpModTime f fileInfo) = imageFiles f /\
  playlists (bumpModTime f fileInfo) = playlists f.
Proof.
  unfold bumpModTime. now destruct (After (ModTime fileInfo) (modTime f)).
Qed.

Lemma classify_files (entry : dirEntry) (fileInfo : fileInfo) (f : folderEntry) :
  audioFiles (classify E entry fileInfo f)
    = (if storedAsAudio E entry then <[Name entry := entry]> (audioFiles f)
       else audioFiles f) /\
  imageFiles (classify E entry fileInfo f)
    = (if storedAsImage E entry then <[Name entry := entry]> (imageFiles f)
       else imageFiles f) /\
  playlists (classify E entry fileInfo f)
    = (if storedAsPlaylist E entry then playlists f ++ [entry] else playlists f)%list.
Proof.
  unfold classify, storedAsAudio, storedAsImage, storedAsPlaylist.
  destruct (IsAudioFile E (Name entry)); simpl; auto.
  destruct (IsValidPlaylist E (Name entry)); simpl; auto.
  destruct (IsImageFile E (Name entry)); simpl; auto.
Qed.

(** The files that the [range] loop has stored when it ends without
    error. *)
Lemma loadDir_range_files (dirPath : string) (entries : list dirEntry) :
  forall (folder : folderEntry) (children : list string) (w : world)
         (f' : folderEntry) (ch' : list string) (w' : world),
  loadDir_range E dirPath entries folder children w
    = Some ((Some f', ch', None), w') ->
  audioFiles f'
    = storeByName (audioFiles folder)
        (List.filter (fun e => countedAsFile E dirPath e && storedAsAudio E e)
                     entries) /\
  imageFiles f'
    = storeByName (imageFiles folder)
        (List.filter (fun e => countedAsFile E dirPath e && storedAsImage E e)
                     entries) /\
  playlists f'
    = (playlists folder
       ++ List.filter (fun e => countedAsFile E dirPath e && storedAsPlaylist E e)
                      entries)%list.
Proof.
  induction entries as [|entry rest IH]; intros folder children w f' ch' w' H.
  - simpl in H. injection H as <- _ _. simpl. now rewrite List.app_nil_r.
  - destruct (ctx_alive_or_cancelled w) as [Hc|Hc];
      [rewrite loadDir_range_cancelled in H by exact Hc; discriminate|].
    destruct (isDirOrSymlinkToDir E dirPath entry) as [isDir|e] eqn:Hd.
    + destruct (walkable E dirPath entry) eqn:Hw.
      * destruct (loadDir_range_child E dirPath entry w Hc Hw)
          as (w1 & _ & Heq). rewrite Heq in H. apply IH in H.
        simpl. now rewrite (walkable_not_counted E _ _ Hw).
      * assert (Hf : countedAsFile E dirPath entry = true)
          by (unfold countedAsFile; now rewrite Hd, Hw).
        destruct (Info entry) as [fileInfo|e] eqn:Hi.
        -- destruct (loadDir_range_file E dirPath entry w fileInfo Hc Hf Hi)
             as (w1 & _ & Heq). rewrite Heq in H. apply IH in H.
           destruct H as (Ha & Him & Hp).
           destruct (classify_files entry fileInfo (bumpModTime folder fileInfo))
             as (Ca & Ci & Cp).
           destruct (bumpModTime_files folder fileInfo) as (Ba & Bi & Bp).
           rewrite Ca, Ba in Ha. rewrite Ci, Bi in Him. rewrite Cp, Bp in Hp.
           simpl. rewrite Hf. simpl. rewrite Ha, Him, Hp.
           destruct (storedAsAudio E entry), (storedAsImage E entry),
                    (storedAsPlaylist E entry); simpl;
             rewrite <- ?List.app_assoc; auto.
        -- destruct (loadDir_range_info_error E dirPath entry rest folder
                       children w e Hc Hf Hi) as (lines & Heq).
           rewrite Heq in H. discriminate.
    + destruct (loadDir_range_invalid_symlink E dirPath entry w e Hc Hd)
        as (w1 & _ & Heq). rewrite Heq in H. apply IH in H.
      assert (Hf : countedAsFile E dirPath entry = false)
        by (unfold countedAsFile; now rewrite Hd).
      simpl. now rewrite Hf.
Qed.

(** What [loadDir] has read and stored when it succeeds. *)
Lemma loadDir_stores (fuel : nat) (dirPath : string) (w : world)
    (f : folderEntry) (children : list string) (w' : world) :
  loadDir E scanCtx fuel dirPath w = Some ((Some f, children, None), w') ->
  exists dir entries w1,
    os_Open E dirPath = Ok dir /\
    fullReadDir fuel dir w = Some (entries, w1) /\
    children = List.map (childPath E dirPath)
                 (List.filter (walkable E dirPath) entries) /\
    audioFiles f
      = storeByName ∅
          (List.filter (fun e => countedAsFile E dirPath e && storedAsAudio E e)
                       entries) /\
    imageFiles f
      = storeByName ∅
          (List.filter (fun e => countedAsFile E dirPath e && storedAsImage E e)
                       entries) /\
    playlists f
      = List.filter (fun e => countedAsFile E dirPath e && storedAsPlaylist E e)
                    entries.
Proof.
  intros H. apply loadDir_cases in H.
  destruct H as [(e & _ & [=] & _)|[(di & e & f0 & _ & _ & [=] & _)|
                 (di & dir & entries & w1 & _ & Ho & Hread & _ & Hrange)]].
  exists dir, entries, w1. split; [exact Ho|]. split; [exact Hread|].
  destruct (loadDir_range_files _ _ _ _ _ _ _ _ Hrange) as (Ha & Hi & Hp).
  destruct (loadDir_range_run E dirPath entries
              (set_modTime (newFolderEntry E scanCtx dirPath) (ModTime di)) [] w1)
    as (f' & ch' & err & w2 & Hrun & _ & _ & _ & _ & _ & _ & Hok).
  rewrite Hrun in Hrange. injection Hrange as Hf Hch Herr Hw. subst.
  destruct (Hok eq_refl) as (Hchildren & _).
  repeat split; trivial.
Qed.

(** The content of the two maps of a folder loaded. *)
Lemma loadDir_maps_content (fuel : nat) (dirPath : string) (w : world)
    (f : folderEntry) (children : list string) (w' : world) :
  loadDir E scanCtx fuel dirPath w = Some ((Some f, children, None), w') ->
  exists dir entries w1,
    os_Open E dirPath = Ok dir /\
    fullReadDir fuel dir w = Some (entries, w1) /\
    (forall name e, audioFiles f !! name = Some e ->
       In e entries /\ Name e = name /\
       countedAsFile E dirPath e = true /\ storedAsAudio E e = true) /\
    (forall e, In e entries -> countedAsFile E dirPath e = true ->
       storedAsAudio E e = true -> is_Some (audioFiles f !! Name e)) /\
    (forall name e, imageFiles f !! name = Some e ->
       In e entries /\ Name e = name /\
       countedAsFile E dirPath e = true /\ storedAsImage E e = true) /\
    (forall e, In e entries -> countedAsFile E dirPath e = true ->
       storedAsImage E e = true -> is_Some (imageFiles f !! Name e)).
Proof.
  intros H. destruct (loadDir_stores _ _ _ _ _ _ H)
    as (dir & entries & w1 & Ho & Hread & _ & Ha & Hi & _).
  exists dir, entries, w1. split; [exact Ho|]. split; [exact Hread|].
  rewrite Ha, Hi. repeat split.
  - apply storeByName_lookup in H0. destruct H0 as [[Hin _]|Hm];
      [|rewrite lookup_empty in Hm; discriminate].
    apply List.filter_In in Hin. tauto.
  - apply storeByName_lookup in H0. destruct H0 as [[_ Hn]|Hm];
      [exact Hn | rewrite lookup_empty in Hm; discriminate].
  - apply storeByName_lookup in H0. destruct H0 as [[Hin _]|Hm];
      [|rewrite lookup_empty in Hm; discriminate].
    apply List.filter_In in Hin. destruct Hin as [_ Hb].
    apply andb_true_iff in Hb. tauto.
  - apply storeByName_lookup in H0. destruct H0 as [[Hin _]|Hm];
      [|rewrite lookup_empty in Hm; discriminate].
    apply List.filter_In in Hin. destruct Hin as [_ Hb].
    apply andb_true_iff in Hb. tauto.
  - intros e Hin Hc Hs. apply storeByName_stored. apply List.filter_In.
    split; [exact Hin | now rewrite Hc, Hs].
  - apply storeByName_lookup in H0. destruct H0 as [[Hin _]|Hm];
      [|rewrite lookup_empty in Hm; discriminate].
    apply List.filter_In in Hin. tauto.
  - apply storeByName_lookup in H0. destruct H0 as [[_ Hn]|Hm];
      [exact Hn | rewrite lookup_empty in Hm; discriminate].
  - apply storeByName_lookup in H0. destruct H0 as [[Hin _]|Hm];
      [|rewrite lookup_empty in Hm; discriminate].
    apply List.filter_In in Hin. destruct Hin as [_ Hb].
    apply andb_true_iff in Hb. tauto.
  - apply storeByName_lookup in H0. destruct H0 as [[Hin _]|Hm];
      [|rewrite lookup_empty in Hm; discriminate].
    apply List.filter_In in Hin. destruct Hin as [_ Hb].
    apply andb_true_iff in Hb. tauto.
  - intros e Hin Hc Hs. apply storeByName_stored. apply List.filter_In.
    split; [exact Hin | now rewrite Hc, Hs].
Qed.

(** X8.  When [loadDir] succeeds, [audioFiles] and [imageFiles] hold,
    under their names, exactly the entries read that are treated as
    files and reach the audio and the image case: every key is the name
    of the entry stored under it, and each such entry has its name as a
    key. *)
Theorem loadDir_file_maps (fuel : nat) (dirPath : string) (w : world)
    (f : folderEntry) (children : list string) (w' : world) :
  loadDir E scanCtx fuel dirPath w = Some ((Some f, children, None), w') ->
  exists dir entries w1,
    os_Open E dirPath = Ok dir /\
    fullReadDir fuel dir w = Some (entries, w1) /\
    (forall name e, audioFiles f !! name = Some e ->
       In e entries /\ Name e = name /\
       countedAsFile E dirPath e = true /\ storedAsAudio E e = true) /\
    (forall e, In e entries -> countedAsFile E dirPath e = true ->
       storedAsAudio E e = true -> is_Some (audioFiles f !! Name e)) /\
    (forall name e, imageFiles f !! name = Some e ->
       In e entries /\ Name e = name /\
       countedAsFile E dirPath e = true /\ storedAsImage E e = true) /\
    (forall e, In e entries -> countedAsFile E dirPath e = true ->
       storedAsImage E e = true -> is_Some (imageFiles f !! Name e)).
Proof. apply loadDir_maps_content. Qed.

Lemma fullReadDir_sorted (fuel : nat) (dir : dirFile) (w : world)
    (es : list dirEntry) (w' : world) :
  fullReadDir fuel dir w = Some (es, w') -> Sorted nameLe es.
Proof.
  intros H. apply fullReadDir_loop_inv in H.
  destruct H as (c & _ & _ & _ & [(-> & _)|(c' & _ & -> & _)]);
    [constructor | apply sortByName_sorted].
Qed.

(** X9.  When [loadDir] succeeds, the children to walk and the
    playlists are taken from the listing in its order, which is the
    byte order of the names: the children are the paths of the entries
    that are readable directories and not ignored, the playlists the
    entries treated as files that reach the playlist case. *)
Theorem loadDir_keeps_name_order (fuel : nat) (dirPath : string) (w : world)
    (f : folderEntry) (children : list string) (w' : world) :
  loadDir E scanCtx fuel dirPath w = Some ((Some f, children, None), w') ->
  exists dir entries w1,
    os_Open E dirPath = Ok dir /\
    fullReadDir fuel dir w = Some (entries, w1) /\
    Sorted nameLe entries /\
    children = List.map (childPath E dirPath)
                 (List.filter (walkable E dirPath) entries) /\
    playlists f
      = List.filter (fun e => countedAsFile E dirPath e && storedAsPlaylist E e)
                    entries.
Proof.
  intros H. destruct (loadDir_stores _ _ _ _ _ _ H)
    as (dir & entries & w1 & Ho & Hread & Hch & _ & _ & Hp).
  exists dir, entries, w1. repeat split; trivial.
  eapply fullReadDir_sorted; exact Hread.
Qed.

(** X10.  In a folder loaded no name is a key of both [audioFiles] and
    [imageFiles], and no playlist has its name as a key of either. *)
Theorem loadDir_kinds_disjoint (fuel : nat) (dirPath : string) (w : world)
    (f : folderEntry) (children : list string) (w' : world) :
  loadDir E scanCtx fuel dirPath w = Some ((Some f, children, None), w') ->
  (forall name, is_Some (audioFiles f !! name) -> imageFiles f !! name = None) /\
  (forall e, In e (playlists f) ->
     audioFiles f !! Name e = None /\ imageFiles f !! Name e = None).
Proof.
  intros H.
  destruct (loadDir_maps_content _ _ _ _ _ _ H)
    as (dir & entries & w1 & _ & Hread & Ha & _ & Hi & _).
  destruct (loadDir_stores _ _ _ _ _ _ H)
    as (dir' & entries' & w1' & _ & _ & _ & _ & _ & Hp).
  split.
  - intros name [e He]. destruct (imageFiles f !! name) as [e'|] eqn:Hi'; trivial.
    destruct (Ha _ _ He) as (_ & Hn & _ & Hsa).
    destruct (Hi _ _ Hi') as (_ & Hn' & _ & Hsi).
    unfold storedAsAudio in Hsa. unfold storedAsImage in Hsi.
    rewrite Hn in Hsa. rewrite Hn', Hsa in Hsi. discriminate.
  - intros e He. rewrite Hp in He. apply List.filter_In in He.
    destruct He as [_ Hb]. apply andb_true_iff in Hb. destruct Hb as [_ Hsp].
    unfold storedAsPlaylist in Hsp. apply andb_true_iff in Hsp.
    destruct Hsp as [Hna Hpl]. apply negb_true_iff in Hna. split.
    + destruct (audioFiles f !! Name e) as [e'|] eqn:Ha'; trivial.
      destruct (Ha _ _ Ha') as (_ & Hn & _ & Hsa).
      unfold storedAsAudio in Hsa. rewrite Hn, Hna in Hsa. discriminate.
    + destruct (imageFiles f !! Name e) as [e'|] eqn:Hi'; trivial.
      destruct (Hi _ _ Hi') as (_ & Hn & _ & Hsi).
      unfold storedAsImage in Hsi. rewrite Hn, Hna, Hpl in Hsi. discriminate.
Qed.

End Stores.

(** The loader on /music/Album: one audio file, one image. *)
Lemma loadDir_file_maps_witness :
  exists dir entries w1,
    os_Open sampleEnv "/music/Album" = Ok dir /\
    fullReadDir 3 dir world0 = Some (entries, w1) /\
    (forall name e, audioFiles (sampleAlbumFolder 0) !! name = Some e ->
       In e entries /\ Name e = name /\
       countedAsFile sampleEnv "/music/Album" e = true /\
       storedAsAudio sampleEnv e = true) /\
    (forall e, In e entries -> countedAsFile sampleEnv "/music/Album" e = true ->
       storedAsAudio sampleEnv e = true ->
       is_Some (audioFiles (sampleAlbumFolder 0) !! Name e)) /\
    (forall name e, imageFiles (sampleAlbumFolder 0) !! name = Some e ->
       In e entries /\ Name e = name /\
       countedAsFile sampleEnv "/music/Album" e = true /\
       storedAsImage sampleEnv e = true) /\
    (forall e, In e entries -> countedAsFile sampleEnv "/music/Album" e = true ->
       storedAsImage sampleEnv e = true ->
       is_Some (imageFiles (sampleAlbumFolder 0) !! Name e)).
Proof.
  apply (loadDir_file_maps sampleEnv scanFresh 3 "/music/Album" world0
           (sampleAlbumFolder 0) [] (World None 0 [] [] 1)).
  vm_compute. reflexivity.
Defined.

(** The loader on /music: one child, no playlist. *)
Lemma loadDir_keeps_name_order_witness :
  exists dir entries w1,
    os_Open sampleEnv "/music" = Ok dir /\
    fullReadDir 3 dir world0 = Some (entries, w1) /\
    Sorted nameLe entries /\
    ["/music/Album"] = List.map (childPath sampleEnv "/music")
                         (List.filter (walkable sampleEnv "/music") entries) /\
    playlists (sampleRootFolder 0)
      = List.filter (fun e => countedAsFile sampleEnv "/music" e
                              && storedAsPlaylist sampleEnv e) entries.
Proof.
  apply (loadDir_keeps_name_order sampleEnv scanFresh 3 "/music" world0
           (sampleRootFolder 0) ["/music/Album"]
           (World None 0 [invalidSymlinkLine] [] 1)).
  vm_compute. reflexivity.
Defined.

(** The loader on /music/Album: an audio file, an image and a playlist. *)
Lemma loadDir_kinds_disjoint_witness :
  (forall name, is_Some (audioFiles (sampleAlbumFolder 0) !! name) ->
                imageFiles (sampleAlbumFolder 0) !! name = None) /\
  (forall e, In e (playlists (sampleAlbumFolder 0)) ->
     audioFiles (sampleAlbumFolder 0) !! Name e = None /\
     imageFiles (sampleAlbumFolder 0) !! Name e = None).
Proof.
  apply (loadDir_kinds_disjoint sampleEnv scanFresh 3 "/music/Album" world0
           (sampleAlbumFolder 0) [] (World None 0 [] [] 1)).
  vm_compute. reflexivity.
Defined.

(** ** More on the directory reader *)

(** X11.  Whatever happens, what [fullReadDir] returns is in the order
    of the names, and it is either nothing or a rearrangement of the
    entries of the [ReadDir] calls it has made: it neither drops nor
    adds an entry. *)
Theorem fullReadDir_result_is_what_was_read (fuel : nat) (dir : dirFile)
    (w : world) (es : list dirEntry) (w' : world) :
  fullReadDir fuel dir w = Some (es, w') ->
  Sorted nameLe es /\
  exists c, readDirCalls w' = (readDirCalls w + c)%nat /\
            (es = [] \/ Permutation (entriesOfCalls dir 0 c) es).
Proof.
  intros H. split; [eapply fullReadDir_sorted; exact H|].
  apply fullReadDir_loop_inv in H.
  destruct H as (c & Hrc & _ & _ & [(-> & _)|(c' & _ & -> & _)]);
    exists c; (split; [exact Hrc|]); [now left | right].
  apply sortByName_perm.
Qed.

(** The reader on a handle that fails once and then reads to the end. *)
Lemma fullReadDir_result_is_what_was_read_witness :
  Sorted nameLe [regularFile "a.mp3" 7; regularFile "b.mp3" 5] /\
  exists c,
    readDirCalls (World None 0 [LogLine LWarn "Skipping DirEntry"
                                        "input/output error"] [] 2)
    = (readDirCalls world0 + c)%nat /\
    ([regularFile "a.mp3" 7; regularFile "b.mp3" 5] = [] \/
     Permutation (entriesOfCalls dirOneFailure 0 c)
                 [regularFile "a.mp3" 7; regularFile "b.mp3" 5]).
Proof.
  apply (fullReadDir_result_is_what_was_read 2 dirOneFailure world0).
  vm_compute. reflexivity.
Defined.

(** X12.  On errors that never change [fullReadDir] returns within two
    [ReadDir] calls, whatever the message and the state of the context;
    two units of fuel are enough. *)
Theorem fullReadDir_gives_up_on_identical_errors (dir : dirFile) (e : error)
    (fuel : nat) (w : world) :
  (forall i, errAt dir i = Some e) ->
  exists es w', fullReadDir (S (S fuel)) dir w = Some (es, w') /\
                (readDirCalls w' <= readDirCalls w + 2)%nat.
Proof. apply fullReadDir_identical_errors_terminate. Qed.

Lemma fullReadDir_gives_up_on_identical_errors_witness :
  exists es w', fullReadDir 2 dirAlwaysFailing world0 = Some (es, w') /\
                (readDirCalls w' <= readDirCalls world0 + 2)%nat.
Proof.
  apply (fullReadDir_gives_up_on_identical_errors dirAlwaysFailing
           "input/output error" 0 world0).
  intros i. reflexivity.
Defined.

Lemma fullReadDir_loop_goes_on (dir : dirFile) (m : nat -> error) (fuel : nat) :
  (forall i, errAt dir i = Some (m i)) ->
  (forall i, m (S i) <> m i) ->
  forall (n : nat) (allEntries : list dirEntry) (prevErrStr : string) (w : world),
    ctxLeft w = None -> prevErrStr <> m n ->
    fullReadDir_loop fuel dir n allEntries prevErrStr w = None.
Proof.
  intros Herr Hdiff. induction fuel as [|fuel IH];
    intros n allEntries prevErrStr w Hc Hprev; [reflexivity|].
  rewrite (fullReadDir_loop_retry _ _ _ _ _ (m n)); trivial.
  - apply IH; [unfold afterRetry; simpl; now rewrite Hc|].
    intros Heq. now apply (Hdiff n).
  - unfold ctxAllows. now rewrite Hc.
Qed.

(** X13.  The reader only notices an error that repeats the one just
    before it.  On a handle whose calls all fail, no message being
    empty at first or equal to the one before it, and with a context
    that is never cancelled, [fullReadDir] does not return: it runs out
    of any amount of fuel. *)
Theorem fullReadDir_loops_on_changing_errors (dir : dirFile) (m : nat -> error)
    (w : world) (fuel : nat) :
  (forall i, errAt dir i = Some (m i)) ->
  m O <> "" ->
  (forall i, m (S i) <> m i) ->
  ctxLeft w = None ->
  fullReadDir fuel dir w = None.
Proof.
  intros Herr H0 Hdiff Hc. unfold fullReadDir.
  apply (fullReadDir_loop_goes_on dir m); trivial. congruence.
Qed.

Lemma fullReadDir_loops_on_changing_errors_witness :
  fullReadDir 1000 dirAlternating world0 = None.
Proof.
  apply (fullReadDir_loops_on_changing_errors dirAlternating
           (fun i => if Nat.even i then "timeout" else "busy") world0 1000).
  - intros i. reflexivity.
  - discriminate.
  - intros i. rewrite Nat.even_succ, <- Nat.negb_even.
    destruct (Nat.even i); discriminate.
  - reflexivity.
Defined.

(** The first scan of the sample library. *)
Lemma walkFolder_sends_well_formed_folders_witness :
  exists sent,
    results (World None 2 [invalidSymlinkLine; foundLine "/music/Album";
                           foundLine "/music"]
                   [sampleAlbumFolder 0; sampleRootFolder 0] 2)
    = (results world0 ++ sent)%list /\
    Forall (sentByWalk sampleEnv scanFresh "/music") sent.
Proof.
  apply (walkFolder_sends_well_formed_folders sampleEnv scanFresh 4 "/music"
           world0 None).
  vm_compute. reflexivity.
Defined.

(** A scan of the sample library in which only the album has changed:
    two folders counted, one sent. *)
Lemma walkFolder_sends_at_most_counted_witness :
  Z.of_nat (List.length (results (World None 2
              [invalidSymlinkLine; foundLine "/music/Album"]
              [sampleAlbumFolder 30] 2)))
  - Z.of_nat (List.length (results world0))
  <= numFolders (World None 2 [invalidSymlinkLine; foundLine "/music/Album"]
                       [sampleAlbumFolder 30] 2)
     - numFolders world0.
Proof.
  apply (walkFolder_sends_at_most_counted sampleEnv scanAlbumChanged 4 "/music"
           world0 None).
  vm_compute. reflexivity.
Defined.

(** A full rescan of the sample library: two folders counted and sent. *)
Lemma walkFolder_full_rescan_sends_all_counted_witness :
  Z.of_nat (List.length (results (World None 2
              [invalidSymlinkLine; foundLine "/music/Album"; foundLine "/music"]
              [sampleAlbumFolder 100; sampleRootFolder 100] 2)))
  - Z.of_nat (List.length (results world0))
  = numFolders (World None 2
              [invalidSymlinkLine; foundLine "/music/Album"; foundLine "/music"]
              [sampleAlbumFolder 100; sampleRootFolder 100] 2)
    - numFolders world0.
Proof.
  apply (walkFolder_full_rescan_sends_all_counted sampleEnv scanFull 4 "/music"
           world0 None).
  - reflexivity.
  - vm_compute. reflexivity.
Defined.

(** The walk of the sample library returns. *)
Lemma walkFolder_returns_on_finite_trees_witness :
  exists w', walkFolder sampleEnv scanFresh 3 "/music" world0 = Some (None, w').
Proof.
  apply (walkFolder_returns_on_finite_trees sampleEnv scanFresh sampleRank 1 3
           "/music" world0 sampleEnv_reads_to_an_end sampleEnv_nests).
  vm_compute. lia.
Defined.

(** The sample library when its root cannot be stat'ed. *)
Lemma walkFolder_skips_unreadable_directory_witness :
  exists lines,
    walkFolder sampleEnvNoRoot scanFull 1 "/music" world0
    = Some (None,
            World (ctxLeft world0) (numFolders world0)
                  (logs world0 ++ lines ++
                   [LogLine LWarn "Scanner: Error loading dir. Skipping" "/music"])
                  (results world0) (readDirCalls world0)).
Proof.
  apply (walkFolder_skips_unreadable_directory sampleEnvNoRoot scanFull 0
           "/music" world0).
  left. now exists "no such file or directory".
Defined.

(** The album of the sample library on a cancelled context: it is sent
    without its files. *)
Lemma walkFolder_on_cancelled_context_witness :
  exists w',
    walkFolder sampleEnv scanFresh 2 "/music/Album" (World (Some O) 0 [] [] 0)
    = Some (None, w') /\
    readDirCalls w' = readDirCalls (World (Some O) 0 [] [] 0) /\
    numFolders w' = numFolders (World (Some O) 0 [] [] 0) + 1 /\
    results w'
    = (results (World (Some O) 0 [] [] 0) ++
       ownEmission sampleEnv scanFresh "/music/Album"
         (set_modTime (newFolderEntry sampleEnv scanFresh "/music/Album")
                      (ModTime (FileInfo 30 true))))%list.
Proof.
  apply (walkFolder_on_cancelled_context sampleEnv scanFresh 0 "/music/Album"
           (World (Some O) 0 [] [] 0) (FileInfo 30 true) (readsAtOnce sampleAlbum));
    reflexivity.
Defined.

(** The album of the sample library when the context is cancelled
    after the first of its files has been examined. *)
Lemma walkFolder_cancelled_among_entries_witness :
  walkFolder sampleEnv scanFresh 3 "/music/Album" (World (Some 2%nat) 0 [] [] 0)
  = Some (None,
          World (Some O) (numFolders (World (Some 2%nat) 0 [] [] 0))
                (logs (World (Some O) 0 [] [] 1) ++
                 [LogLine LWarn "Scanner: Error loading dir. Skipping"
                          "/music/Album"])
                (results (World (Some 2%nat) 0 [] [] 0))
                (readDirCalls (World (Some O) 0 [] [] 1))).
Proof.
  apply (walkFolder_cancelled_among_entries sampleEnv scanFresh 2 "/music/Album"
           (World (Some 2%nat) 0 [] [] 0) (FileInfo 30 true) (readsAtOnce sampleAlbum)
           [regularFile "01.mp3" 25] (regularFile "cover.jpg" 35)
           [regularFile "list.m3u" 15]
           (World (Some 1%nat) 0 [] [] 1)
           (FolderEntry "/music/Album" "/music/Album" 30 zeroTime
                        (<["01.mp3" := regularFile "01.mp3" 25]> ∅) ∅ [] zeroTime)
           [] (World (Some O) 0 [] [] 1)).
  - reflexivity.
  - reflexivity.
  - vm_compute. reflexivity.
  - vm_compute. reflexivity.
  - reflexivity.
Defined.

End Scanner2More.

(** * Further properties of the archiver *)

Module ArchiverMore.
Import Archiver ArchiverFacts.

(** ** File names *)

Lemma allDigits_app (s t : string) :
  allDigits (s ++ t) = allDigits s && allDigits t.
Proof.
  induction s as [|c s IH]; [reflexivity|].
  rewrite append_String. simpl. now rewrite IH, andb_assoc.
Qed.

Lemma allDigits_zeros (k : nat) : allDigits (zeros k) = true.
Proof. induction k; simpl; trivial. Qed.

Lemma allDigits_decimal (n : N) : allDigits (decimal n) = true.
Proof.
  unfold decimal. induction (N.to_uint n); simpl; trivial.
Qed.

Lemma allDigits_zeroPad (width : nat) (n : N) :
  allDigits (zeroPad width (decimal n)) = true.
Proof.
  unfold zeroPad. now rewrite allDigits_app, allDigits_zeros, allDigits_decimal.
Qed.

(** Two numerals followed by a space are the same numeral when what
    they begin is the same string. *)
Lemma numeral_before_space (s1 : string) :
  forall s2 r1 r2,
    allDigits s1 = true -> allDigits s2 = true ->
    s1 ++ String " " r1 = s2 ++ String " " r2 -> s1 = s2.
Proof.
  induction s1 as [|c s1 IH]; intros [|d s2] r1 r2 H1 H2 Heq; trivial.
  - rewrite append_String in Heq. injection Heq as <- _. discriminate.
  - rewrite append_String in Heq. injection Heq as -> _. discriminate.
  - rewrite !append_String in Heq. injection Heq as <- Heq.
    simpl in H1, H2. apply andb_true_iff in H1, H2.
    f_equal. now apply (IH s2 r1 r2).
Qed.

Lemma fmt_02d_index (idx : Z) :
  0 <= idx < 2 ^ 63 - 1 ->
  fmt_02d (wrapInt (idx + 1)) = zeroPad 2 (decimal (Z.to_N (idx + 1))).
Proof.
  intros H. rewrite wrapInt_small by lia. unfold fmt_02d.
  destruct (Z.ltb_spec (idx + 1) 0); [lia | reflexivity].
Qed.

(** The number in front of a name gives back the index. *)
Lemma playlistFilename_index (mf mf' : MediaFile) (format format' : string)
    (i j : Z) :
  0 <= i < 2 ^ 63 - 1 -> 0 <= j < 2 ^ 63 - 1 ->
  playlistFilename mf format i = playlistFilename mf' format' j -> i = j.
Proof.
  intros Hi Hj. unfold playlistFilename.
  rewrite (fmt_02d_index i Hi), (fmt_02d_index j Hj). intros Heq.
  apply numeral_before_space in Heq; try apply allDigits_zeroPad.
  apply (f_equal numeralValue) in Heq.
  rewrite !numeralValue_zeroPad in Heq. injection Heq as Heq. lia.
Qed.

(** X15.  Two entries of a playlist at different indices never get the
    same name, whatever the files and the formats are: the number in
    front tells them apart. *)
Theorem playlistFilename_tells_indices_apart (mf mf' : MediaFile)
    (format format' : string) (i j : Z) :
  0 <= i < 2 ^ 63 - 1 -> 0 <= j < 2 ^ 63 - 1 -> i <> j ->
  playlistFilename mf format i <> playlistFilename mf' format' j.
Proof.
  intros Hi Hj Hij Heq. apply Hij.
  exact (playlistFilename_index mf mf' format format' i j Hi Hj Heq).
Qed.

(** The same track twice in a playlist, in the first and in the
    eleventh place. *)
Lemma playlistFilename_tells_indices_apart_witness :
  playlistFilename (sampleTrack 1 "01.flac") "mp3" 0
  <> playlistFilename (sampleTrack 1 "01.flac") "mp3" 10.
Proof.
  apply (playlistFilename_tells_indices_apart (sampleTrack 1 "01.flac")
           (sampleTrack 1 "01.flac") "mp3" "mp3" 0 10); lia.
Defined.

(** The names of the files of a playlist from [idx] on. *)
Lemma playlistEntries_nth (format : string) (mfs : list MediaFile) :
  forall (idx : Z) (k : nat) (mf : MediaFile),
    nth_error mfs k = Some mf ->
    nth_error (playlistEntries format mfs idx) k
    = Some (mf, playlistFilename mf format (idx + Z.of_nat k)).
Proof.
  induction mfs as [|m rest IH]; intros idx [|k] mf H; try discriminate.
  - injection H as ->. simpl. now rewrite Z.add_0_r.
  - cbn [playlistEntries nth_error]. rewrite (IH (idx + 1) k mf H).
    do 3 f_equal. lia.
Qed.

Lemma playlistEntries_names (format : string) (mfs : list MediaFile) :
  forall (idx : Z) (name : string),
    In name (List.map snd (playlistEntries format mfs idx)) ->
    exists mf k, idx <= k < idx + Z.of_nat (List.length mfs) /\
                 name = playlistFilename mf format k.
Proof.
  induction mfs as [|m rest IH]; intros idx name; [intros []|].
  cbn [playlistEntries List.map snd In List.length].
  intros [<-|Hin].
  - exists m, idx. split; [lia | reflexivity].
  - destruct (IH _ _ Hin) as (mf & k & Hk & ->). exists mf, k. split; [lia | reflexivity].
Qed.

Lemma playlistEntries_NoDup (format : string) (mfs : list MediaFile) :
  forall idx : Z,
    0 <= idx -> idx + Z.of_nat (List.length mfs) <= 2 ^ 63 - 1 ->
    List.NoDup (List.map snd (playlistEntries format mfs idx)).
Proof.
  induction mfs as [|m rest IH]; intros idx H0 Hlen; [constructor|].
  cbn [playlistEntries List.map snd]. cbn [List.length] in Hlen.
  constructor; [|apply IH; lia].
  intros Hin. apply playlistEntries_names in Hin.
  destruct Hin as (mf & k & Hk & Heq).
  apply playlistFilename_index in Heq; lia.
Qed.

(** X16.  [zipPlaylist] adds the files in the order of the playlist,
    the file in place k under the name numbered k + 1, and no two of
    the names are the same, also when a track is in the playlist more
    than once. *)
Theorem zipPlaylist_numbers_files_by_place (E : services) (format : string)
    (bitrate : Z) (st : state E) (mfs : list MediaFile) :
  Z.of_nat (List.length mfs) <= 2 ^ 63 - 1 ->
  fst (zipPlaylist_files E st mfs 0 format bitrate)
  = fold_left (writerAfter E format bitrate) (playlistEntries format mfs 0) (fst st) /\
  (forall k mf, nth_error mfs k = Some mf ->
     nth_error (playlistEntries format mfs 0) k
     = Some (mf, playlistFilename mf format (Z.of_nat k))) /\
  List.NoDup (List.map snd (playlistEntries format mfs 0)).
Proof.
  intros Hlen. split; [apply zipPlaylist_files_writer|]. split.
  - intros k mf H. now rewrite (playlistEntries_nth format mfs 0 k mf H).
  - apply playlistEntries_NoDup; lia.
Qed.

Lemma zipPlaylist_numbers_files_by_place_witness :
  fst (zipPlaylist_files sampleServices (zip_NewWriter sampleServices, [])
         sampleTracks 0 "mp3" 0)
  = fold_left (writerAfter sampleServices "mp3" 0)
      (playlistEntries "mp3" sampleTracks 0)
      (fst (zip_NewWriter sampleServices, @nil logLine)) /\
  (forall k mf, nth_error sampleTracks k = Some mf ->
     nth_error (playlistEntries "mp3" sampleTracks 0) k
     = Some (mf, playlistFilename mf "mp3" (Z.of_nat k))) /\
  List.NoDup (List.map snd (playlistEntries "mp3" sampleTracks 0)).
Proof.
  apply (zipPlaylist_numbers_files_by_place sampleServices "mp3" 0
           (zip_NewWriter sampleServices, []) sampleTracks).
  vm_compute. discriminate.
Defined.

(** ** Names in an album *)

Lemma substring_all (s : string) : String.substring 0 (String.length s) s = s.
Proof. induction s as [|c s IH]; simpl; [|rewrite IH]; reflexivity. Qed.

Lemma substring_none (s : string) : String.substring 0 0 s = "".
Proof. now destruct s. Qed.

Lemma substring_split (s : string) :
  forall n : nat,
    (n <= String.length s)%nat ->
    s = String.substring 0 n s ++ String.substring n (String.length s - n) s.
Proof.
  induction s as [|c s IH]; intros [|n] Hn; simpl in Hn |- *; try lia; trivial.
  - now rewrite substring_all.
  - rewrite append_String. f_equal. apply IH. lia.
Qed.

Lemma substring_prefix (s t : string) :
  String.substring 0 (String.length s) (s ++ t) = s.
Proof.
  induction s as [|c s IH]; [apply substring_none|].
  rewrite append_String. simpl. now rewrite IH.
Qed.

Lemma substring_suffix (s t : string) :
  String.substring (String.length s) (String.length t) (s ++ t) = t.
Proof.
  induction s as [|c s IH]; [apply substring_all|].
  rewrite append_String. simpl. exact IH.
Qed.

(** [strings.TrimSuffix] removes a suffix that is there, and returns
    the string as it is when the suffix is not there. *)
Lemma TrimSuffix_app (s suffix : string) : TrimSuffix (s ++ suffix) suffix = s.
Proof.
  unfold TrimSuffix. rewrite length_append.
  replace (String.length s + String.length suffix - String.length suffix)%nat
    with (String.length s) by lia.
  rewrite substring_suffix, String.eqb_refl, substring_prefix.
  now destruct (Nat.leb_spec (String.length suffix)
                             (String.length s + String.length suffix)); [|lia].
Qed.

Lemma TrimSuffix_other (s suffix : string) :
  (forall stem, s <> stem ++ suffix) -> TrimSuffix s suffix = s.
Proof.
  intros Hno. unfold TrimSuffix.
  destruct (Nat.leb_spec (String.length suffix) (String.length s)) as [Hle|];
    [|reflexivity].
  destruct (String.eqb_spec
              (String.substring (String.length s - String.length suffix)
                                (String.length suffix) s) suffix) as [Heq|];
    [|reflexivity].
  exfalso. apply (Hno (String.substring 0 (String.length s - String.length suffix) s)).
  pose proof (substring_split s (String.length s - String.length suffix)%nat)
    as Hsplit.
  replace (String.length s - (String.length s - String.length suffix))%nat
    with (String.length suffix) in Hsplit by lia.
  rewrite Heq in Hsplit. apply Hsplit. lia.
Qed.

(** X17.  When the format is not raw and the file name ends with the
    suffix of the media file, [albumFilename] puts the format in the
    place of the suffix; the name is under the album, and under the
    directory of the disc when the album has several discs. *)
Theorem albumFilename_replaces_suffix (E : services) (mf : MediaFile)
    (format stem : string) :
  format <> "raw" ->
  snd (filepath_Split E (Path mf)) = stem ++ Suffix mf ->
  albumFilename E mf format false = Album mf ++ "/" ++ stem ++ format /\
  albumFilename E mf format true
  = Album mf ++ "/" ++ "Disc " ++ fmt_02d (DiscNumber mf) ++ "/" ++ stem ++ format.
Proof.
  intros Hraw Hfile. unfold albumFilename. rewrite Hfile, TrimSuffix_app.
  destruct (String.eqb_spec format "raw"); [contradiction|]. now split.
Qed.

Lemma albumFilename_replaces_suffix_witness :
  albumFilename sampleServices (sampleTrack 2 "01.flac") "mp3" false
  = Album (sampleTrack 2 "01.flac") ++ "/" ++ "01." ++ "mp3" /\
  albumFilename sampleServices (sampleTrack 2 "01.flac") "mp3" true
  = Album (sampleTrack 2 "01.flac") ++ "/" ++ "Disc "
    ++ fmt_02d (DiscNumber (sampleTrack 2 "01.flac")) ++ "/" ++ "01." ++ "mp3".
Proof.
  apply (albumFilename_replaces_suffix sampleServices (sampleTrack 2 "01.flac")
           "mp3" "01."); [discriminate | reflexivity].
Defined.

(** X18.  When the format is not raw and the file name does not end
    with the suffix of the media file, the format is appended to the
    whole file name, with nothing between them. *)
Theorem albumFilename_appends_without_suffix (E : services) (mf : MediaFile)
    (format : string) :
  format <> "raw" ->
  (forall stem, snd (filepath_Split E (Path mf)) <> stem ++ Suffix mf) ->
  albumFilename E mf format false
  = Album mf ++ "/" ++ snd (filepath_Split E (Path mf)) ++ format.
Proof.
  intros Hraw Hno. unfold albumFilename. rewrite (TrimSuffix_other _ _ Hno).
  now destruct (String.eqb_spec format "raw"); [contradiction|].
Qed.

Lemma albumFilename_appends_without_suffix_witness :
  albumFilename sampleServices (sampleTrack 1 "gone") "mp3" false
  = Album (sampleTrack 1 "gone") ++ "/"
    ++ snd (filepath_Split sampleServices (Path (sampleTrack 1 "gone"))) ++ "mp3".
Proof.
  apply (albumFilename_appends_without_suffix sampleServices (sampleTrack 1 "gone")
           "mp3"); [discriminate|].
  intros stem H. pose proof (f_equal String.length H) as Hl.
  rewrite length_append in Hl.
  destruct stem; [vm_compute in H; discriminate | simpl in Hl; lia].
Defined.

(** ** Errors and the log *)

(** X19.  [addFileToZip] never fails in silence: when it returns an
    error, the log has grown by an Error line about the path of the
    file, for the step that failed, and by nothing before that line. *)
Theorem addFileToZip_logs_its_error (E : services) (st st' : state E)
    (mf : MediaFile) (format : string) (bitrate : Z) (filename : string)
    (e : error) :
  addFileToZip E st mf format bitrate filename = (st', Some e) ->
  exists message more,
    snd st' = (snd st ++ LogLine LError message (Path mf) :: more)%list /\
    In message addFileToZipMessages.
Proof.
  destruct st as [z lg]. unfold addFileToZip, addFileToZipMessages.
  destruct (CreateHeader E z _) as [z1 [e1|]].
  - intros [= <- _]. do 2 eexists. split; [reflexivity | simpl; auto].
  - destruct (if negb (String.eqb format "raw")
              then DoStream E mf format bitrate else os_Open E (Path mf))
      as [r|e2].
    + destruct (io_Copy E z1 r) as [z2 [e3|]]; [|discriminate].
      intros [= <- _]. do 2 eexists. split; [reflexivity | simpl; auto].
    + intros [= <- _]. do 2 eexists. split; [reflexivity | simpl; auto].
Qed.

(** The track of the sample archive whose file is gone. *)
Lemma addFileToZip_logs_its_error_witness :
  exists message more,
    snd (zip_NewWriter sampleServices ++ ["gone"],
         [LogLine LError "Error opening file for zipping" "gone"])%list
    = (snd (zip_NewWriter sampleServices, @nil logLine)
       ++ LogLine LError message (Path (sampleTrack 1 "gone")) :: more)%list /\
    In message addFileToZipMessages.
Proof.
  apply (addFileToZip_logs_its_error sampleServices
           (zip_NewWriter sampleServices, [])
           ((zip_NewWriter sampleServices ++ ["gone"])%list,
            [LogLine LError "Error opening file for zipping" "gone"])
           (sampleTrack 1 "gone") "raw" 0 "gone" "no such file").
  reflexivity.
Defined.

Lemma closeZip_logs_its_error (E : services) (st st' : state E) (id : string)
    (e : error) :
  closeZip E st id = (st', Some e) ->
  exists lines, snd st' = (lines ++ [LogLine LError "Error closing zip file" id])%list.
Proof.
  destruct st as [z lg]. unfold closeZip.
  destruct (zip_Close E z) as [z1 [e1|]]; [|discriminate].
  intros [= <- _]. now exists lg.
Qed.

Lemma zipAlbums_logs_its_error (E : services) (lg : list logLine)
    (id format : string) (bitrate : Z) (mfs : list MediaFile) (st : state E)
    (e : error) :
  zipAlbums E lg id format bitrate mfs = Some (st, Some e) ->
  exists lines, snd st = (lines ++ [LogLine LError "Error closing zip file" id])%list.
Proof.
  unfold zipAlbums.
  destruct (zipAlbums_albums E _ _ format bitrate) as [st1|]; [|discriminate].
  intros [= H]. now apply closeZip_logs_its_error in H.
Qed.

(** X20.  Every error that [ZipAlbum], [ZipArtist] or [ZipPlaylist]
    returns has been logged: the last line of the log is then an Error
    line about the id asked for. *)
Theorem Zip_returned_error_is_logged (E : services) (lg : list logLine)
    (id format : string) (bitrate : Z) (st : state E) (e : error) :
  ZipAlbum E lg id format bitrate = Some (st, Some e) \/
  ZipArtist E lg id format bitrate = Some (st, Some e) \/
  ZipPlaylist E lg id format bitrate = Some (st, Some e) ->
  exists lines message,
    snd st = (lines ++ [LogLine LError message id])%list.
Proof.
  unfold ZipAlbum, ZipArtist, ZipPlaylist, failed, zipPlaylist.
  intros [H|[H|H]].
  - destruct (MediaFile_GetAll E _) as [mfs|e1].
    + apply zipAlbums_logs_its_error in H. destruct H as [lines H].
      now exists lines, "Error closing zip file".
    + injection H as <- _. now do 2 eexists.
  - destruct (MediaFile_GetAll E _) as [mfs|e1].
    + apply zipAlbums_logs_its_error in H. destruct H as [lines H].
      now exists lines, "Error closing zip file".
    + injection H as <- _. now do 2 eexists.
  - destruct (Playlist_GetWithTracks E id true) as [pls|e1].
    + injection H as H. apply closeZip_logs_its_error in H.
      destruct H as [lines H]. now exists lines, "Error closing zip file".
    + injection H as <- _. now do 2 eexists.
Qed.

(** The album of the sample archive on a writer that cannot be closed. *)
Lemma Zip_returned_error_is_logged_witness :
  exists lines message,
    snd (["Album/01.flac"; "Album/gone"; "Album/03.flac"],
         [LogLine LDebug "Zipping album" "Album";
          LogLine LError "Error opening file for zipping" "gone";
          LogLine LError "Error closing zip file" "a1"])
    = (lines ++ [LogLine LError message "a1"])%list.
Proof.
  apply (Zip_returned_error_is_logged sampleServicesNoClose [] "a1" "raw" 0
           (["Album/01.flac"; "Album/gone"; "Album/03.flac"],
            [LogLine LDebug "Zipping album" "Album";
             LogLine LError "Error opening file for zipping" "gone";
             LogLine LError "Error closing zip file" "a1"])
           "short write").
  left. reflexivity.
Defined.

(** ** Where the bytes come from *)

Section Sources.

Variable E : services.

Lemma zipAlbum_files_raw (stream : MediaFile -> string -> Z -> result (reader E))
    (bitrate : Z) (isMultDisc : bool) (album : list MediaFile) :
  forall st : state E,
    zipAlbum_files (withDoStream E stream) st album "raw" bitrate isMultDisc
    = zipAlbum_files E st album "raw" bitrate isMultDisc.
Proof.
  induction album as [|mf rest IH]; intros st; [reflexivity|].
  cbn [zipAlbum_files].
  change (addFileToZip (withDoStream E stream) st mf "raw" bitrate
            (albumFilename (withDoStream E stream) mf "raw" isMultDisc))
    with (addFileToZip E st mf "raw" bitrate (albumFilename E mf "raw" isMultDisc)).
  destruct (addFileToZip E st mf "raw" bitrate _) as [st1 r]. apply IH.
Qed.

Lemma zipAlbums_albums_raw (stream : MediaFile -> string -> Z -> result (reader E))
    (bitrate : Z) (albums : list (string * list MediaFile)) :
  forall st : state E,
    zipAlbums_albums (withDoStream E stream) st albums "raw" bitrate
    = zipAlbums_albums E st albums "raw" bitrate.
Proof.
  induction albums as [|[k album] rest IH]; intros [z lg]; [reflexivity|].
  cbn [zipAlbums_albums]. destruct album as [|first album]; [reflexivity|].
  rewrite zipAlbum_files_raw. apply IH.
Qed.

Lemma zipPlaylist_files_raw (stream : MediaFile -> string -> Z -> result (reader E))
    (bitrate : Z) (mfs : list MediaFile) :
  forall (st : state E) (idx : Z),
    zipPlaylist_files (withDoStream E stream) st mfs idx "raw" bitrate
    = zipPlaylist_files E st mfs idx "raw" bitrate.
Proof.
  induction mfs as [|mf rest IH]; intros st idx; [reflexivity|].
  cbn [zipPlaylist_files].
  change (addFileToZip (withDoStream E stream) st mf "raw" bitrate
            (playlistFilename mf "raw" idx))
    with (addFileToZip E st mf "raw" bitrate (playlistFilename mf "raw" idx)).
  destruct (addFileToZip E st mf "raw" bitrate _) as [st1 r]. apply IH.
Qed.

(** X21.  With the format raw the media streamer has no part in what
    [ZipAlbum], [ZipArtist] and [ZipPlaylist] do: the archive, the log
    and the error are the same whatever [DoStream] would return. *)
Theorem Zip_raw_never_transcodes
    (stream : MediaFile -> string -> Z -> result (reader E))
    (lg : list logLine) (id : string) (bitrate : Z) :
  ZipAlbum (withDoStream E stream) lg id "raw" bitrate
  = ZipAlbum E lg id "raw" bitrate /\
  ZipArtist (withDoStream E stream) lg id "raw" bitrate
  = ZipArtist E lg id "raw" bitrate /\
  ZipPlaylist (withDoStream E stream) lg id "raw" bitrate
  = ZipPlaylist E lg id "raw" bitrate.
Proof.
  assert (Halbums : forall mfs,
            zipAlbums (withDoStream E stream) lg id "raw" bitrate mfs
            = zipAlbums E lg id "raw" bitrate mfs).
  { intros mfs. unfold zipAlbums.
    change (slice_Group (withDoStream E stream)) with (slice_Group E).
    change (zip_NewWriter (withDoStream E stream)) with (zip_NewWriter E).
    now rewrite zipAlbums_albums_raw. }
  repeat split.
  - unfold ZipAlbum.
    change (MediaFile_GetAll (withDoStream E stream)) with (MediaFile_GetAll E).
    destruct (MediaFile_GetAll E _); [apply Halbums | reflexivity].
  - unfold ZipArtist.
    change (MediaFile_GetAll (withDoStream E stream)) with (MediaFile_GetAll E).
    destruct (MediaFile_GetAll E _); [apply Halbums | reflexivity].
  - unfold ZipPlaylist.
    change (Playlist_GetWithTracks (withDoStream E stream))
      with (Playlist_GetWithTracks E).
    destruct (Playlist_GetWithTracks E id true) as [pls|e]; [|reflexivity].
    unfold zipPlaylist.
    change (MediaFiles (withDoStream E stream) pls) with (MediaFiles E pls).
    change (zip_NewWriter (withDoStream E stream)) with (zip_NewWriter E).
    change (plName (withDoStream E stream) pls) with (plName E pls).
    now rewrite zipPlaylist_files_raw.
Qed.

Variable format : string.
Hypothesis format_not_raw : format <> "raw".

Lemma addFileToZip_transcoded (open : string -> result (reader E))
    (st : state E) (mf : MediaFile) (bitrate : Z) (filename : string) :
  addFileToZip (withOpen E open) st mf format bitrate filename
  = addFileToZip E st mf format bitrate filename.
Proof.
  unfold addFileToZip.
  now destruct (String.eqb_spec format "raw"); [contradiction|].
Qed.

Lemma zipAlbum_files_transcoded (open : string -> result (reader E))
    (bitrate : Z) (isMultDisc : bool) (album : list MediaFile) :
  forall st : state E,
    zipAlbum_files (withOpen E open) st album format bitrate isMultDisc
    = zipAlbum_files E st album format bitrate isMultDisc.
Proof.
  induction album as [|mf rest IH]; intros st; [reflexivity|].
  cbn [zipAlbum_files]. rewrite addFileToZip_transcoded.
  change (albumFilename (withOpen E open) mf format isMultDisc)
    with (albumFilename E mf format isMultDisc).
  destruct (addFileToZip E st mf format bitrate _) as [st1 r]. apply IH.
Qed.

Lemma zipAlbums_albums_transcoded (open : string -> result (reader E))
    (bitrate : Z) (albums : list (string * list MediaFile)) :
  forall st : state E,
    zipAlbums_albums (withOpen E open) st albums format bitrate
    = zipAlbums_albums E st albums format bitrate.
Proof.
  induction albums as [|[k album] rest IH]; intros [z lg]; [reflexivity|].
  cbn [zipAlbums_albums]. destruct album as [|first album]; [reflexivity|].
  rewrite zipAlbum_files_transcoded. apply IH.
Qed.

Lemma zipPlaylist_files_transcoded (open : string -> result (reader E))
    (bitrate : Z) (mfs : list MediaFile) :
  forall (st : state E) (idx : Z),
    zipPlaylist_files (withOpen E open) st mfs idx format bitrate
    = zipPlaylist_files E st mfs idx format bitrate.
Proof.
  induction mfs as [|mf rest IH]; intros st idx; [reflexivity|].
  cbn [zipPlaylist_files]. rewrite addFileToZip_transcoded.
  destruct (addFileToZip E st mf format bitrate _) as [st1 r]. apply IH.
Qed.

End Sources.

(** X22.  With a format other than raw the files themselves are never
    opened: what [ZipAlbum], [ZipArtist] and [ZipPlaylist] do is the
    same whatever [os.Open] would return, the bytes coming from
    [DoStream] alone. *)
Theorem Zip_transcoded_never_opens_files (E : services) (format : string)
    (open : string -> result (reader E)) (lg : list logLine) (id : string)
    (bitrate : Z) :
  format <> "raw" ->
  ZipAlbum (withOpen E open) lg id format bitrate
  = ZipAlbum E lg id format bitrate /\
  ZipArtist (withOpen E open) lg id format bitrate
  = ZipArtist E lg id format bitrate /\
  ZipPlaylist (withOpen E open) lg id format bitrate
  = ZipPlaylist E lg id format bitrate.
Proof.
  intros Hraw.
  assert (Halbums : forall mfs,
            zipAlbums (withOpen E open) lg id format bitrate mfs
            = zipAlbums E lg id format bitrate mfs).
  { intros mfs. unfold zipAlbums.
    change (slice_Group (withOpen E open)) with (slice_Group E).
    change (zip_NewWriter (withOpen E open)) with (zip_NewWriter E).
    now rewrite (zipAlbums_albums_transcoded E format Hraw). }
  repeat split.
  - unfold ZipAlbum.
    change (MediaFile_GetAll (withOpen E open)) with (MediaFile_GetAll E).
    destruct (MediaFile_GetAll E _); [apply Halbums | reflexivity].
  - unfold ZipArtist.
    change (MediaFile_GetAll (withOpen E open)) with (MediaFile_GetAll E).
    destruct (MediaFile_GetAll E _); [apply Halbums | reflexivity].
  - unfold ZipPlaylist.
    change (Playlist_GetWithTracks (withOpen E open))
      with (Playlist_GetWithTracks E).
    destruct (Playlist_GetWithTracks E id true) as [pls|e]; [|reflexivity].
    unfold zipPlaylist.
    change (MediaFiles (withOpen E open) pls) with (MediaFiles E pls).
    change (zip_NewWriter (withOpen E open)) with (zip_NewWriter E).
    change (plName (withOpen E open) pls) with (plName E pls).
    now rewrite (zipPlaylist_files_transcoded E format Hraw).
Qed.

(** The sample archive transcoded to mp3, where no file can be opened. *)
Lemma Zip_transcoded_never_opens_files_witness :
  ZipAlbum (withOpen sampleServices (fun _ => Err "permission denied"))
           [] "a1" "mp3" 128
  = ZipAlbum sampleServices [] "a1" "mp3" 128 /\
  ZipArtist (withOpen sampleServices (fun _ => Err "permission denied"))
            [] "a1" "mp3" 128
  = ZipArtist sampleServices [] "a1" "mp3" 128 /\
  ZipPlaylist (withOpen sampleServices (fun _ => Err "permission denied"))
              [] "a1" "mp3" 128
  = ZipPlaylist sampleServices [] "a1" "mp3" 128.
Proof.
  apply (Zip_transcoded_never_opens_files sampleServices "mp3"
           (fun _ => Err "permission denied") [] "a1" 128).
  discriminate.
Defined.

End ArchiverMore.
